(** * Hydra gateway: router, rate-limit accountant, credential health,
      the chat fallback loop, the embeddings endpoint, the background
      monitor and the access tokens.

    A shallow embedding of
      - [hydra/core/constants.py]
      - [hydra/services/rate_limiter.py]
      - [hydra/services/api_key_service.py]
      - [hydra/services/router_service.py]
      - [hydra/api/routes/chat.py] ([_detect_required_capabilities],
        [_generate_with_fallback], [_stream_sse])
      - [hydra/api/routes/embed.py]
      - [hydra/services/gemini_client.py] ([estimate_tokens],
        [detect_available_models])
      - [hydra/services/health_monitor.py]
      - [hydra/services/token_service.py]
    together with the properties the specification states about them.

    Conventions of the embedding.
      - Python [int] is [Z].
      - The floats the code computes with (the score of the router and
        its two weights, the token estimate) are IEEE-754 binary64
        numbers, [spec_float] of the standard library with precision 53
        and round to nearest even, as CPython's are.
      - A clock reading (seconds since the epoch, what [time.time()]
        returns) is an exact rational [Qc], and the wall clock is an
        explicit argument [now].  The only arithmetic on clock readings
        is [now - 60], which is exact on the doubles [time.time()]
        returns, and comparisons.
      - A Python [dict] or a Redis hash keyed by strings is a [gmap string _];
        a Python or Redis set is a [gset _].
      - Redis values are stored decoded: a JSON field of a hash is the value
        it decodes to, and [None] stands for a field that is absent (or, for
        the two JSON arrays, not decodable, which the code treats alike).
      - Python compares [str] by code point, [String.ltb] by byte; the two
        agree on ASCII, which the key hashes (hex digests) are.
      - An exception raised by a statement that follows the upstream call
        inside a [try] block is an outcome of that block
        ([UpLateException]); outside such blocks the Redis commands are
        taken to succeed. *)

From Stdlib Require Import ZArith QArith Qcanon Qround String Ascii List.
From Stdlib Require Import SpecFloat.
From stdpp Require Import base numbers gmap strings list sets fin_maps.

Local Open Scope string_scope.
Local Open Scope Z_scope.

(* ===================================================================== *)
(** * hydra/core/constants.py *)
(* ===================================================================== *)

Module constants.

Definition GEMINI_3_FLASH : string := "gemini-3-flash-preview".
Definition GEMINI_25_PRO : string := "gemini-2.5-pro".
Definition GEMINI_25_FLASH : string := "gemini-2.5-flash".
Definition GEMINI_25_FLASH_LITE : string := "gemini-2.5-flash-lite".
Definition GEMINI_25_FLASH_IMAGE : string := "gemini-2.5-flash-image".
Definition GEMINI_EMBEDDING : string := "gemini-embedding-001".

Definition MODEL_PRIORITY : list string :=
  [GEMINI_25_PRO; GEMINI_3_FLASH; GEMINI_25_FLASH; GEMINI_25_FLASH_LITE].

Definition IMAGE_MODEL_PRIORITY : list string := [GEMINI_25_FLASH_IMAGE].

Definition ALL_MODELS : list string :=
  MODEL_PRIORITY ++ IMAGE_MODEL_PRIORITY ++ [GEMINI_EMBEDDING].

(** One entry of [MODEL_RATE_LIMITS]: [{"rpm": _, "rpd": _, "tpm": _}]. *)
Record Limits : Type := mkLimits { rpm : Z; rpd : Z; tpm : Z }.

Definition MODEL_RATE_LIMITS : gmap string Limits :=
  list_to_map
    [ (GEMINI_3_FLASH,        mkLimits 5  50   250000);
      (GEMINI_25_PRO,         mkLimits 5  100  250000);
      (GEMINI_25_FLASH,       mkLimits 15 1500 1000000);
      (GEMINI_25_FLASH_IMAGE, mkLimits 10 25   250000);
      (GEMINI_25_FLASH_LITE,  mkLimits 15 1000 250000);
      (GEMINI_EMBEDDING,      mkLimits 15 1500 1000000) ].

Definition CAP_TEXT : string := "text".
Definition CAP_THINKING : string := "thinking".
Definition CAP_FUNCTION_CALLING : string := "function_calling".
Definition CAP_SEARCH_GROUNDING : string := "search_grounding".
Definition CAP_CODE_EXECUTION : string := "code_execution".
Definition CAP_URL_CONTEXT : string := "url_context".
Definition CAP_STRUCTURED_OUTPUT : string := "structured_output".
Definition CAP_MULTIMODAL_INPUT : string := "multimodal_input".
Definition CAP_IMAGE_GENERATION : string := "image_generation".
Definition CAP_EMBEDDING : string := "embedding".

Definition text_caps : gset string :=
  list_to_set
    [CAP_TEXT; CAP_THINKING; CAP_FUNCTION_CALLING; CAP_SEARCH_GROUNDING;
     CAP_CODE_EXECUTION; CAP_URL_CONTEXT; CAP_STRUCTURED_OUTPUT;
     CAP_MULTIMODAL_INPUT].

Definition MODEL_CAPABILITIES : gmap string (gset string) :=
  list_to_map
    [ (GEMINI_3_FLASH,        text_caps);
      (GEMINI_25_PRO,         text_caps);
      (GEMINI_25_FLASH,       text_caps);
      (GEMINI_25_FLASH_IMAGE, list_to_set [CAP_TEXT; CAP_IMAGE_GENERATION]);
      (GEMINI_25_FLASH_LITE,  text_caps);
      (GEMINI_EMBEDDING,      list_to_set [CAP_EMBEDDING]) ].

Definition REDIS_KEY_RATELIMIT : string := "ratelimit".

Definition TTL_RATE_LIMIT : Z := 86400.

Definition HEALTH_SCORE_MAX : Z := 100.
Definition HEALTH_SCORE_SUCCESS_DELTA : Z := 5.
Definition HEALTH_SCORE_FAILURE_DELTA : Z := -10.
Definition HEALTH_CONSECUTIVE_ERROR_DISABLE : Z := 5.

End constants.

(* ===================================================================== *)
(** * The quota zone's calendar *)
(* ===================================================================== *)

(** [datetime] arithmetic and [strftime("%Y-%m-%d")] of the Python library,
    on the proleptic Gregorian calendar. *)
Module calendar.

(** Civil date [(year, month, day)] of a day number counted from
    1970-01-01. *)
Definition civil_from_days (d : Z) : Z * Z * Z :=
  let z := d + 719468 in
  let era := z / 146097 in
  let doe := z - era * 146097 in
  let yoe := (doe - doe / 1460 + doe / 36524 - doe / 146096) / 365 in
  let y := yoe + era * 400 in
  let doy := doe - (365 * yoe + yoe / 4 - yoe / 100) in
  let mp := (5 * doy + 2) / 153 in
  let dd := doy - (153 * mp + 2) / 5 + 1 in
  let m := if mp <? 10 then mp + 3 else mp - 9 in
  (if m <=? 2 then y + 1 else y, m, dd).

Definition digit (n : Z) : string :=
  String (ascii_of_nat (Z.to_nat (48 + n mod 10))) EmptyString.

Definition pad2 (n : Z) : string := digit (n / 10) ++ digit n.
Definition pad4 (n : Z) : string := pad2 (n / 100) ++ pad2 n.

(** [strftime("%Y-%m-%d")]. *)
Definition strftime_ymd (date : Z * Z * Z) : string :=
  let '(y, m, d) := date in pad4 y ++ "-" ++ pad2 m ++ "-" ++ pad2 d.

End calendar.

(* ===================================================================== *)
(** * hydra/services/rate_limiter.py *)
(* ===================================================================== *)

Module rate_limiter.
Import constants.

(** [_PT_OFFSET = timedelta(hours=-8)], in seconds. *)
Definition _PT_OFFSET : Z := -8 * 3600.

(** [_today_pacific()]: the date of the clock reading shifted by
    [_PT_OFFSET], as [YYYY-MM-DD]. *)
Definition _today_pacific (now : Qc) : string :=
  let pt_now := Qfloor (this now) + _PT_OFFSET in
  calendar.strftime_ymd (calendar.civil_from_days (pt_now / 86400)).

(** One element of the JSON array stored under ["tokens"]:
    [{"ts": _, "count": _}]. *)
Record TokenEntry : Type := mkTokenEntry { ts : Qc; count : Z }.

(** The Redis hash stored under [ratelimit:{key_hash}:{model}].  A key
    that does not exist reads as the hash with no field ([hgetall] returns
    [{}]). *)
Record RateHash : Type := mkRateHash {
  requests : option (list Qc);
  tokens : option (list TokenEntry);
  rpd_count : option Z;
  last_rpd_reset : option string;
  rpm_limit : option Z;
  rpd_limit : option Z;
  tpm_limit : option Z
}.

Definition empty_hash : RateHash :=
  mkRateHash None None None None None None None.

(** The rate-limit keys of the Redis database. *)
Abbreviation RateDb := (gmap string RateHash).

Definition hgetall (db : RateDb) (rkey : string) : RateHash :=
  default empty_hash (db !! rkey).

(** [hset(rkey, field, value)], one definition per field of the hash. *)
Definition hset_requests (rkey : string) (v : list Qc) (db : RateDb) : RateDb :=
  let h := hgetall db rkey in
  <[rkey := mkRateHash (Some v) (tokens h) (rpd_count h) (last_rpd_reset h)
                       (rpm_limit h) (rpd_limit h) (tpm_limit h)]> db.

Definition hset_tokens (rkey : string) (v : list TokenEntry) (db : RateDb) : RateDb :=
  let h := hgetall db rkey in
  <[rkey := mkRateHash (requests h) (Some v) (rpd_count h) (last_rpd_reset h)
                       (rpm_limit h) (rpd_limit h) (tpm_limit h)]> db.

Definition hset_rpd_count (rkey : string) (v : Z) (db : RateDb) : RateDb :=
  let h := hgetall db rkey in
  <[rkey := mkRateHash (requests h) (tokens h) (Some v) (last_rpd_reset h)
                       (rpm_limit h) (rpd_limit h) (tpm_limit h)]> db.

Definition hset_last_rpd_reset (rkey : string) (v : string) (db : RateDb) : RateDb :=
  let h := hgetall db rkey in
  <[rkey := mkRateHash (requests h) (tokens h) (rpd_count h) (Some v)
                       (rpm_limit h) (rpd_limit h) (tpm_limit h)]> db.

Definition hset_rpm_limit (rkey : string) (v : Z) (db : RateDb) : RateDb :=
  let h := hgetall db rkey in
  <[rkey := mkRateHash (requests h) (tokens h) (rpd_count h) (last_rpd_reset h)
                       (Some v) (rpd_limit h) (tpm_limit h)]> db.

Definition hset_rpd_limit (rkey : string) (v : Z) (db : RateDb) : RateDb :=
  let h := hgetall db rkey in
  <[rkey := mkRateHash (requests h) (tokens h) (rpd_count h) (last_rpd_reset h)
                       (rpm_limit h) (Some v) (tpm_limit h)]> db.

Definition hset_tpm_limit (rkey : string) (v : Z) (db : RateDb) : RateDb :=
  let h := hgetall db rkey in
  <[rkey := mkRateHash (requests h) (tokens h) (rpd_count h) (last_rpd_reset h)
                       (rpm_limit h) (rpd_limit h) (Some v)]> db.

(** [_rkey]: [f"{REDIS_KEY_RATELIMIT}:{key_hash}:{model}"]. *)
Definition _rkey (key_hash model : string) : string :=
  REDIS_KEY_RATELIMIT ++ ":" ++ key_hash ++ ":" ++ model.

(** The reason string of a blocked check, by the limit it names. *)
Inductive Reason : Type :=
  | UnknownModel (model : string)
  | RpmReached (limit : Z)
  | RpdReached (limit : Z)
  | TpmExceeded (limit : Z).

Definition sum_counts (l : list TokenEntry) : Z :=
  foldr (fun e acc => count e + acc) 0 l.

(** [ts > window_start] on clock readings. *)
Definition newer (window_start t : Qc) : bool := bool_decide (window_start < t)%Qc.

Definition recent_requests (window_start : Qc) (l : list Qc) : list Qc :=
  List.filter (newer window_start) l.

Definition recent_entries (window_start : Qc) (l : list TokenEntry) : list TokenEntry :=
  List.filter (fun e => newer window_start (ts e)) l.

(** [check_rate_limit]: [(can_proceed, reason_if_blocked)]. *)
Definition check_rate_limit (db : RateDb) (now : Qc)
    (key_hash model : string) (estimated_tokens : Z) : bool * option Reason :=
  match MODEL_RATE_LIMITS !! model with
  | None => (false, Some (UnknownModel model))
  | Some limits =>
    let rkey := _rkey key_hash model in
    let window_start := (now - Qc_of_Z 60)%Qc in
    let raw := hgetall db rkey in
    (* RPM check *)
    let recent := recent_requests window_start (default [] (requests raw)) in
    if Z.of_nat (length recent) >=? rpm limits then
      (false, Some (RpmReached (rpm limits)))
    else
      (* RPD check *)
      let rpd_count0 := default 0 (rpd_count raw) in
      let last_reset := default "" (last_rpd_reset raw) in
      let today := _today_pacific now in
      let rpd_count1 := if bool_decide (last_reset <> today) then 0 else rpd_count0 in
      if rpd_count1 >=? rpd limits then
        (false, Some (RpdReached (rpd limits)))
      else
        (* TPM check *)
        let recent_tokens :=
          sum_counts (recent_entries window_start (default [] (tokens raw))) in
        if recent_tokens + estimated_tokens >? tpm limits then
          (false, Some (TpmExceeded (tpm limits)))
        else (true, None)
  end.

(** [MODEL_RATE_LIMITS.get(model, {}).get(field, 0)]. *)
Definition limit_or_0 (field : Limits -> Z) (model : string) : Z :=
  match MODEL_RATE_LIMITS !! model with
  | Some l => field l
  | None => 0
  end.

(** [record_request]; the expiry the pipeline sets on the key
    ([TTL_RATE_LIMIT]) is not part of the model. *)
Definition record_request (db : RateDb) (now : Qc)
    (key_hash model : string) (tokens_used : Z) : RateDb :=
  let rkey := _rkey key_hash model in
  let today := _today_pacific now in
  let raw := hgetall db rkey in
  let requests1 := (default [] (requests raw) ++ [now])%list in
  let token_entries1 :=
    (default [] (tokens raw) ++ [mkTokenEntry now tokens_used])%list in
  let last_reset := default "" (last_rpd_reset raw) in
  let rpd_count0 := default 0 (rpd_count raw) in
  let rpd_count1 := if bool_decide (last_reset <> today) then 0 else rpd_count0 in
  let rpd_count2 := rpd_count1 + 1 in
  hset_tpm_limit rkey (limit_or_0 tpm model)
   (hset_rpd_limit rkey (limit_or_0 rpd model)
    (hset_rpm_limit rkey (limit_or_0 rpm model)
     (hset_last_rpd_reset rkey today
      (hset_rpd_count rkey rpd_count2
       (hset_tokens rkey token_entries1
        (hset_requests rkey requests1 db)))))).

(** [if not raw]: [hgetall] returned the empty dict. *)
Definition hash_is_empty (h : RateHash) : bool :=
  match requests h, tokens h, rpd_count h, last_rpd_reset h,
        rpm_limit h, rpd_limit h, tpm_limit h with
  | None, None, None, None, None, None, None => true
  | _, _, _, _, _, _, _ => false
  end.

(** [cleanup_old_data]. *)
Definition cleanup_old_data (db : RateDb) (now : Qc) (key_hash model : string) : RateDb :=
  let rkey := _rkey key_hash model in
  let cutoff := (now - Qc_of_Z 60)%Qc in
  let raw := hgetall db rkey in
  if hash_is_empty raw then db
  else
    let requests1 := recent_requests cutoff (default [] (requests raw)) in
    let token_entries1 := recent_entries cutoff (default [] (tokens raw)) in
    hset_tokens rkey token_entries1 (hset_requests rkey requests1 db).

(** The dict [get_usage_stats] returns. *)
Record Usage : Type := mkUsage {
  rpm_used : Z; u_rpm_limit : Z;
  rpd_used : Z; u_rpd_limit : Z;
  tpm_used : Z; u_tpm_limit : Z
}.

Definition get_usage_stats (db : RateDb) (now : Qc) (key_hash model : string) : Usage :=
  let rkey := _rkey key_hash model in
  let window_start := (now - Qc_of_Z 60)%Qc in
  let raw := hgetall db rkey in
  let limits := default (mkLimits 0 0 0) (MODEL_RATE_LIMITS !! model) in
  let rpm_used := Z.of_nat (length (recent_requests window_start (default [] (requests raw)))) in
  let tpm_used := sum_counts (recent_entries window_start (default [] (tokens raw))) in
  let today := _today_pacific now in
  let last_reset := default "" (last_rpd_reset raw) in
  let rpd_count1 :=
    if bool_decide (last_reset = today) then default 0 (rpd_count raw) else 0 in
  mkUsage rpm_used (rpm limits) rpd_count1 (rpd limits) tpm_used (tpm limits).

(** The SCAN cursor as a Python value: the loop of [reset_rpd_all]
    starts from the [str] ["0"]; what the driver hands back is a [str]
    or an [int]. *)
Inductive Cursor : Type :=
  | CursorStr (s : string)
  | CursorInt (n : Z).

(** [cursor == "0"]: a [str] equals ["0"] when it has the same
    characters; an [int] never equals a [str]. *)
Definition cursor_is_str_0 (cursor : Cursor) : bool :=
  match cursor with
  | CursorStr s => String.eqb s "0"
  | CursorInt _ => false
  end.

(** The [for rkey in keys] loop: the database and the counter after
    it. *)
Definition reset_batch (db : RateDb) (count : Z) (keys : list string)
    : RateDb * Z :=
  foldl (fun '(d, c) rkey => (hset_rpd_count rkey 0 d, c + 1)) (db, count) keys.

(** The [while True] loop of [reset_rpd_all].  [scan call cursor db] is
    the reply of [r.scan(cursor=cursor, match="ratelimit:*", count=100)]
    to the call number [call]: the cursor to continue from and a batch
    of keys.  [None] when [fuel] runs out before the [break]. *)
Fixpoint reset_rpd_loop (fuel : nat)
    (scan : nat -> Cursor -> RateDb -> Cursor * list string)
    (call : nat) (cursor : Cursor) (db : RateDb) (count : Z)
    : option (RateDb * Z) :=
  match fuel with
  | O => None
  | S fuel' =>
    let '(cursor1, keys) := scan call cursor db in
    let '(db1, count1) := reset_batch db count keys in
    if cursor_is_str_0 cursor1 then Some (db1, count1)
    else reset_rpd_loop fuel' scan (S call) cursor1 db1 count1
  end.

(** [reset_rpd_all]: the database when it returns and the count
    returned. *)
Definition reset_rpd_all (fuel : nat)
    (scan : nat -> Cursor -> RateDb -> Cursor * list string) (db : RateDb)
    : option (RateDb * Z) :=
  reset_rpd_loop fuel scan 0%nat (CursorStr "0") db 0.

End rate_limiter.

(* ===================================================================== *)
(** * hydra/services/api_key_service.py *)
(* ===================================================================== *)

Module api_key_service.
Import constants.

(** [APIKeyEntry] of [hydra/models/schemas.py]. *)
Record APIKeyEntry : Type := mkAPIKeyEntry {
  id : string;
  email : string;
  api_key_preview : string;
  project_id : string;
  created_at : Qc;
  last_validated : option Qc;
  is_active : bool;
  health_score : Z;
  consecutive_errors : Z;
  available_models : list string;
  notes : string
}.

(** The two Redis keys the service owns: the hash [apikeys]
    (key hash to entry; every stored value is a valid [APIKeyEntry], as
    [model_dump_json] writes it) and the set [active_keys]. *)
Record KeyDb : Type := mkKeyDb {
  apikeys : gmap string APIKeyEntry;
  active_keys : gset string
}.

(** [api_key[-6:]]. *)
Definition last6 (s : string) : string :=
  substring (String.length s - 6) 6 s.

(** Truth value of a Python [str]. *)
Definition nonempty (s : string) : bool := negb (String.eqb s "").

(** [list(set(a) | set(b))]; the order of the resulting list is the
    set's iteration order. *)
Definition union_models (a b : list string) : list string :=
  elements ((list_to_set a : gset string) ∪ list_to_set b).

Section with_hash.

(** [hash_key]: the SHA-256 hex digest of the token. *)
Variable hash_key : string -> string.

(** [add_api_key]; [now] is [datetime.utcnow()] and [fresh_id] the
    [uuid4().hex[:12]] a new entry draws. *)
Definition add_api_key (db : KeyDb) (now : Qc) (fresh_id : string)
    (api_key email_ : string) (available_models_ : list string)
    (notes_ project_id_ : string) : KeyDb * string :=
  let kh := hash_key api_key in
  match apikeys db !! kh with
  | Some existing =>
    let merged_models := union_models (available_models existing) available_models_ in
    let existing1 :=
      mkAPIKeyEntry (id existing) email_ ("..." ++ last6 api_key)
        (if nonempty project_id_ then project_id_ else project_id existing)
        (created_at existing) (Some now) true
        (health_score existing) (consecutive_errors existing)
        merged_models
        (if nonempty notes_ then notes_ else notes existing) in
    (mkKeyDb (<[kh := existing1]> (apikeys db)) ({[kh]} ∪ active_keys db), kh)
  | None =>
    let entry :=
      mkAPIKeyEntry fresh_id email_ ("..." ++ last6 api_key) project_id_
        now (Some now) true 100 0 available_models_ notes_ in
    (mkKeyDb (<[kh := entry]> (apikeys db)) ({[kh]} ∪ active_keys db), kh)
  end.

End with_hash.

(** [update_models]: the database and the flag returned. *)
Definition update_models (db : KeyDb) (now : Qc)
    (key_hash : string) (available_models_ : list string) : KeyDb * bool :=
  match apikeys db !! key_hash with
  | None => (db, false)
  | Some entry =>
    let old_models : gset string := list_to_set (available_models entry) in
    let new_models : gset string := list_to_set available_models_ in
    if bool_decide (old_models <> new_models) then
      let entry1 :=
        mkAPIKeyEntry (id entry) (email entry) (api_key_preview entry)
          (project_id entry) (created_at entry) (Some now) (is_active entry)
          (health_score entry) (consecutive_errors entry)
          available_models_ (notes entry) in
      (mkKeyDb (<[key_hash := entry1]> (apikeys db)) (active_keys db), true)
    else (db, false)
  end.

(** [remove_api_key]. *)
Definition remove_api_key (db : KeyDb) (key_hash : string) : KeyDb * bool :=
  (mkKeyDb (delete key_hash (apikeys db)) (active_keys db ∖ {[key_hash]}),
   bool_decide (is_Some (apikeys db !! key_hash))).

Definition get_all_keys (db : KeyDb) : gmap string APIKeyEntry := apikeys db.

(** [get_active_keys]: the entries whose [is_active] flag is set. *)
Definition get_active_keys (db : KeyDb) : gmap string APIKeyEntry :=
  filter (fun p => is_active p.2 = true) (get_all_keys db).

Definition get_active_key_hashes (db : KeyDb) : gset string := active_keys db.

Definition get_key (db : KeyDb) (key_hash : string) : option APIKeyEntry :=
  apikeys db !! key_hash.

(** [update_health]. *)
Definition update_health (db : KeyDb) (key_hash : string) (success : bool) : KeyDb :=
  match apikeys db !! key_hash with
  | None => db
  | Some entry =>
    if success then
      let entry1 :=
        mkAPIKeyEntry (id entry) (email entry) (api_key_preview entry)
          (project_id entry) (created_at entry) (last_validated entry)
          (is_active entry)
          (Z.min HEALTH_SCORE_MAX (health_score entry + HEALTH_SCORE_SUCCESS_DELTA))
          0
          (available_models entry) (notes entry) in
      mkKeyDb (<[key_hash := entry1]> (apikeys db)) (active_keys db)
    else
      let health1 := Z.max 0 (health_score entry + HEALTH_SCORE_FAILURE_DELTA) in
      let errors1 := consecutive_errors entry + 1 in
      if errors1 >=? HEALTH_CONSECUTIVE_ERROR_DISABLE then
        let entry1 :=
          mkAPIKeyEntry (id entry) (email entry) (api_key_preview entry)
            (project_id entry) (created_at entry) (last_validated entry)
            false health1 errors1
            (available_models entry) (notes entry) in
        mkKeyDb (<[key_hash := entry1]> (apikeys db))
                (active_keys db ∖ {[key_hash]})
      else
        let entry1 :=
          mkAPIKeyEntry (id entry) (email entry) (api_key_preview entry)
            (project_id entry) (created_at entry) (last_validated entry)
            (is_active entry) health1 errors1
            (available_models entry) (notes entry) in
        mkKeyDb (<[key_hash := entry1]> (apikeys db)) (active_keys db)
  end.

(** [reactivate_key]. *)
Definition reactivate_key (db : KeyDb) (key_hash : string) : KeyDb * bool :=
  match apikeys db !! key_hash with
  | None => (db, false)
  | Some entry =>
    let entry1 :=
      mkAPIKeyEntry (id entry) (email entry) (api_key_preview entry)
        (project_id entry) (created_at entry) (last_validated entry)
        true HEALTH_SCORE_MAX 0
        (available_models entry) (notes entry) in
    (mkKeyDb (<[key_hash := entry1]> (apikeys db)) ({[key_hash]} ∪ active_keys db), true)
  end.

(** [get_key_count]. *)
Definition get_key_count (db : KeyDb) : nat := size (active_keys db).

End api_key_service.

(* ===================================================================== *)
(** * Python's [float] *)
(* ===================================================================== *)

(** A Python [float] is an IEEE 754 binary64 number; its operations are
    those of the standard's specification in [SpecFloat], with 53 bits
    of precision, rounding to nearest, ties to even. *)
Module pyfloat.

Definition prec : Z := 53.
Definition emax : Z := 1024.

Definition float : Type := spec_float.

(** [float(n)] for an [int]: the nearest float.  (Beyond the range of
    the floats Python raises [OverflowError]; the numbers the router
    handles are far below.) *)
Definition of_int (n : Z) : float := binary_normalize prec emax n 0 false.

(** The [int]s every one of which a float holds exactly: those up to
    2^53 in magnitude.  On them [of_int] is exact and the quotient of
    two floats is the correctly rounded quotient of the [int]s, which is
    what [/] on two [int]s returns. *)
Definition exact_int (n : Z) : Prop := Z.abs n <= 2 ^ 53.

Definition add : float -> float -> float := SFadd prec emax.
Definition sub : float -> float -> float := SFsub prec emax.
Definition mul : float -> float -> float := SFmul prec emax.
Definition div : float -> float -> float := SFdiv prec emax.

(** [==], [<] and [<=]. *)
Definition eqb : float -> float -> bool := SFeqb.
Definition ltb : float -> float -> bool := SFltb.
Definition leb : float -> float -> bool := SFleb.

Definition is_nan (x : float) : bool :=
  match x with
  | S754_nan => true
  | _ => false
  end.

(** The literals [0.4] and [0.6]: the floats nearest to 2/5 and 3/5. *)
Definition lit_0_4 : float := S754_finite false 7205759403792794 (-54).
Definition lit_0_6 : float := S754_finite false 5404319552844595 (-53).

End pyfloat.

(* ===================================================================== *)
(** * hydra/services/router_service.py *)
(* ===================================================================== *)

Module router_service.
Import constants.
Import rate_limiter.
Import api_key_service.

(** The two configuration fields of a [RouterService]; the key service
    and the rate limiter it holds are the databases passed to its
    methods. *)
Record RouterService : Type := mkRouterService {
  health_weight : pyfloat.float;
  capacity_weight : pyfloat.float
}.

(** The defaults of the constructor: 0.4 and 0.6. *)
Definition default_router : RouterService :=
  mkRouterService pyfloat.lit_0_4 pyfloat.lit_0_6.

(** What [select_best_key_and_model] returns: the tuple
    [(key_hash, model, email, key_preview)], or [AllKeysExhaustedError]
    raised. *)
Inductive Selection : Type :=
  | Selected (key_hash model email_ preview : string)
  | AllKeysExhausted.

(** Truth value of an optional capability set. *)
Definition caps_given (required_capabilities : option (gset string)) : bool :=
  match required_capabilities with
  | Some s => bool_decide (s <> ∅)
  | None => false
  end.

Definition has_cap (c : string) (required_capabilities : option (gset string)) : bool :=
  match required_capabilities with
  | Some s => bool_decide (c ∈ s)
  | None => false
  end.

(** [_build_model_order]. *)
Definition _build_model_order (preferred : option string)
    (required_capabilities : option (gset string)) : list string :=
  let base :=
    if caps_given required_capabilities && has_cap CAP_IMAGE_GENERATION required_capabilities
    then IMAGE_MODEL_PRIORITY
    else if caps_given required_capabilities && has_cap CAP_EMBEDDING required_capabilities
    then [GEMINI_EMBEDDING]
    else MODEL_PRIORITY in
  match preferred with
  | Some p =>
    if nonempty p && bool_decide (is_Some (MODEL_RATE_LIMITS !! p))
    then p :: List.filter (fun m => negb (String.eqb m p)) base
    else base
  | None => base
  end.

(** [_score].  An [int] that meets a [float] in an operation is
    converted first; [/] on two [int]s is the correctly rounded
    quotient, written here as the quotient of their floats, which it is
    for the [int]s of [pyfloat.exact_int]. *)
Definition _score (self : RouterService) (health : Z) (usage : Usage)
    : pyfloat.float :=
  let rpm_pct :=
    pyfloat.mul (pyfloat.div (pyfloat.of_int (rpm_used usage))
                             (pyfloat.of_int (Z.max (u_rpm_limit usage) 1)))
                (pyfloat.of_int 100) in
  let rpd_pct :=
    pyfloat.mul (pyfloat.div (pyfloat.of_int (rpd_used usage))
                             (pyfloat.of_int (Z.max (u_rpd_limit usage) 1)))
                (pyfloat.of_int 100) in
  let tpm_pct :=
    pyfloat.mul (pyfloat.div (pyfloat.of_int (tpm_used usage))
                             (pyfloat.of_int (Z.max (u_tpm_limit usage) 1)))
                (pyfloat.of_int 100) in
  let capacity_score :=
    pyfloat.sub (pyfloat.of_int 100)
      (pyfloat.div (pyfloat.add (pyfloat.add rpm_pct rpd_pct) tpm_pct)
                   (pyfloat.of_int 3)) in
  pyfloat.add (pyfloat.mul (pyfloat.of_int health) (health_weight self))
              (pyfloat.mul capacity_score (capacity_weight self)).

(** Python's [<] on the tuples [(score, key_hash)]: the first components
    decide unless they are equal ([==]), then the key hashes do. *)
Definition tuple_lt (a b : pyfloat.float * string) : bool :=
  if pyfloat.eqb a.1 b.1 then String.ltb a.2 b.2
  else pyfloat.ltb a.1 b.1.

(** [list.sort(reverse=True)]: a stable sort into descending order, here
    by insertion. *)
Fixpoint insert_desc (x : pyfloat.float * string)
    (l : list (pyfloat.float * string)) : list (pyfloat.float * string) :=
  match l with
  | [] => [x]
  | y :: l' => if tuple_lt x y then y :: insert_desc x l' else x :: y :: l'
  end.

Definition sort_reverse (l : list (pyfloat.float * string))
    : list (pyfloat.float * string) :=
  foldr insert_desc [] l.

(** The body of the loop "Score and rank": the list [scored]. *)
Definition score_keys (self : RouterService) (rate : RateDb) (now : Qc)
    (model : string) (estimated_tokens : Z)
    (eligible : gmap string APIKeyEntry) : list (pyfloat.float * string) :=
  omap (fun '(kh, entry) =>
          if (check_rate_limit rate now kh model estimated_tokens).1 then
            let usage := get_usage_stats rate now kh model in
            Some (_score self (health_score entry) usage, kh)
          else None)
       (map_to_list eligible).

(** The dict comprehension [eligible]. *)
Definition eligible_keys (active_keys_ : gmap string APIKeyEntry) (model : string)
    (exclude : gset (string * string)) : gmap string APIKeyEntry :=
  filter (fun p => model ∈ available_models p.2 /\ (p.1, model) ∉ exclude) active_keys_.

(** The [for model in models_to_try] loop; falling off its end raises
    [AllKeysExhaustedError]. *)
Fixpoint try_models (self : RouterService) (rate : RateDb) (now : Qc)
    (active_keys_ : gmap string APIKeyEntry) (estimated_tokens : Z)
    (required_capabilities : option (gset string))
    (exclude : gset (string * string)) (blocked : gset string)
    (models_to_try : list string) : Selection :=
  match models_to_try with
  | [] => AllKeysExhausted
  | model :: rest =>
    let continue :=
      try_models self rate now active_keys_ estimated_tokens
                 required_capabilities exclude blocked rest in
    if bool_decide (model ∈ blocked) then continue
    else if caps_given required_capabilities
            && negb (bool_decide (default ∅ required_capabilities
                                  ⊆ default ∅ (MODEL_CAPABILITIES !! model)))
    then continue
    else
      let eligible := eligible_keys active_keys_ model exclude in
      if bool_decide (eligible = ∅) then continue
      else
        let scored := score_keys self rate now model estimated_tokens eligible in
        match sort_reverse scored with
        | [] => continue
        | best :: _ =>
          let best_hash := best.2 in
          match eligible !! best_hash with
          | Some entry => Selected best_hash model (email entry) (api_key_preview entry)
          | None => Selected best_hash model "" ""
          end
        end
  end.

(** [select_best_key_and_model]. *)
Definition select_best_key_and_model (self : RouterService)
    (keys : KeyDb) (rate : RateDb) (now : Qc)
    (preferred_model : option string) (estimated_tokens : Z)
    (required_capabilities : option (gset string))
    (exclude_pairs : option (gset (string * string)))
    (blocked_models : option (gset string)) : Selection :=
  let models_to_try := _build_model_order preferred_model required_capabilities in
  let active_keys_ := get_active_keys keys in
  let exclude := default ∅ exclude_pairs in
  let blocked := default ∅ blocked_models in
  if bool_decide (active_keys_ = ∅) then AllKeysExhausted
  else try_models self rate now active_keys_ estimated_tokens
                  required_capabilities exclude blocked models_to_try.

End router_service.

(* ===================================================================== *)
(** * hydra/api/routes/chat.py: [_generate_with_fallback] *)
(* ===================================================================== *)

Module chat.
Import constants.
Import rate_limiter.
Import api_key_service.
Import router_service.

(** The Redis database as the fallback loop sees it: the two keys of the
    key service, the rate-limit hashes, and the hash [_plainkeys]. *)
Record Redis : Type := mkRedis {
  keys : KeyDb;
  rate : RateDb;
  plainkeys : gmap string string
}.

(** How the [try] block around [gemini_client.generate_content] ends.
    The call returns a result (of which the loop reads the total token
    count) and the rest of the block runs to its [return]; or the call
    raises a [GeminiAPIError] carrying the upstream status code; or an
    exception of another class is raised before the call has returned
    (transport, timeout, unknown); or the call returns a result and a
    later statement of the block raises an exception of another class,
    after [completed] of the three service calls that follow the upstream
    call ([record_request], [update_health], [log_request]) have taken
    effect.  (Each of the three writes at its end, [record_request] in
    one pipeline and [update_health(success=True)] in one [hset], so a
    call that raised has written nothing.) *)
Inductive Upstream : Type :=
  | UpResult (total_tokens : Z)
  | UpGeminiAPIError (status_code : Z)
  | UpException
  | UpLateException (total_tokens : Z) (completed : nat).

(** What one loop iteration is given from outside: the clock, the
    upstream's answer to [generate_content api_key model], and what
    other tasks did to the database since the previous iteration. *)
Record Env : Type := mkEnv {
  now : Qc;
  generate_content : string -> string -> Upstream;
  concurrent : Redis -> Redis
}.

(** The values computed from the request before the loop:
    [preferred_model], [estimated_tokens] and [required_caps]. *)
Record Request : Type := mkRequest {
  preferred_model : string;
  estimated_tokens : Z;
  required_caps : gset string
}.

(** The service calls an iteration makes after the upstream answered;
    none of them returns a value. *)
Inductive Call : Type :=
  | record_request_call (key_hash model : string) (tokens_used : Z)
  | update_health_call (key_hash : string) (success : bool)
  | log_request_call (key_hash model : string) (success : bool) (fallback_count : Z).

(** The effect of a call on the database.  The request log of the stats
    service lives under keys of its own, which [Redis] leaves out. *)
Definition run_call (env : Env) (r : Redis) (c : Call) : Redis :=
  match c with
  | record_request_call kh model toks =>
    mkRedis (keys r) (record_request (rate r) (now env) kh model toks) (plainkeys r)
  | update_health_call kh success =>
    mkRedis (update_health (keys r) kh success) (rate r) (plainkeys r)
  | log_request_call _ _ _ _ => r
  end.

Definition run_calls (env : Env) (r : Redis) (cs : list Call) : Redis :=
  foldl (run_call env) r cs.

(** The local variables of [_generate_with_fallback] that live across
    iterations. *)
Record Locals : Type := mkLocals {
  failed_pairs : gset (string * string);
  failed_models : gmap string Z;
  blocked_models : gset string;
  last_error : option Upstream;
  total_attempts : Z
}.

Definition init_locals : Locals := mkLocals ∅ ∅ ∅ None 0.

Definition max_attempts : Z := 20.

(** The dict returned on success, reduced to the fields the properties
    below read. *)
Record Result : Type := mkResult {
  res_model : string;
  res_key_email : string;
  res_total_tokens : Z;
  res_fallback_count : Z
}.

(** How the function ends: it returns a result, or raises
    [HTTPException(429, ...)] after the loop. *)
Inductive Outcome : Type :=
  | Served (result : Result)
  | Exhausted (tried : Z) (blocked : gset string) (last : option Upstream).

(** A record of one iteration: the exclusion sets passed to the router,
    what the router returned, how the upstream call ended (if one was
    made), and the service calls made afterwards, in order. *)
Record Attempt : Type := mkAttempt {
  a_exclude : gset (string * string);
  a_blocked : gset string;
  a_selection : Selection;
  a_upstream : option Upstream;
  a_calls : list Call
}.

(** How an iteration ends. *)
Inductive Step : Type :=
  | Continue (l : Locals)
  | Break (l : Locals)
  | Return (result : Result) (l : Locals).

(** The body of the [while] loop. *)
Definition attempt (self : RouterService) (request : Request)
    (env : Env) (l : Locals) (r : Redis) : Step * Attempt * Redis :=
  let total_attempts1 := total_attempts l + 1 in
  let sel :=
    select_best_key_and_model self (keys r) (rate r) (now env)
      (Some (preferred_model request)) (estimated_tokens request)
      (if bool_decide (required_caps request <> ∅)
       then Some (required_caps request) else None)
      (Some (failed_pairs l)) (Some (blocked_models l)) in
  let record := mkAttempt (failed_pairs l) (blocked_models l) sel in
  match sel with
  | AllKeysExhausted =>
    (Break (mkLocals (failed_pairs l) (failed_models l) (blocked_models l)
                     (last_error l) total_attempts1),
     record None [], r)
  | Selected key_hash model email_ preview =>
    let failed_pairs1 := failed_pairs l ∪ {[(key_hash, model)]} in
    match plainkeys r !! key_hash with
    | Some api_key =>
      if nonempty api_key then
        match generate_content env api_key model with
        | UpResult total_tokens =>
          let calls :=
            [record_request_call key_hash model total_tokens;
             update_health_call key_hash true;
             log_request_call key_hash model true (total_attempts1 - 1)] in
          (Return (mkResult model email_ total_tokens (total_attempts1 - 1))
                  (mkLocals (failed_pairs l) (failed_models l) (blocked_models l)
                            (last_error l) total_attempts1),
           record (Some (UpResult total_tokens)) calls,
           run_calls env r calls)
        | UpGeminiAPIError status_code =>
          let exc := UpGeminiAPIError status_code in
          let log := log_request_call key_hash model false (total_attempts1 - 1) in
          if status_code =? 429 then
            let n := default 0 (failed_models l !! model) + 1 in
            let failed_models1 := <[model := n]> (failed_models l) in
            let blocked_models1 :=
              if n >=? 2 then blocked_models l ∪ {[model]} else blocked_models l in
            (Continue (mkLocals failed_pairs1 failed_models1 blocked_models1
                                (Some exc) total_attempts1),
             record (Some exc) [log],
             run_calls env r [log])
          else
            let calls := [update_health_call key_hash false; log] in
            (Continue (mkLocals failed_pairs1 (failed_models l) (blocked_models l)
                                (Some exc) total_attempts1),
             record (Some exc) calls,
             run_calls env r calls)
        | UpException =>
          (Continue (mkLocals failed_pairs1 (failed_models l) (blocked_models l)
                              (Some UpException) total_attempts1),
           record (Some UpException) [], r)
        | UpLateException total_tokens completed =>
          let exc := UpLateException total_tokens completed in
          let calls :=
            take completed
              [record_request_call key_hash model total_tokens;
               update_health_call key_hash true;
               log_request_call key_hash model true (total_attempts1 - 1)] in
          (Continue (mkLocals failed_pairs1 (failed_models l) (blocked_models l)
                              (Some exc) total_attempts1),
           record (Some exc) calls,
           run_calls env r calls)
        end
      else
        (Continue (mkLocals failed_pairs1 (failed_models l) (blocked_models l)
                            (last_error l) total_attempts1),
         record None [], r)
    | None =>
      (Continue (mkLocals failed_pairs1 (failed_models l) (blocked_models l)
                          (last_error l) total_attempts1),
       record None [], r)
    end
  end.

(** The exception raised after the loop. *)
Definition exhausted (l : Locals) : Outcome :=
  Exhausted (total_attempts l) (blocked_models l) (last_error l).

(** The [while total_attempts < max_attempts] loop.  [envs n] is the
    environment of the iteration entered with [total_attempts = n].  The
    result is the outcome, the locals at exit, the records of the
    iterations in order and the database; [None] only when [fuel] runs
    out. *)
Fixpoint fallback_loop (fuel : nat) (self : RouterService) (request : Request)
    (envs : nat -> Env) (l : Locals) (r : Redis)
    : option (Outcome * Locals * list Attempt * Redis) :=
  match fuel with
  | O => None
  | S fuel' =>
    if total_attempts l <? max_attempts then
      let env := envs (Z.to_nat (total_attempts l)) in
      let '(step, record, r1) := attempt self request env l (concurrent env r) in
      match step with
      | Continue l1 =>
        match fallback_loop fuel' self request envs l1 r1 with
        | Some (out, l', trace, r') => Some (out, l', record :: trace, r')
        | None => None
        end
      | Break l1 => Some (exhausted l1, l1, [record], r1)
      | Return result l1 => Some (Served result, l1, [record], r1)
      end
    else Some (exhausted l, l, [], r)
  end.

(** [_generate_with_fallback], from the first assignment to
    [failed_pairs] on. *)
Definition _generate_with_fallback (self : RouterService) (request : Request)
    (envs : nat -> Env) (r : Redis)
    : option (Outcome * Locals * list Attempt * Redis) :=
  fallback_loop (S (Z.to_nat max_attempts)) self request envs init_locals r.

End chat.

(* ===================================================================== *)
(** * Vocabulary of the properties *)
(* ===================================================================== *)

Module props.
Import constants.
Import rate_limiter.
Import api_key_service.
Import router_service.
Import chat.

(** The stored date-stamp, as [raw.get("last_rpd_reset", "")] reads it. *)
Definition stored_stamp (db : RateDb) (kh model : string) : string :=
  default "" (last_rpd_reset (hgetall db (_rkey kh model))).

(** The three quantities [check_rate_limit] compares with the limits. *)
Definition rpm_in_window (db : RateDb) (now : Qc) (kh model : string) : Z :=
  Z.of_nat (length (recent_requests (now - Qc_of_Z 60)%Qc
                      (default [] (requests (hgetall db (_rkey kh model)))))).

Definition rpd_today (db : RateDb) (now : Qc) (kh model : string) : Z :=
  if bool_decide (stored_stamp db kh model = _today_pacific now)
  then default 0 (rpd_count (hgetall db (_rkey kh model)))
  else 0.

Definition tpm_in_window (db : RateDb) (now : Qc) (kh model : string) : Z :=
  sum_counts (recent_entries (now - Qc_of_Z 60)%Qc
                (default [] (tokens (hgetall db (_rkey kh model))))).

(** The record the write of [reset_rpd_all] leaves where [h] was
    stored. *)
Definition zero_rpd (h : RateHash) : RateHash :=
  mkRateHash (requests h) (tokens h) (Some 0) (last_rpd_reset h)
             (rpm_limit h) (rpd_limit h) (tpm_limit h).

(** The driver hands the SCAN cursor back as an [int], as redis-py
    does: its reply parser applies [int] to the cursor. *)
Definition int_cursor (scan : nat -> Cursor -> RateDb -> Cursor * list string)
    : Prop :=
  forall call cursor db, exists n, (scan call cursor db).1 = CursorInt n.

(** Two records that differ in [rpd_count] at most. *)
Definition same_but_rpd_count (h h' : RateHash) : Prop :=
  requests h' = requests h /\ tokens h' = tokens h
  /\ last_rpd_reset h' = last_rpd_reset h
  /\ rpm_limit h' = rpm_limit h /\ rpd_limit h' = rpd_limit h
  /\ tpm_limit h' = tpm_limit h.

(** A credential the router scores for [model]: stored, active,
    advertising the model, not excluded as a pair, and passing the rate
    check. *)
Definition survivor (keys : KeyDb) (rate : RateDb) (now : Qc) (model : string)
    (estimated_tokens : Z) (exclude : gset (string * string))
    (kh : string) (entry : APIKeyEntry) : Prop :=
  apikeys keys !! kh = Some entry
  /\ is_active entry = true
  /\ (model ∈ available_models entry)
  /\ ((kh, model) ∉ exclude)
  /\ (check_rate_limit rate now kh model estimated_tokens).1 = true.

(** The score the router gives such a credential. *)
Definition candidate_score (self : RouterService) (rate : RateDb) (now : Qc)
    (model : string) (kh : string) (entry : APIKeyEntry) : pyfloat.float :=
  _score self (health_score entry) (get_usage_stats rate now kh model).

(** The health score and the usage figures of a credential are [int]s
    a float holds exactly. *)
Definition exact_inputs (health : Z) (usage : Usage) : Prop :=
  pyfloat.exact_int health
  /\ pyfloat.exact_int (rpm_used usage) /\ pyfloat.exact_int (u_rpm_limit usage)
  /\ pyfloat.exact_int (rpd_used usage) /\ pyfloat.exact_int (u_rpd_limit usage)
  /\ pyfloat.exact_int (tpm_used usage) /\ pyfloat.exact_int (u_tpm_limit usage).

(** Every score the router computes for [model] is computed from such
    [int]s and is a number (not NaN). *)
Definition scores_are_numbers (self : RouterService) (keys : KeyDb)
    (rate : RateDb) (now : Qc) (model : string) (estimated_tokens : Z)
    (exclude : gset (string * string)) : Prop :=
  forall kh entry,
    survivor keys rate now model estimated_tokens exclude kh entry ->
    exact_inputs (health_score entry) (get_usage_stats rate now kh model)
    /\ pyfloat.is_nan (candidate_score self rate now model kh entry) = false.

(** The tie rule as the specification words it: among the survivors
    whose score equals ([==]) that of the credential returned, the one
    returned has the lexicographically first handle. *)
Definition ties_go_to_first_handle : Prop :=
  forall (self : RouterService) (keys : KeyDb) (rate : RateDb) (now : Qc)
         (preferred : option string) (est : Z) (caps : option (gset string))
         (exclude : gset (string * string)) (blocked : gset string)
         (kh model em pv : string),
    select_best_key_and_model self keys rate now preferred est caps
                              (Some exclude) (Some blocked)
      = Selected kh model em pv ->
    forall (entry : APIKeyEntry) (kh' : string) (entry' : APIKeyEntry),
      survivor keys rate now model est exclude kh entry ->
      survivor keys rate now model est exclude kh' entry' ->
      pyfloat.eqb (candidate_score self rate now model kh' entry')
                  (candidate_score self rate now model kh entry) = true ->
      String.leb kh kh' = true.

(** The head of a list is above every other element. *)
Definition head_max (l : list (pyfloat.float * string)) : Prop :=
  match l with
  | [] => True
  | b :: rest => forall y, y ∈ rest -> tuple_lt b y = false
  end.

End props.

Module runs.
Import constants.
Import rate_limiter.
Import api_key_service.
Import router_service.
Import chat.

(** The locals an iteration leaves. *)
Definition step_locals (s : Step) : Locals :=
  match s with
  | Continue l => l
  | Break l => l
  | Return _ l => l
  end.

(** [failed_models.get(M, 0)]. *)
Definition failures_429 (l : Locals) (M : string) : Z :=
  default 0 (failed_models l !! M).

(** The iteration selected a credential for model [M] and the upstream
    answered with status 429. *)
Definition fails_429 (a : Attempt) (M : string) : Prop :=
  exists kh em pv,
    a_selection a = Selected kh M em pv
    /\ a_upstream a = Some (UpGeminiAPIError 429).

(** The iteration selected the pair [(kh, M)]. *)
Definition selects (a : Attempt) (kh M : string) : Prop :=
  exists em pv, a_selection a = Selected kh M em pv.

(** [run_from l t l']: the records [t] are those of consecutive
    iterations of the loop body, the first entered with locals [l], each
    next one entered with the locals the previous one continued with,
    and [l'] are the locals after the last. *)
Inductive run_from (self : RouterService) (request : Request)
    : Locals -> list Attempt -> Locals -> Prop :=
  | run_stop (l : Locals) : run_from self request l [] l
  | run_last (l : Locals) (env : Env) (r : Redis) (s : Step) (a : Attempt)
      (r' : Redis) :
      attempt self request env l r = (s, a, r') ->
      run_from self request l [a] (step_locals s)
  | run_next (l : Locals) (env : Env) (r : Redis) (l1 : Locals) (a : Attempt)
      (r' : Redis) (t : list Attempt) (l' : Locals) :
      attempt self request env l r = (Continue l1, a, r') ->
      run_from self request l1 t l' ->
      run_from self request l (a :: t) l'.

(** The [try] block ended in the [except Exception] branch: with an
    exception that is not a [GeminiAPIError]. *)
Definition other_exception (u : option Upstream) : Prop :=
  u = Some UpException
  \/ exists total_tokens completed,
       u = Some (UpLateException total_tokens completed).

(** The penalty rule as the specification words it: an iteration whose
    [try] block ends with an exception that is not a [GeminiAPIError]
    records a failure against the selected credential (calls
    [update_health(key_hash, success=False)]) and adds the pair to the
    exclusion set. *)
Definition transport_error_penalises : Prop :=
  forall (self : RouterService) (request : Request) (env : Env) (l : Locals)
         (r : Redis) (s : Step) (a : Attempt) (r' : Redis)
         (kh model : string),
    attempt self request env l r = (s, a, r') ->
    selects a kh model ->
    other_exception (a_upstream a) ->
    update_health_call kh false ∈ a_calls a
    /\ (kh, model) ∈ failed_pairs (step_locals s).

End runs.

(* ===================================================================== *)
(** * Concrete situations *)
(* ===================================================================== *)

(** Two credentials with the same health and no recorded usage, both
    advertising [gemini-2.5-pro] and [gemini-2.5-flash]; a clock reading
    of 2026-01-01 08:00:00 UTC, which is 2026-01-01 00:00:00 in the quota
    zone. *)
Module scenario.
Import constants.
Import rate_limiter.
Import api_key_service.
Import router_service.
Import chat.

Definition clock : Qc := Qc_of_Z 1767254400.

Definition entry0 : APIKeyEntry :=
  mkAPIKeyEntry "3f2a9c01d4e5" "dev@example.com" "...k3y001" ""
                (Qc_of_Z 1767000000) None true 100 0
                [GEMINI_25_PRO; GEMINI_25_FLASH] "".

Definition two_keys : KeyDb :=
  mkKeyDb (<["aaa" := entry0]> (<["bbb" := entry0]> ∅)) {["aaa"; "bbb"]}.

Definition redis0 : Redis :=
  mkRedis two_keys ∅ (<["aaa" := "token-a"]> (<["bbb" := "token-b"]> ∅)).

Definition request0 : Request := mkRequest GEMINI_25_PRO 100 ∅.

(** The upstream answers 429 on [gemini-2.5-pro] and serves every other
    model. *)
Definition pro_is_out (api_key model : string) : Upstream :=
  if String.eqb model GEMINI_25_PRO then UpGeminiAPIError 429 else UpResult 150.

Definition envs_pro_out (n : nat) : Env := mkEnv clock pro_is_out (fun r => r).

(** The run of the fallback loop against that upstream, and its first
    two iterations. *)
Definition run0 : option (Outcome * Locals * list Attempt * Redis) :=
  _generate_with_fallback default_router request0 envs_pro_out redis0.

Definition locals0 : Locals :=
  match run0 with Some (_, l, _, _) => l | None => init_locals end.

Definition trace0 : list Attempt :=
  match run0 with Some (_, _, t, _) => t | None => [] end.

Definition outcome0 : Outcome :=
  match run0 with Some (out, _, _, _) => out | None => exhausted init_locals end.

Definition redis0_after : Redis :=
  match run0 with Some (_, _, _, r) => r | None => redis0 end.

Definition first_429 : Attempt :=
  mkAttempt ∅ ∅
    (Selected "bbb" GEMINI_25_PRO "dev@example.com" "...k3y001")
    (Some (UpGeminiAPIError 429))
    [log_request_call "bbb" GEMINI_25_PRO false 0].

Definition second_429 : Attempt :=
  mkAttempt {[("bbb", GEMINI_25_PRO)]} ∅
    (Selected "aaa" GEMINI_25_PRO "dev@example.com" "...k3y001")
    (Some (UpGeminiAPIError 429))
    [log_request_call "aaa" GEMINI_25_PRO false 1].

(** The connection to the upstream fails on every call. *)
Definition no_transport (api_key model : string) : Upstream := UpException.

Definition env_no_transport : Env := mkEnv clock no_transport (fun r => r).

(** The first iteration of the loop when the connection fails. *)
Definition failed_transport : Step * Attempt * Redis :=
  attempt default_router request0 env_no_transport init_locals redis0.

(** A rate window that reached the daily limit of [gemini-2.5-flash]
    the day before. *)
Definition yesterday_full : RateDb :=
  <[_rkey "aaa" GEMINI_25_FLASH :=
      mkRateHash (Some []) (Some []) (Some 1500) (Some "2025-12-31")
                 (Some 15) (Some 1500) (Some 1000000)]> ∅.

(** Credential ["bbb"] used 10 of its 15 requests per minute on
    [gemini-2.5-flash], credential ["aaa"] 2 of them. *)
Definition uneven_load : RateDb :=
  <[_rkey "bbb" GEMINI_25_FLASH :=
      mkRateHash (Some (replicate 10 (clock - Qc_of_Z 5)%Qc)) (Some [])
                 (Some 10) (Some "2026-01-01")
                 (Some 15) (Some 1500) (Some 1000000)]>
  (<[_rkey "aaa" GEMINI_25_FLASH :=
      mkRateHash (Some (replicate 2 (clock - Qc_of_Z 5)%Qc)) (Some [])
                 (Some 2) (Some "2026-01-01")
                 (Some 15) (Some 1500) (Some 1000000)]> ∅).

(** A credential one failure away from being disabled. *)
Definition entry4 : APIKeyEntry :=
  mkAPIKeyEntry "3f2a9c01d4e5" "dev@example.com" "...k3y001" ""
                (Qc_of_Z 1767000000) None true 60 4
                [GEMINI_25_PRO] "".

Definition one_key : KeyDb := mkKeyDb (<["aaa" := entry4]> ∅) {["aaa"]}.

(** A stand-in for the digest, enough to tell tokens apart. *)
Definition toy_hash (api_key : string) : string :=
  if String.eqb api_key "token-a" then "aaa" else "h:" ++ api_key.

(** A server that answers a SCAN with every stored key under
    [ratelimit:] at once and the cursor 0, through redis-py. *)
Definition scan_at_once (call : nat) (cursor : Cursor) (db : RateDb)
    : Cursor * list string :=
  (CursorInt 0,
   List.filter (String.prefix (REDIS_KEY_RATELIMIT ++ ":")) (elements (dom db))).

(** The same server through a driver that hands the cursor back as
    the [str] it received. *)
Definition scan_at_once_str (call : nat) (cursor : Cursor) (db : RateDb)
    : Cursor * list string :=
  (CursorStr "0", (scan_at_once call cursor db).2).

(** Two credentials with different health and usage of the day whose
    scores differ in the last bit. *)
Definition entry95 : APIKeyEntry :=
  mkAPIKeyEntry "95aa00" "dev@example.com" "...k3y095" ""
                (Qc_of_Z 1767000000) None true 95 0
                [GEMINI_25_PRO] "".

Definition entry100 : APIKeyEntry :=
  mkAPIKeyEntry "100bb0" "dev@example.com" "...k3y100" ""
                (Qc_of_Z 1767000000) None true 100 0
                [GEMINI_25_PRO] "".

Definition close_keys : KeyDb :=
  mkKeyDb (<["aaa" := entry95]> (<["bbb" := entry100]> ∅)) {["aaa"; "bbb"]}.

Definition close_load : RateDb :=
  <[_rkey "bbb" GEMINI_25_PRO :=
      mkRateHash (Some []) (Some []) (Some 14) (Some "2026-01-01")
                 (Some 5) (Some 100) (Some 250000)]>
  (<[_rkey "aaa" GEMINI_25_PRO :=
      mkRateHash (Some []) (Some []) (Some 4) (Some "2026-01-01")
                 (Some 5) (Some 100) (Some 250000)]> ∅).

(** The upstream answers and a later statement of the block raises,
    after [record_request] and [update_health] took effect. *)
Definition late_failure (api_key model : string) : Upstream :=
  UpLateException 150 2.

Definition env_late_failure : Env := mkEnv clock late_failure (fun r => r).

(** The first iteration of the loop against it. *)
Definition failed_late : Step * Attempt * Redis :=
  attempt default_router request0 env_late_failure init_locals redis0.

End scenario.

(* ===================================================================== *)
(** * Vocabulary of further properties *)
(* ===================================================================== *)

Module more.
Import constants.
Import rate_limiter.
Import api_key_service.
Import router_service.
Import chat.
Import props.
Import runs.

(** The set [active_keys] indexes exactly the stored entries whose
    [is_active] flag is set. *)
Definition index_consistent (db : KeyDb) : Prop :=
  forall kh, kh ∈ active_keys db <->
    exists e, apikeys db !! kh = Some e /\ is_active e = true.

(** Every stored health score is within 0..100 and no error counter is
    negative. *)
Definition scores_in_range (db : KeyDb) : Prop :=
  forall kh e, apikeys db !! kh = Some e ->
    0 <= health_score e <= 100 /\ 0 <= consecutive_errors e.

(** [n] calls of [update_health(key_hash, success=False)] in a row. *)
Definition fail_times (n : nat) (db : KeyDb) (kh : string) : KeyDb :=
  Nat.iter n (fun d => update_health d kh false) db.

(** Two key databases agree on every key but [kh]. *)
Definition same_elsewhere (kh : string) (db db' : KeyDb) : Prop :=
  forall kh', kh' <> kh ->
    apikeys db' !! kh' = apikeys db !! kh'
    /\ (kh' ∈ active_keys db' <-> kh' ∈ active_keys db).

(** The capability test of the router's loop: no capability asked for,
    or all of them among those of the model. *)
Definition caps_ok (caps : option (gset string)) (model : string) : Prop :=
  caps_given caps = true ->
  default ∅ caps ⊆ default ∅ (MODEL_CAPABILITIES !! model).

(** A model the router can serve with: not blocked, capable, and with a
    credential that survives for it. *)
Definition viable (keys : KeyDb) (rate : RateDb) (now : Qc) (est : Z)
    (caps : option (gset string)) (exclude : gset (string * string))
    (blocked : gset string) (model : string) : Prop :=
  (model ∉ blocked)
  /\ caps_ok caps model
  /\ exists kh entry, survivor keys rate now model est exclude kh entry.

(** Usage within the limits, each limit at least one. *)
Definition usage_in_range (u : Usage) : Prop :=
  0 <= rpm_used u <= u_rpm_limit u /\ 0 <= rpd_used u <= u_rpd_limit u
  /\ 0 <= tpm_used u <= u_tpm_limit u
  /\ 1 <= u_rpm_limit u /\ 1 <= u_rpd_limit u /\ 1 <= u_tpm_limit u.

(** [u] uses no more than [u'], under the same limits. *)
Definition usage_le (u u' : Usage) : Prop :=
  rpm_used u <= rpm_used u' /\ rpd_used u <= rpd_used u'
  /\ tpm_used u <= tpm_used u'
  /\ u_rpm_limit u = u_rpm_limit u' /\ u_rpd_limit u = u_rpd_limit u'
  /\ u_tpm_limit u = u_tpm_limit u'.

(** A credential that advertises the embedding model beside a text
    model, and the store that holds it. *)
Definition embed_entry : APIKeyEntry :=
  mkAPIKeyEntry "77aa01" "ops@example.com" "...k3y777" ""
                (Qc_of_Z 1767000000) None true 100 0
                [GEMINI_25_PRO; GEMINI_EMBEDDING] "".

Definition embed_keys : KeyDb :=
  mkKeyDb (<["eee" := embed_entry]> ∅) {["eee"]}.

(** Two usage reports under the limits of [gemini-2.5-pro]. *)
Definition light_usage : Usage := mkUsage 1 5 10 100 1000 250000.
Definition heavy_usage : Usage := mkUsage 4 5 90 100 200000 250000.

(** No other task touches the database between the iterations of a
    run. *)
Definition quiet (envs : nat -> Env) : Prop :=
  forall n r, concurrent (envs n) r = r.

(** An iteration that selected a pair and whose [try] block did not run
    to its [return]. *)
Definition failed_attempt (a : Attempt) : Prop :=
  (exists kh m em pv, a_selection a = Selected kh m em pv)
  /\ forall n, a_upstream a <> Some (UpResult n).

(** An iteration in which the upstream call returned and a later
    statement of the [try] block raised. *)
Definition raised_late (a : Attempt) : Prop :=
  exists n k, a_upstream a = Some (UpLateException n k).

(** The key database holds for [kh] in [db'] what it holds in [db]. *)
Definition same_credential (kh : string) (db db' : KeyDb) : Prop :=
  apikeys db' !! kh = apikeys db !! kh
  /\ (kh ∈ active_keys db' <-> kh ∈ active_keys db).

End more.

(* ===================================================================== *)
(** * hydra/services/gemini_client.py *)
(* ===================================================================== *)

Module gemini_client.
Import constants.
Import api_key_service.

Definition TOKEN_ESTIMATION_CHARS_PER_TOKEN : Z := 4.

(** [TOKEN_ESTIMATION_BUFFER = 1.2]: the float nearest to 6/5. *)
Definition TOKEN_ESTIMATION_BUFFER : pyfloat.float :=
  S754_finite false 5404319552844595 (-52).

(** [int(x)] for a float that is a number: its integer part, towards
    zero.  (On an infinity and on NaN Python raises; the lengths of
    texts are far from giving either.) *)
Definition int_of_float (x : pyfloat.float) : Z :=
  match x with
  | S754_finite s m e =>
    let n := if 0 <=? e then Z.pos m * 2 ^ e else Z.pos m / 2 ^ (- e) in
    if s then - n else n
  | _ => 0
  end.

(** [estimate_tokens]; [len] counts the characters of the text, and the
    arithmetic is that of floats. *)
Definition estimate_tokens (text : string) : Z :=
  if nonempty text then
    int_of_float
      (pyfloat.mul
         (pyfloat.div (pyfloat.of_int (Z.of_nat (String.length text)))
                      (pyfloat.of_int TOKEN_ESTIMATION_CHARS_PER_TOKEN))
         TOKEN_ESTIMATION_BUFFER)
  else 0.

(** [_probe] inside [_probe_models_parallel]: up to two calls of
    [test_api_key] for the model; [test model attempt] is the answer to
    the call number [attempt]. *)
Definition _probe (test : string -> nat -> bool) (model : string) : option string :=
  if test model 0%nat then Some model
  else if test model 1%nat then Some model
  else None.

(** [_probe_models_parallel]: the models whose probe returned a string,
    in the order of [models]. *)
Definition _probe_models_parallel (test : string -> nat -> bool)
    (models : list string) : list string :=
  omap (_probe test) models.

(** [detect_available_models]; [list_models_from_api attempt] is what
    the listing call number [attempt] returned (the empty list when it
    failed). *)
Definition detect_available_models (list_models_from_api : nat -> list string)
    (test : string -> nat -> bool) (models : list string) : list string :=
  let iteration (attempt : nat) (next : list string) : list string :=
    let all_api_models := list_models_from_api attempt in
    match all_api_models with
    | _ :: _ => List.filter (fun m => bool_decide (m ∈ all_api_models)) models
    | [] => next
    end in
  iteration 0%nat (iteration 1%nat (iteration 2%nat
    (_probe_models_parallel test models))).

End gemini_client.

(* ===================================================================== *)
(** * hydra/api/routes/chat.py: the simulated stream *)
(* ===================================================================== *)

Module chat_stream.

(** The events [_stream_sse] yields, by what distinguishes them: a
    content chunk, the final chunk carrying the finish reason, and the
    [DONE] marker. *)
Inductive SseEvent : Type :=
  | ContentChunk (chunk : string)
  | FinalChunk (finish_reason : string)
  | Done.

(** [range(0, stop, step)]. *)
Definition range_step (stop step : nat) : list nat :=
  List.map (fun k => (k * step)%nat) (seq 0 ((stop + step - 1) / step)).

Definition chunk_size : nat := 30.

(** [_stream_sse]: [content[i:i + chunk_size]] for each [i] of the
    range, then the two closing events. *)
Definition _stream_sse (content finish_reason : string) : list SseEvent :=
  (List.map (fun i => ContentChunk (substring i chunk_size content))
            (range_step (String.length content) chunk_size)
   ++ [FinalChunk finish_reason; Done])%list.

(** The text a client assembles from the content chunks it receives. *)
Fixpoint assemble (events : list SseEvent) : string :=
  match events with
  | [] => ""
  | ContentChunk chunk :: rest => chunk ++ assemble rest
  | _ :: rest => assemble rest
  end.

End chat_stream.

(* ===================================================================== *)
(** * hydra/api/routes/embed.py *)
(* ===================================================================== *)

Module embed.
Import constants.
Import rate_limiter.
Import api_key_service.
Import router_service.
Import chat.
Import gemini_client.

(** [OPENAI_MODEL_MAP] of [hydra/core/constants.py]. *)
Definition OPENAI_MODEL_MAP : gmap string string :=
  list_to_map
    [ ("gpt-4", GEMINI_25_PRO);
      ("gpt-4-turbo", GEMINI_25_PRO);
      ("gpt-4o", GEMINI_25_FLASH);
      ("gpt-4o-mini", GEMINI_25_FLASH_LITE);
      ("gpt-3.5-turbo", GEMINI_25_FLASH_LITE);
      ("dall-e-3", GEMINI_25_FLASH_IMAGE);
      ("dall-e-2", GEMINI_25_FLASH_IMAGE);
      ("text-embedding-ada-002", GEMINI_EMBEDDING);
      ("text-embedding-3-small", GEMINI_EMBEDDING);
      ("text-embedding-3-large", GEMINI_EMBEDDING) ].

(** [sum(GeminiClient.estimate_tokens(t) for t in texts)]. *)
Definition estimate_all (texts : list string) : Z :=
  foldr (fun t acc => estimate_tokens t + acc) 0 texts.

(** How [create_embeddings] ends: with the response, of which the model
    and the usage are kept, or with an [HTTPException]. *)
Inductive EmbedOutcome : Type :=
  | EmbeddingResponse (model : string) (total_tokens : Z)
  | HTTPException (status_code : Z).

(** [create_embeddings], from the mapping of the model name on.  [now]
    is the clock, [embed_content api_key model] how the [try] block ends
    from the upstream call on: the call returns and the block runs to
    its [return], or the call raises, or a later statement of the block
    raises after some of the service calls took effect.  The usage of
    the bearer token is kept by the token service, outside this
    database. *)
Definition create_embeddings (self : RouterService) (now : Qc)
    (embed_content : string -> string -> Upstream)
    (request_model : string) (texts : list string) (r : Redis)
    : EmbedOutcome * list Call * Redis :=
  let preferred_model := default request_model (OPENAI_MODEL_MAP !! request_model) in
  let env := mkEnv now embed_content (fun r => r) in
  match select_best_key_and_model self (keys r) (rate r) now
          (Some preferred_model) (estimate_all texts)
          (Some {[CAP_EMBEDDING]}) None None with
  | AllKeysExhausted => (HTTPException 429, [], r)
  | Selected key_hash model email_ preview =>
    match plainkeys r !! key_hash with
    | Some api_key =>
      if nonempty api_key then
        match embed_content api_key model with
        | UpResult _ =>
          let calls :=
            [record_request_call key_hash model (estimate_all texts);
             update_health_call key_hash true;
             log_request_call key_hash model true 0] in
          (EmbeddingResponse model (estimate_all texts), calls,
           run_calls env r calls)
        | UpGeminiAPIError _ => (HTTPException 502, [], r)
        | UpException => (HTTPException 500, [], r)
        | UpLateException _ completed =>
          let calls :=
            take completed
              [record_request_call key_hash model (estimate_all texts);
               update_health_call key_hash true;
               log_request_call key_hash model true 0] in
          (HTTPException 500, calls, run_calls env r calls)
        end
      else (HTTPException 500, [], r)
    | None => (HTTPException 500, [], r)
    end
  end.

End embed.

(* ===================================================================== *)
(** * hydra/services/health_monitor.py *)
(* ===================================================================== *)

Module health_monitor.
Import constants.
Import rate_limiter.
Import api_key_service.
Import gemini_client.

(** ** [_health_loop] *)

(** [entry.available_models or MODEL_PRIORITY[:2]]. *)
Definition models_to_test (entry : APIKeyEntry) : list string :=
  match available_models entry with
  | [] => take 2 MODEL_PRIORITY
  | models => models
  end.

(** The body of [for kh, entry in disabled.items()]: without a plaintext
    key the credential is skipped; else its models are tested in turn
    and the first success reactivates it.  [test_api_key plain_key model]
    is the answer of the upstream to the test request. *)
Definition recover (plainkeys : gmap string string)
    (test_api_key : string -> string -> bool)
    (db : KeyDb) (kh : string) (entry : APIKeyEntry) : KeyDb :=
  match plainkeys !! kh with
  | Some plain_key =>
    if nonempty plain_key then
      if existsb (test_api_key plain_key) (models_to_test entry)
      then (reactivate_key db kh).1
      else db
    else db
  | None => db
  end.

(** One round of [_health_loop], after the sleep. *)
Definition _health_loop (plainkeys : gmap string string)
    (test_api_key : string -> string -> bool) (db : KeyDb) : KeyDb :=
  let all_keys := get_all_keys db in
  let disabled : gmap string APIKeyEntry :=
    filter (fun p => is_active p.2 = false) all_keys in
  if bool_decide (disabled = ∅) then db
  else foldl (fun d p => recover plainkeys test_api_key d p.1 p.2)
             db (map_to_list disabled).

(** ** [_model_redetect_loop] *)

(** The body of [for kh, entry in active_keys.items()];
    [detect plain_key] is what [detect_available_models(plain_key,
    ALL_MODELS)] returns and [clock kh] the time of the update. *)
Definition redetect (plainkeys : gmap string string)
    (detect : string -> list string) (clock : string -> Qc)
    (db : KeyDb) (kh : string) : KeyDb :=
  match plainkeys !! kh with
  | Some plain_key =>
    if nonempty plain_key then
      match detect plain_key with
      | [] => db
      | detected => (update_models db (clock kh) kh detected).1
      end
    else db
  | None => db
  end.

(** One round of [_model_redetect_loop], after the sleep. *)
Definition _model_redetect_loop (plainkeys : gmap string string)
    (detect : string -> list string) (clock : string -> Qc)
    (db : KeyDb) : KeyDb :=
  let all_keys := get_all_keys db in
  let active_keys_ : gmap string APIKeyEntry :=
    filter (fun p => is_active p.2 = true) all_keys in
  if bool_decide (active_keys_ = ∅) then db
  else foldl (fun d p => redetect plainkeys detect clock d p.1)
             db (map_to_list active_keys_).

(** ** [_cleanup_loop] *)

(** The calls [cleanup_old_data(kh, model)] of one round, in order. *)
Definition cleanup_targets (keys : KeyDb) : list (string * string) :=
  flat_map (fun p => List.map (fun model => (p.1, model)) (available_models p.2))
           (map_to_list (get_active_keys keys)).

(** One round of [_cleanup_loop], after the sleep; [clock k] is the
    reading of the clock by the call number [k]. *)
Definition _cleanup_loop (clock : nat -> Qc) (keys : KeyDb) (db : RateDb) : RateDb :=
  (foldl (fun '(d, k) '(kh, model) =>
            (cleanup_old_data d (clock k) kh model, S k))
         (db, 0%nat) (cleanup_targets keys)).1.

End health_monitor.

(* ===================================================================== *)
(** * hydra/services/token_service.py *)
(* ===================================================================== *)

Module token_service.

(** One value of [TokenEntry.usage]: [{"requests": _, "tokens": _}]. *)
Record ModelUsage : Type := mkModelUsage { requests : Z; tokens : Z }.

(** [TokenEntry], the stored access token. *)
Record TokenEntry : Type := mkTokenEntry {
  id : string;
  name : string;
  token_preview : string;
  created_at : string;
  is_active : bool;
  usage : gmap string ModelUsage;
  total_requests : Z;
  total_tokens : Z
}.

(** The hash [tui:tokens], token id to entry, and the hash
    [tui:token_plain]. *)
Record TokenDb : Type := mkTokenDb {
  tokens_hash : gmap string TokenEntry;
  token_plain : gmap string string
}.

(** [raw_token[-6:]]. *)
Definition last6 (s : string) : string :=
  substring (String.length s - 6) 6 s.

(** Truth value of a Python [str]. *)
Definition nonempty (s : string) : bool := negb (String.eqb s "").

Section with_hash.

(** [_hash_token]: the first 16 hex digits of the SHA-256 digest. *)
Variable _hash_token : string -> string.

(** [create_token]; [raw_token] is the token drawn and [now] the
    ISO time stamp. *)
Definition create_token (db : TokenDb) (raw_token now name_ : string)
    : TokenDb * (string * string * string) :=
  let token_id := _hash_token raw_token in
  let entry :=
    mkTokenEntry token_id
      (if nonempty name_ then name_ else "token-" ++ substring 0 6 token_id)
      ("..." ++ last6 raw_token) now true ∅ 0 0 in
  (mkTokenDb (<[token_id := entry]> (tokens_hash db))
             (<[token_id := raw_token]> (token_plain db)),
   (raw_token, token_id, name entry)).

(** [validate_token]. *)
Definition validate_token (db : TokenDb) (token : string) : option TokenEntry :=
  match tokens_hash db !! _hash_token token with
  | None => None
  | Some entry => if is_active entry then Some entry else None
  end.

(** [record_usage]. *)
Definition record_usage (db : TokenDb) (token model : string) (tokens_used : Z)
    : TokenDb :=
  let token_id := _hash_token token in
  match tokens_hash db !! token_id with
  | None => db
  | Some entry =>
    let usage0 :=
      match usage entry !! model with
      | Some _ => usage entry
      | None => <[model := mkModelUsage 0 0]> (usage entry)
      end in
    let counters := default (mkModelUsage 0 0) (usage0 !! model) in
    let usage1 := <[model := mkModelUsage (requests counters + 1) (tokens counters)]> usage0 in
    let counters1 := default (mkModelUsage 0 0) (usage1 !! model) in
    let usage2 :=
      <[model := mkModelUsage (requests counters1) (tokens counters1 + tokens_used)]> usage1 in
    let entry1 :=
      mkTokenEntry (id entry) (name entry) (token_preview entry) (created_at entry)
        (is_active entry) usage2
        (total_requests entry + 1) (total_tokens entry + tokens_used) in
    mkTokenDb (<[token_id := entry1]> (tokens_hash db)) (token_plain db)
  end.

End with_hash.

(** [delete_token]: the database and the flag returned. *)
Definition delete_token (db : TokenDb) (token_id : string) : TokenDb * bool :=
  (mkTokenDb (delete token_id (tokens_hash db)) (delete token_id (token_plain db)),
   bool_decide (is_Some (tokens_hash db !! token_id))).

(** [has_any_tokens]. *)
Definition has_any_tokens (db : TokenDb) : bool :=
  bool_decide (0 < size (tokens_hash db))%nat.

End token_service.

(* ===================================================================== *)
(** * hydra/api/routes/chat.py: the capabilities a request requires *)
(* ===================================================================== *)

Module chat_request.
Import constants.

(** A JSON value, as far as [_detect_required_capabilities] looks at
    one: a string, or a value of another kind. *)
Inductive Json : Type :=
  | JString (s : string)
  | JOther.

#[global] Instance Json_eq_dec : EqDecision Json.
Proof. solve_decision. Defined.

(** A [dict] with string keys. *)
Definition Dict : Type := gmap string Json.

(** The fields of [ChatCompletionRequest] the detection reads. *)
Record ChatCompletionRequest : Type := mkChatCompletionRequest {
  tools : option (list Dict);
  response_format : option Dict;
  response_modalities : option (list string)
}.

(** [key in d]. *)
Definition has_key (key : string) (d : Dict) : bool :=
  bool_decide (is_Some (d !! key)).

(** [d.get(key) == value] for a string [value]. *)
Definition get_equals (key value : string) (d : Dict) : bool :=
  bool_decide (d !! key = Some (JString value)).

(** The body of [for tool in request.tools]. *)
Definition tool_caps (caps : gset string) (tool : Dict) : gset string :=
  let caps1 :=
    if has_key "function_declarations" tool || has_key "functionDeclarations" tool
    then caps ∪ {[CAP_FUNCTION_CALLING]}
    else if get_equals "type" "function" tool
    then caps ∪ {[CAP_FUNCTION_CALLING]}
    else caps in
  let caps2 :=
    if has_key "google_search" tool || has_key "googleSearch" tool
    then caps1 ∪ {[CAP_SEARCH_GROUNDING]} else caps1 in
  let caps3 :=
    if has_key "code_execution" tool || has_key "codeExecution" tool
    then caps2 ∪ {[CAP_CODE_EXECUTION]} else caps2 in
  if has_key "url_context" tool || has_key "urlContext" tool
  then caps3 ∪ {[CAP_URL_CONTEXT]} else caps3.

Section with_upper.

(** [str.upper]. *)
Variable upper : string -> string.

(** [_detect_required_capabilities]. *)
Definition _detect_required_capabilities (request : ChatCompletionRequest)
    : gset string :=
  let caps0 : gset string := ∅ in
  let caps1 :=
    match tools request with
    | Some (tool :: rest) => foldl tool_caps caps0 (tool :: rest)
    | _ => caps0
    end in
  let caps2 :=
    match response_modalities request with
    | Some (m :: rest) =>
      if bool_decide ("IMAGE" ∈ List.map upper (m :: rest))
      then caps1 ∪ {[CAP_IMAGE_GENERATION]} else caps1
    | _ => caps1
    end in
  match response_format request with
  | Some format =>
    if bool_decide (format <> ∅) then
      let type_ :=
        match format !! "type" with
        | Some value => value
        | None => JString ""
        end in
      match type_ with
      | JString s =>
        if bool_decide (s ∈ ["json_object"; "json"; "json_schema"])
        then caps2 ∪ {[CAP_STRUCTURED_OUTPUT]} else caps2
      | JOther => caps2
      end
    else caps2
  | None => caps2
  end.

End with_upper.

End chat_request.

(* ===================================================================== *)
(** * Vocabulary and situations for the endpoints and the monitor *)
(* ===================================================================== *)

Module more_situations.
Import constants.
Import rate_limiter.
Import api_key_service.
Import router_service.
Import chat.
Import props.
Import more.
Import scenario.
Import gemini_client.
Import health_monitor.

(** The database of the credential that advertises the embedding
    model, with its plaintext key. *)
Definition embed_redis : Redis :=
  mkRedis embed_keys ∅ (<["eee" := "token-e"]> ∅).

(** An upstream that serves every embedding call. *)
Definition embed_ok (api_key model : string) : Upstream := UpResult 0.

(** A disabled credential the health round brings back: it has a
    plaintext key, and the upstream answers the test on one of the
    models tested for it. *)
Definition recoverable (plainkeys : gmap string string)
    (test_api_key : string -> string -> bool)
    (kh : string) (entry : APIKeyEntry) : Prop :=
  exists plain_key model,
    plainkeys !! kh = Some plain_key /\ plain_key <> ""
    /\ (model ∈ models_to_test entry) /\ test_api_key plain_key model = true.

(** Two entries that differ by the activity flag, the health score and
    the error counter at most. *)
Definition same_registration (e e' : APIKeyEntry) : Prop :=
  id e' = id e /\ email e' = email e /\ api_key_preview e' = api_key_preview e
  /\ project_id e' = project_id e /\ created_at e' = created_at e
  /\ notes e' = notes e.

(** The window stored for [(kh, model)] holds nothing older than a
    minute before [lo]. *)
Definition pruned_since (lo : Qc) (db : RateDb) (kh model : string) : Prop :=
  let h := hgetall db (_rkey kh model) in
  (forall t, t ∈ default [] (requests h) -> (lo - Qc_of_Z 60 < t)%Qc)
  /\ (forall e, e ∈ default [] (tokens h) -> (lo - Qc_of_Z 60 < ts e)%Qc).

(** A database with one disabled credential, and an upstream that
    answers every test. *)
Definition disabled_entry : APIKeyEntry :=
  mkAPIKeyEntry "d15ab1ed" "off@example.com" "...k3y0ff" ""
                (Qc_of_Z 1767000000) None false 50 5 [GEMINI_25_FLASH] "".

Definition one_disabled : KeyDb :=
  mkKeyDb (<["ddd" := disabled_entry]> (<["aaa" := entry0]> ∅)) {["aaa"]}.

Definition plain_two : gmap string string :=
  <["ddd" := "token-d"]> (<["aaa" := "token-a"]> ∅).

Definition always_ok (plain_key model : string) : bool := true.

End more_situations.

(** Vocabulary for the access tokens. *)
Module token_props.
Import token_service.





(** [entry.usage.get(model, {"requests": 0, "tokens": 0})]. *)
Definition model_counters (e : TokenEntry) (model : string) : ModelUsage :=
  default (mkModelUsage 0 0) (usage e !! model).



End token_props.

(** Vocabulary for the capabilities a chat request requires. *)
Module request_props.
Import constants.
Import chat_request.

(** The tools of a request, none when the field is not set. *)
Definition tools_of (request : ChatCompletionRequest) : list Dict :=
  default [] (tools request).

(** What a tool can ask for. *)
Definition asks_functions (tool : Dict) : Prop :=
  is_Some (tool !! "function_declarations")
  \/ is_Some (tool !! "functionDeclarations")
  \/ tool !! "type" = Some (JString "function").

Definition asks_search (tool : Dict) : Prop :=
  is_Some (tool !! "google_search") \/ is_Some (tool !! "googleSearch").

Definition asks_code (tool : Dict) : Prop :=
  is_Some (tool !! "code_execution") \/ is_Some (tool !! "codeExecution").

Definition asks_url (tool : Dict) : Prop :=
  is_Some (tool !! "url_context") \/ is_Some (tool !! "urlContext").

(** The request asks for image output. *)
Definition asks_image (upper : string -> string)
    (request : ChatCompletionRequest) : Prop :=
  exists m, m ∈ default [] (response_modalities request) /\ upper m = "IMAGE".

(** The request asks for JSON output. *)
Definition asks_json (request : ChatCompletionRequest) : Prop :=
  exists format s,
    response_format request = Some format
    /\ format !! "type" = Some (JString s)
    /\ s ∈ ["json_object"; "json"; "json_schema"].

(** A request for text and an image, with Google search as a tool. *)
Definition image_with_search : ChatCompletionRequest :=
  mkChatCompletionRequest (Some [ {["google_search" := JOther]} ]) None
                          (Some ["text"; "image"]).

(** [str.upper] on texts of ASCII letters. *)
Definition upper_ascii (c : ascii) : ascii :=
  let n := nat_of_ascii c in
  if (97 <=? n)%nat && (n <=? 122)%nat then ascii_of_nat (n - 32) else c.

Fixpoint ascii_upper (s : string) : string :=
  match s with
  | EmptyString => EmptyString
  | String c rest => String (upper_ascii c) (ascii_upper rest)
  end.

End request_props.

(* ===================================================================== *)
(** * Properties of the rate limiter *)
(* ===================================================================== *)

Section rate_limiter_properties.
Import constants.
Import rate_limiter.
Import props.

(** Reading a hash back after writing one of its fields. *)
Lemma hgetall_insert (db : RateDb) (k : string) (h : RateHash) :
  hgetall (<[k := h]> db) k = h.
Proof. unfold hgetall. by rewrite lookup_insert_eq. Qed.

Lemma hgetall_insert_ne (db : RateDb) (k k' : string) (h : RateHash) :
  k <> k' -> hgetall (<[k := h]> db) k' = hgetall db k'.
Proof. intros Hne. unfold hgetall. by rewrite lookup_insert_ne. Qed.

Lemma newer_spec (w t : Qc) : newer w t = true <-> (w < t)%Qc.
Proof. unfold newer. apply bool_decide_eq_true. Qed.

Lemma recent_requests_spec (w : Qc) (l : list Qc) (t : Qc) :
  t ∈ recent_requests w l <-> t ∈ l /\ (w < t)%Qc.
Proof.
  unfold recent_requests. rewrite !list_elem_of_In, filter_In, newer_spec.
  reflexivity.
Qed.

Lemma recent_entries_spec (w : Qc) (l : list TokenEntry) (e : TokenEntry) :
  e ∈ recent_entries w l <-> e ∈ l /\ (w < ts e)%Qc.
Proof.
  unfold recent_entries. rewrite !list_elem_of_In, filter_In, newer_spec.
  reflexivity.
Qed.

(** Reading the hash back after one [hset]. *)
Lemma hgetall_hset_requests (db : RateDb) (k : string) (v : list Qc) :
  hgetall (hset_requests k v db) k =
    let h := hgetall db k in
    mkRateHash (Some v) (tokens h) (rpd_count h) (last_rpd_reset h)
               (rpm_limit h) (rpd_limit h) (tpm_limit h).
Proof. apply hgetall_insert. Qed.

Lemma hgetall_hset_tokens (db : RateDb) (k : string) (v : list TokenEntry) :
  hgetall (hset_tokens k v db) k =
    let h := hgetall db k in
    mkRateHash (requests h) (Some v) (rpd_count h) (last_rpd_reset h)
               (rpm_limit h) (rpd_limit h) (tpm_limit h).
Proof. apply hgetall_insert. Qed.

Lemma hgetall_hset_rpd_count (db : RateDb) (k : string) (v : Z) :
  hgetall (hset_rpd_count k v db) k =
    let h := hgetall db k in
    mkRateHash (requests h) (tokens h) (Some v) (last_rpd_reset h)
               (rpm_limit h) (rpd_limit h) (tpm_limit h).
Proof. apply hgetall_insert. Qed.

Lemma hgetall_hset_last_rpd_reset (db : RateDb) (k : string) (v : string) :
  hgetall (hset_last_rpd_reset k v db) k =
    let h := hgetall db k in
    mkRateHash (requests h) (tokens h) (rpd_count h) (Some v)
               (rpm_limit h) (rpd_limit h) (tpm_limit h).
Proof. apply hgetall_insert. Qed.

Lemma hgetall_hset_rpm_limit (db : RateDb) (k : string) (v : Z) :
  hgetall (hset_rpm_limit k v db) k =
    let h := hgetall db k in
    mkRateHash (requests h) (tokens h) (rpd_count h) (last_rpd_reset h)
               (Some v) (rpd_limit h) (tpm_limit h).
Proof. apply hgetall_insert. Qed.

Lemma hgetall_hset_rpd_limit (db : RateDb) (k : string) (v : Z) :
  hgetall (hset_rpd_limit k v db) k =
    let h := hgetall db k in
    mkRateHash (requests h) (tokens h) (rpd_count h) (last_rpd_reset h)
               (rpm_limit h) (Some v) (tpm_limit h).
Proof. apply hgetall_insert. Qed.

Lemma hgetall_hset_tpm_limit (db : RateDb) (k : string) (v : Z) :
  hgetall (hset_tpm_limit k v db) k =
    let h := hgetall db k in
    mkRateHash (requests h) (tokens h) (rpd_count h) (last_rpd_reset h)
               (rpm_limit h) (rpd_limit h) (Some v).
Proof. apply hgetall_insert. Qed.

(** The record after [record_request]. *)
Lemma record_request_hash (db : RateDb) (now : Qc) (kh model : string) (toks : Z) :
  let raw := hgetall db (_rkey kh model) in
  let today := _today_pacific now in
  hgetall (record_request db now kh model toks) (_rkey kh model) =
    mkRateHash
      (Some (default [] (requests raw) ++ [now])%list)
      (Some (default [] (tokens raw) ++ [mkTokenEntry now toks])%list)
      (Some ((if bool_decide (default "" (last_rpd_reset raw) <> today)
              then 0 else default 0 (rpd_count raw)) + 1))
      (Some today)
      (Some (limit_or_0 rpm model))
      (Some (limit_or_0 rpd model))
      (Some (limit_or_0 tpm model)).
Proof.
  cbv zeta. unfold record_request. cbv zeta.
  generalize (_rkey kh model). intros k.
  rewrite hgetall_hset_tpm_limit; cbv zeta.
  rewrite hgetall_hset_rpd_limit; cbn [requests tokens rpd_count last_rpd_reset
                                         rpm_limit rpd_limit tpm_limit].
  rewrite hgetall_hset_rpm_limit; cbn [requests tokens rpd_count last_rpd_reset
                                         rpm_limit rpd_limit tpm_limit].
  rewrite hgetall_hset_last_rpd_reset; cbn [requests tokens rpd_count last_rpd_reset
                                         rpm_limit rpd_limit tpm_limit].
  rewrite hgetall_hset_rpd_count; cbn [requests tokens rpd_count last_rpd_reset
                                         rpm_limit rpd_limit tpm_limit].
  rewrite hgetall_hset_tokens; cbn [requests tokens rpd_count last_rpd_reset
                                         rpm_limit rpd_limit tpm_limit].
  rewrite hgetall_hset_requests; cbn [requests tokens rpd_count last_rpd_reset
                                         rpm_limit rpd_limit tpm_limit].
  reflexivity.
Qed.

(** C6.  When the stored [last_rpd_reset] differs from today's date in the
    quota zone (UTC-8): [check_rate_limit] answers as if the stored daily
    counter were 0, whatever it is, so it blocks on RPD only for a limit
    [<= 0]; and after [record_request] the stored [rpd_count] is 1 and the
    stored date-stamp is today's quota-zone date. *)
Theorem daily_boundary_resets_counter
    (db : RateDb) (now : Qc) (kh model : string) (est toks : Z) :
  stored_stamp db kh model <> _today_pacific now ->
  (forall n : Z,
     check_rate_limit (hset_rpd_count (_rkey kh model) n db) now kh model est
     = check_rate_limit db now kh model est)
  /\ (forall lim : Z,
        (check_rate_limit db now kh model est).2 = Some (RpdReached lim) ->
        lim <= 0)
  /\ rpd_count (hgetall (record_request db now kh model toks) (_rkey kh model))
     = Some 1
  /\ last_rpd_reset (hgetall (record_request db now kh model toks) (_rkey kh model))
     = Some (_today_pacific now).
Proof.
  unfold stored_stamp. intros Hstamp. repeat split.
  - intros n. unfold check_rate_limit.
    destruct (MODEL_RATE_LIMITS !! model) as [limits|]; [|done].
    unfold hset_rpd_count. cbv zeta. rewrite hgetall_insert. simpl.
    rewrite !(bool_decide_eq_true_2 _ Hstamp). reflexivity.
  - intros lim. unfold check_rate_limit.
    destruct (MODEL_RATE_LIMITS !! model) as [limits|]; [|simpl; congruence].
    cbv zeta. rewrite (bool_decide_eq_true_2 _ Hstamp).
    destruct (Z.of_nat _ >=? rpm limits); [simpl; congruence|].
    destruct (0 >=? rpd limits) eqn:Hrpd.
    + simpl. intros [= <-]. lia.
    + destruct (_ >? tpm limits); simpl; congruence.
  - rewrite record_request_hash. simpl.
    by rewrite (bool_decide_eq_true_2 _ Hstamp).
  - by rewrite record_request_hash.
Qed.

Lemma check_rate_limit_unfold (db : RateDb) (now : Qc) (kh model : string)
    (est : Z) (limits : Limits) :
  MODEL_RATE_LIMITS !! model = Some limits ->
  check_rate_limit db now kh model est =
    if rpm_in_window db now kh model >=? rpm limits
    then (false, Some (RpmReached (rpm limits)))
    else if rpd_today db now kh model >=? rpd limits
    then (false, Some (RpdReached (rpd limits)))
    else if tpm_in_window db now kh model + est >? tpm limits
    then (false, Some (TpmExceeded (tpm limits)))
    else (true, None).
Proof.
  intros Hl. unfold check_rate_limit, rpm_in_window, rpd_today, tpm_in_window,
    stored_stamp.
  rewrite Hl. cbv zeta.
  destruct (Z.of_nat _ >=? rpm limits); [done|].
  destruct (decide (default "" (last_rpd_reset (hgetall db (_rkey kh model)))
                    = _today_pacific now)) as [He|Hne].
  - rewrite (bool_decide_eq_false_2 _ (fun H => H He)).
    by rewrite (bool_decide_eq_true_2 _ He).
  - rewrite (bool_decide_eq_true_2 _ Hne).
    by rewrite (bool_decide_eq_false_2 _ Hne).
Qed.

(** C7.  For a model of the catalog, [check_rate_limit] tests RPM, then
    RPD, then TPM and reports the first limit exceeded: RPM when the
    number of stored request timestamps [> now - 60] is [>=] the RPM
    limit; RPD when the daily counter (0 after a date change) is [>=] the
    RPD limit; TPM when the tokens counted in the window plus the
    estimate are [>] the TPM limit; and it answers [(True, None)] exactly
    when none is exceeded. *)
Theorem check_reports_first_exceeded_limit
    (db : RateDb) (now : Qc) (kh model : string) (est : Z) (limits : Limits) :
  MODEL_RATE_LIMITS !! model = Some limits ->
  let res := check_rate_limit db now kh model est in
  let rpm_hit := rpm_in_window db now kh model >= rpm limits in
  let rpd_hit := rpd_today db now kh model >= rpd limits in
  let tpm_hit := tpm_in_window db now kh model + est > tpm limits in
  (res = (false, Some (RpmReached (rpm limits))) <-> rpm_hit)
  /\ (res = (false, Some (RpdReached (rpd limits))) <-> ~ rpm_hit /\ rpd_hit)
  /\ (res = (false, Some (TpmExceeded (tpm limits)))
      <-> ~ rpm_hit /\ ~ rpd_hit /\ tpm_hit)
  /\ (res = (true, None) <-> ~ rpm_hit /\ ~ rpd_hit /\ ~ tpm_hit).
Proof.
  intros Hl. cbv zeta. rewrite (check_rate_limit_unfold _ _ _ _ _ _ Hl).
  generalize (rpm_in_window db now kh model) (rpd_today db now kh model)
             (tpm_in_window db now kh model).
  destruct limits as [lim_rpm lim_rpd lim_tpm]. simpl. clear Hl.
  intros n_rpm n_rpd n_tpm.
  destruct (Z.geb_spec n_rpm lim_rpm);
  destruct (Z.geb_spec n_rpd lim_rpd);
  destruct (Z.gtb_spec (n_tpm + est) lim_tpm);
  repeat split; intros; try discriminate; try lia;
    repeat match goal with H : _ /\ _ |- _ => destruct H end; try lia;
    try reflexivity.
Qed.

(** C8.  After [cleanup_old_data] every timestamp left in the stored
    request list and every entry left in the stored token list is
    strictly newer than [now - 60]; what is left is exactly what was
    stored and is that new; the daily counter and its date-stamp are as
    before. *)
Theorem cleanup_keeps_only_the_window
    (db : RateDb) (now : Qc) (kh model : string) :
  let h := hgetall db (_rkey kh model) in
  let h' := hgetall (cleanup_old_data db now kh model) (_rkey kh model) in
  (forall t : Qc, t ∈ default [] (requests h')
     <-> t ∈ default [] (requests h) /\ (now - Qc_of_Z 60 < t)%Qc)
  /\ (forall e : TokenEntry, e ∈ default [] (tokens h')
     <-> e ∈ default [] (tokens h) /\ (now - Qc_of_Z 60 < ts e)%Qc)
  /\ rpd_count h' = rpd_count h
  /\ last_rpd_reset h' = last_rpd_reset h.
Proof.
  cbv zeta. unfold cleanup_old_data. cbv zeta.
  destruct (hash_is_empty (hgetall db (_rkey kh model))) eqn:Hempty.
  - assert (requests (hgetall db (_rkey kh model)) = None
            /\ tokens (hgetall db (_rkey kh model)) = None) as [Hr Ht].
    { unfold hash_is_empty in Hempty.
      destruct (requests _), (tokens _); try discriminate; done. }
    rewrite Hr, Ht. simpl.
    split; [|split; [|done]]; intros x; split.
    + intros Hin. by apply elem_of_nil in Hin.
    + intros [Hin _]. by apply elem_of_nil in Hin.
    + intros Hin. by apply elem_of_nil in Hin.
    + intros [Hin _]. by apply elem_of_nil in Hin.
  - unfold hset_tokens, hset_requests. cbv zeta.
    rewrite !hgetall_insert. simpl.
    split; [|split; [|done]]; intros x.
    + apply recent_requests_spec.
    + apply recent_entries_spec.
Qed.

(** What the [for rkey in keys] loop leaves. *)
Lemma reset_batch_spec (keys : list string) (db : RateDb) (c : Z) :
  (reset_batch db c keys).2 = c + Z.of_nat (length keys)
  /\ forall k, hgetall (reset_batch db c keys).1 k
               = if bool_decide (k ∈ keys) then zero_rpd (hgetall db k)
                 else hgetall db k.
Proof.
  unfold reset_batch. revert db c.
  induction keys as [|k0 keys IH]; intros db c.
  - split; [simpl; lia|]. intros k. simpl foldl. cbn [fst].
    case_bool_decide as Hk; [|done]. by apply elem_of_nil in Hk.
  - simpl foldl. destruct (IH (hset_rpd_count k0 0 db) (c + 1)) as [IHc IHm].
    split; [rewrite IHc; simpl length; lia|].
    intros k. rewrite IHm.
    destruct (decide (k = k0)) as [->|Hne].
    + rewrite hgetall_hset_rpd_count.
      rewrite (bool_decide_eq_true_2 (k0 ∈ k0 :: keys)); [|by left].
      by destruct (bool_decide (k0 ∈ keys)).
    + unfold hset_rpd_count. cbv zeta. rewrite hgetall_insert_ne by done.
      destruct (decide (k ∈ keys)) as [Hin|Hnin].
      * rewrite (bool_decide_eq_true_2 _ Hin).
        rewrite (bool_decide_eq_true_2 (k ∈ k0 :: keys)); [done|by right].
      * rewrite (bool_decide_eq_false_2 _ Hnin).
        rewrite (bool_decide_eq_false_2 (k ∈ k0 :: keys)); [done|].
        intros [?|?]%elem_of_cons; done.
Qed.

Lemma reset_rpd_loop_runs_on (fuel : nat)
    (scan : nat -> Cursor -> RateDb -> Cursor * list string)
    (call : nat) (cursor : Cursor) (db : RateDb) (count : Z) :
  int_cursor scan -> reset_rpd_loop fuel scan call cursor db count = None.
Proof.
  intros Hint. revert call cursor db count.
  induction fuel as [|fuel IH]; intros call cursor db count; [done|].
  simpl. destruct (Hint call cursor db) as [n Hn].
  destruct (scan call cursor db) as [cursor1 keys]. simpl in Hn. subst cursor1.
  destruct (reset_batch db count keys) as [db1 count1]. simpl. apply IH.
Qed.

(** C10.  With a driver that hands the SCAN cursor back as an [int],
    [reset_rpd_all] does not return: the test [cursor == "0"] that ends
    its loop compares that [int] with a [str] and is never true, so
    however long the loop is let run it has not reached [return count].
    What each pass of the loop writes is what a reset is to write: the
    [rpd_count] of every key of the batch is set to 0, no other field
    of any record changes, and the counter goes up by the number of
    keys of the batch. *)
Theorem reset_rpd_all_never_returns
    (scan : nat -> Cursor -> RateDb -> Cursor * list string) :
  int_cursor scan ->
  (forall fuel db, reset_rpd_all fuel scan db = None)
  /\ (forall db count keys,
        (reset_batch db count keys).2 = count + Z.of_nat (length keys)
        /\ forall k,
             same_but_rpd_count (hgetall db k)
                                (hgetall (reset_batch db count keys).1 k)
             /\ (k ∈ keys ->
                 rpd_count (hgetall (reset_batch db count keys).1 k) = Some 0)
             /\ ((k ∉ keys) ->
                 hgetall (reset_batch db count keys).1 k = hgetall db k)).
Proof.
  intros Hint. split.
  - intros fuel db. unfold reset_rpd_all. by apply reset_rpd_loop_runs_on.
  - intros db count keys.
    destruct (reset_batch_spec keys db count) as [Hc Hm].
    split; [done|]. intros k. rewrite Hm. split; [|split].
    + by case_bool_decide.
    + intros Hk. by rewrite bool_decide_eq_true_2.
    + intros Hk. by rewrite bool_decide_eq_false_2.
Qed.

End rate_limiter_properties.

(* ===================================================================== *)
(** * Properties of the key service *)
(* ===================================================================== *)

Section api_key_service_properties.
Import constants.
Import api_key_service.

Lemma union_models_spec (a b : list string) (m : string) :
  m ∈ union_models a b <-> m ∈ a \/ m ∈ b.
Proof.
  unfold union_models.
  rewrite elem_of_elements, elem_of_union, !elem_of_list_to_set. reflexivity.
Qed.

Lemma get_active_keys_spec (db : KeyDb) (kh : string) (e : APIKeyEntry) :
  get_active_keys db !! kh = Some e <->
  apikeys db !! kh = Some e /\ is_active e = true.
Proof.
  unfold get_active_keys, get_all_keys.
  rewrite map_lookup_filter_Some. reflexivity.
Qed.

(** C5.  For a stored credential, [update_health] with [success=True]
    sets the health score to [min(100, health + 5)] and the
    consecutive-error counter to 0; with [success=False] it sets the
    health score to [max(0, health - 10)] and adds 1 to the counter, and
    when the new counter is 5 or more the credential is made inactive
    and taken out of the active set (below 5, the flag and the set stay
    as they were). *)
Theorem update_health_adjusts_score
    (db : KeyDb) (kh : string) (entry : APIKeyEntry) (success : bool) :
  apikeys db !! kh = Some entry ->
  exists entry' : APIKeyEntry,
    apikeys (update_health db kh success) !! kh = Some entry'
    /\ (success = true ->
          health_score entry' = Z.min 100 (health_score entry + 5)
          /\ consecutive_errors entry' = 0
          /\ is_active entry' = is_active entry
          /\ active_keys (update_health db kh success) = active_keys db)
    /\ (success = false ->
          health_score entry' = Z.max 0 (health_score entry - 10)
          /\ consecutive_errors entry' = consecutive_errors entry + 1
          /\ (consecutive_errors entry' >= 5 ->
                is_active entry' = false
                /\ (kh ∉ active_keys (update_health db kh success))
                /\ get_active_keys (update_health db kh success) !! kh = None)
          /\ (consecutive_errors entry' < 5 ->
                is_active entry' = is_active entry
                /\ active_keys (update_health db kh success) = active_keys db)).
Proof.
  intros Hk. unfold update_health. rewrite Hk.
  destruct success.
  - eexists. simpl. rewrite lookup_insert_eq. split; [reflexivity|].
    split; [|discriminate]. intros _. simpl.
    unfold HEALTH_SCORE_MAX, HEALTH_SCORE_SUCCESS_DELTA. done.
  - unfold HEALTH_CONSECUTIVE_ERROR_DISABLE, HEALTH_SCORE_FAILURE_DELTA.
    destruct (Z.geb_spec (consecutive_errors entry + 1) 5) as [Hge|Hlt].
    + eexists. simpl. rewrite lookup_insert_eq. split; [reflexivity|].
      split; [discriminate|]. intros _. simpl.
      split; [f_equal; lia|]. split; [done|]. split; [|lia].
      intros _. split; [done|]. split.
      { intros [_ Hn]%elem_of_difference. apply Hn. by apply elem_of_singleton. }
      apply eq_None_not_Some. intros [e He].
      apply get_active_keys_spec in He as [He Hact]. simpl in He.
      rewrite lookup_insert_eq in He. injection He as <-. discriminate Hact.
    + eexists. simpl. rewrite lookup_insert_eq. split; [reflexivity|].
      split; [discriminate|]. intros _. simpl.
      split; [f_equal; lia|]. split; [done|]. split; [lia|]. done.
Qed.

(** C9.  When the hash of the token already has a record, [add_api_key]
    stores a model list whose members are exactly those of the stored
    list or of the newly detected one, keeps the health score and the
    consecutive-error counter, and makes the record active (flag set,
    hash in the active set, record among the active keys); whereas
    [update_models] on that record leaves a stored list whose members are
    exactly those of the list given. *)
Theorem add_merges_update_models_replaces
    (hash_key : string -> string) (db : KeyDb) (now : Qc)
    (fresh_id api_key email_ : string) (detected : list string)
    (notes_ project_id_ : string) (existing : APIKeyEntry) :
  apikeys db !! hash_key api_key = Some existing ->
  (let res := add_api_key hash_key db now fresh_id api_key email_ detected
                          notes_ project_id_ in
   res.2 = hash_key api_key
   /\ exists entry' : APIKeyEntry,
        apikeys (res.1) !! hash_key api_key = Some entry'
        /\ (forall m, m ∈ available_models entry'
              <-> m ∈ available_models existing \/ m ∈ detected)
        /\ health_score entry' = health_score existing
        /\ consecutive_errors entry' = consecutive_errors existing
        /\ is_active entry' = true
        /\ (hash_key api_key ∈ active_keys (res.1))
        /\ get_active_keys (res.1) !! hash_key api_key = Some entry')
  /\ (let res := update_models db now (hash_key api_key) detected in
      exists entry' : APIKeyEntry,
        apikeys (res.1) !! hash_key api_key = Some entry'
        /\ (forall m, m ∈ available_models entry' <-> m ∈ detected)
        /\ (res.2 = true -> available_models entry' = detected)).
Proof.
  intros Hk. split; cbv zeta.
  - unfold add_api_key. rewrite Hk. simpl.
    split; [done|]. eexists. rewrite lookup_insert_eq.
    split; [reflexivity|]. simpl.
    split; [apply union_models_spec|].
    repeat split.
    { apply elem_of_union_l. by apply elem_of_singleton. }
    apply get_active_keys_spec. simpl. by rewrite lookup_insert_eq.
  - unfold update_models. rewrite Hk.
    case_bool_decide as Hneq; simpl.
    + eexists. rewrite lookup_insert_eq. split; [reflexivity|]. simpl. done.
    + exists existing. split; [done|]. split; [|discriminate].
      intros m.
      assert ((list_to_set (available_models existing) : gset string)
              = list_to_set detected) as Heq.
      { destruct (decide ((list_to_set (available_models existing) : gset string)
                          = list_to_set detected)); [done|]. by destruct Hneq. }
      rewrite <- !(elem_of_list_to_set (C := gset string)). by rewrite Heq.
Qed.

End api_key_service_properties.

(* ===================================================================== *)
(** * Properties of the router *)
(* ===================================================================== *)

Section router_properties.
Import constants.
Import rate_limiter.
Import api_key_service.
Import router_service.
Import props.

(** ** The order on key hashes *)

Lemma string_compare_refl (a : string) : String.compare a a = Eq.
Proof.
  induction a as [|c a IH]; simpl; [done|].
  unfold Ascii.compare. by rewrite N.compare_refl.
Qed.

Lemma string_compare_trans (a b c : string) :
  String.compare a b = Lt -> String.compare b c = Lt -> String.compare a c = Lt.
Proof.
  revert b c. induction a as [|x a IH]; intros [|y b] [|z c]; simpl; try done.
  unfold Ascii.compare.
  destruct (N.compare_spec (N_of_ascii x) (N_of_ascii y)) as [Hxy|Hxy|Hxy];
    try done;
  destruct (N.compare_spec (N_of_ascii y) (N_of_ascii z)) as [Hyz|Hyz|Hyz];
    try done; intros H1 H2.
  - rewrite Hxy, Hyz, N.compare_refl. eauto.
  - rewrite Hxy. by apply N.compare_lt_iff in Hyz as ->.
  - rewrite <- Hyz. by apply N.compare_lt_iff in Hxy as ->.
  - assert (N_of_ascii x < N_of_ascii z)%N as Hxz by lia.
    by apply N.compare_lt_iff in Hxz as ->.
Qed.

Lemma string_ltb_irrefl (a : string) : String.ltb a a = false.
Proof. unfold String.ltb. by rewrite string_compare_refl. Qed.

Lemma string_ltb_asym (a b : string) :
  String.ltb a b = true -> String.ltb b a = false.
Proof.
  unfold String.ltb. rewrite (String.compare_antisym b a).
  by destruct (String.compare a b).
Qed.

Lemma string_ltb_false_leb (a b : string) :
  String.ltb a b = false <-> String.leb b a = true.
Proof.
  unfold String.ltb, String.leb. rewrite (String.compare_antisym b a).
  by destruct (String.compare a b).
Qed.

(** [a >= b] and [b >= c] give [a >= c]. *)
Lemma string_ltb_false_trans (a b c : string) :
  String.ltb a b = false -> String.ltb b c = false -> String.ltb a c = false.
Proof.
  unfold String.ltb. intros Hab Hbc.
  destruct (String.compare a c) eqn:Hac; try done. exfalso.
  destruct (String.compare a b) eqn:Hab'; try done.
  - apply String.compare_eq_iff in Hab' as ->. by rewrite Hac in Hbc.
  - destruct (String.compare b c) eqn:Hbc'; try done.
    + apply String.compare_eq_iff in Hbc' as ->. by rewrite Hac in Hab'.
    + assert (String.compare c b = Lt) as Hcb.
      { rewrite String.compare_antisym, Hbc'. done. }
      pose proof (string_compare_trans _ _ _ Hac Hcb) as Hab''.
      by rewrite Hab'' in Hab'.
Qed.

(** ** The order on floats *)

(** Case analysis on the comparisons of exponents and mantissas inside
    [SFcompare]. *)
Ltac float_compare_cases :=
  repeat match goal with
  | |- context [Pos.compare_cont Eq ?a ?b] =>
      change (Pos.compare_cont Eq a b) with (Pos.compare a b)
  | H : context [Pos.compare_cont Eq ?a ?b] |- _ =>
      change (Pos.compare_cont Eq a b) with (Pos.compare a b) in H
  end;
  repeat match goal with
  | |- context [Z.compare ?a ?b] => destruct (Z.compare_spec a b)
  | H : context [Z.compare ?a ?b] |- _ => destruct (Z.compare_spec a b)
  | |- context [Pos.compare ?a ?b] => destruct (Pos.compare_spec a b)
  | H : context [Pos.compare ?a ?b] |- _ => destruct (Pos.compare_spec a b)
  end.

Lemma float_compare_refl (a : pyfloat.float) :
  pyfloat.is_nan a = false -> SFcompare a a = Some Eq.
Proof.
  destruct a as [s| s| |s m e]; simpl; try discriminate; intros _.
  - reflexivity.
  - destruct s; reflexivity.
  - destruct s; rewrite Z.compare_refl, Pos.compare_cont_refl; reflexivity.
Qed.

Lemma float_compare_antisym (a b : pyfloat.float) :
  SFcompare b a = option_map CompOpp (SFcompare a b).
Proof.
  destruct a as [sa| sa| |sa ma ea], b as [sb| sb| |sb mb eb]; simpl;
    try reflexivity; try (destruct sa; reflexivity);
    try (destruct sb; reflexivity); try (destruct sa, sb; reflexivity).
  destruct sa, sb; simpl; try reflexivity;
    float_compare_cases; subst; simpl; try reflexivity; lia.
Qed.

(** Two floats of which neither is a NaN are comparable. *)
Lemma float_compare_total (a b : pyfloat.float) :
  pyfloat.is_nan a = false -> pyfloat.is_nan b = false ->
  exists c, SFcompare a b = Some c.
Proof.
  destruct a as [sa| sa| |sa ma ea], b as [sb| sb| |sb mb eb]; simpl;
    try discriminate; intros _ _; eauto.
Qed.

(** [a >= b] and [b >= c] give [a >= c], for a number [b]. *)
Lemma float_ltb_false_trans (a b c : pyfloat.float) :
  pyfloat.is_nan b = false ->
  pyfloat.ltb a b = false -> pyfloat.ltb b c = false -> pyfloat.ltb a c = false.
Proof.
  unfold pyfloat.ltb, SFltb.
  destruct a as [sa| sa| |sa ma ea], b as [sb| sb| |sb mb eb],
           c as [sc| sc| |sc mc ec]; simpl; try discriminate; try reflexivity;
    intros _;
    try (destruct sa; simpl; try discriminate; try reflexivity);
    try (destruct sb; simpl; try discriminate; try reflexivity);
    try (destruct sc; simpl; try discriminate; try reflexivity);
    float_compare_cases; simpl; try discriminate; try reflexivity;
    intros; try lia.
Qed.

Lemma float_eqb_sym (a b : pyfloat.float) : pyfloat.eqb a b = pyfloat.eqb b a.
Proof.
  unfold pyfloat.eqb, SFeqb. rewrite (float_compare_antisym a b).
  by destruct (SFcompare a b) as [[| |]|].
Qed.

Lemma float_eqb_trans (a b c : pyfloat.float) :
  pyfloat.eqb a b = true -> pyfloat.eqb b c = true -> pyfloat.eqb a c = true.
Proof.
  unfold pyfloat.eqb, SFeqb.
  destruct a as [sa| sa| |sa ma ea], b as [sb| sb| |sb mb eb],
           c as [sc| sc| |sc mc ec]; simpl; try discriminate; try reflexivity;
    try (destruct sa; simpl; try discriminate; try reflexivity);
    try (destruct sb; simpl; try discriminate; try reflexivity);
    try (destruct sc; simpl; try discriminate; try reflexivity);
    float_compare_cases; subst; simpl; try discriminate; try reflexivity;
    intros; try lia.
Qed.

(** Equal floats stand in the same relation to a third. *)
Lemma float_ltb_eqb_l (a b c : pyfloat.float) :
  pyfloat.eqb a b = true -> pyfloat.ltb a c = pyfloat.ltb b c.
Proof.
  unfold pyfloat.eqb, pyfloat.ltb, SFeqb, SFltb.
  destruct a as [sa| sa| |sa ma ea], b as [sb| sb| |sb mb eb],
           c as [sc| sc| |sc mc ec]; simpl; try discriminate; try reflexivity;
    try (destruct sa; simpl; try discriminate; try reflexivity);
    try (destruct sb; simpl; try discriminate; try reflexivity);
    try (destruct sc; simpl; try discriminate; try reflexivity);
    float_compare_cases; subst; simpl; try discriminate; try reflexivity;
    intros; try lia.
Qed.

Lemma float_ltb_eqb_r (a b c : pyfloat.float) :
  pyfloat.eqb a b = true -> pyfloat.ltb c a = pyfloat.ltb c b.
Proof.
  unfold pyfloat.eqb, pyfloat.ltb, SFeqb, SFltb.
  destruct a as [sa| sa| |sa ma ea], b as [sb| sb| |sb mb eb],
           c as [sc| sc| |sc mc ec]; simpl; try discriminate; try reflexivity;
    try (destruct sa; simpl; try discriminate; try reflexivity);
    try (destruct sb; simpl; try discriminate; try reflexivity);
    try (destruct sc; simpl; try discriminate; try reflexivity);
    float_compare_cases; subst; simpl; try discriminate; try reflexivity;
    intros; try lia.
Qed.

Lemma float_eqb_not_ltb (a b : pyfloat.float) :
  pyfloat.eqb a b = true -> pyfloat.ltb a b = false.
Proof.
  unfold pyfloat.eqb, pyfloat.ltb, SFeqb, SFltb.
  by destruct (SFcompare a b) as [[| |]|].
Qed.

Lemma float_ltb_asym (a b : pyfloat.float) :
  pyfloat.ltb a b = true -> pyfloat.ltb b a = false.
Proof.
  unfold pyfloat.ltb, SFltb. rewrite (float_compare_antisym a b).
  by destruct (SFcompare a b) as [[| |]|].
Qed.

(** For numbers, [not (a < b)] is [b <= a]. *)
Lemma float_ltb_false_leb (a b : pyfloat.float) :
  pyfloat.is_nan a = false -> pyfloat.is_nan b = false ->
  pyfloat.ltb a b = false <-> pyfloat.leb b a = true.
Proof.
  intros Ha Hb. unfold pyfloat.ltb, pyfloat.leb, SFltb, SFleb.
  rewrite (float_compare_antisym a b).
  destruct (float_compare_total a b Ha Hb) as [c ->]. by destruct c.
Qed.

(** ** The order on the tuples [(score, key_hash)] *)

Lemma tuple_lt_irrefl (a : pyfloat.float * string) : tuple_lt a a = false.
Proof.
  unfold tuple_lt. destruct (pyfloat.eqb a.1 a.1) eqn:He.
  - apply string_ltb_irrefl.
  - destruct (pyfloat.ltb a.1 a.1) eqn:Hl; [|done].
    by rewrite (float_ltb_asym _ _ Hl) in Hl.
Qed.

Lemma tuple_lt_asym (a b : pyfloat.float * string) :
  tuple_lt a b = true -> tuple_lt b a = false.
Proof.
  unfold tuple_lt. rewrite (float_eqb_sym b.1 a.1).
  destruct (pyfloat.eqb a.1 b.1).
  - apply string_ltb_asym.
  - apply float_ltb_asym.
Qed.

(** What [tuple_lt a b = false] says of two numbered tuples: [b] is not
    above [a]. *)
Lemma tuple_lt_false (a b : pyfloat.float * string) :
  pyfloat.is_nan a.1 = false -> pyfloat.is_nan b.1 = false ->
  tuple_lt a b = false <->
  pyfloat.leb b.1 a.1 = true
  /\ (pyfloat.eqb b.1 a.1 = true -> String.leb b.2 a.2 = true).
Proof.
  intros Ha Hb. unfold tuple_lt. rewrite (float_eqb_sym b.1 a.1).
  destruct (pyfloat.eqb a.1 b.1) eqn:He.
  - rewrite string_ltb_false_leb. split.
    + intros Hleb. split; [|done].
      apply float_ltb_false_leb; [done|done|]. by apply float_eqb_not_ltb.
    + intros [_ Hleb]. by apply Hleb.
  - rewrite (float_ltb_false_leb _ _ Ha Hb). split; [|tauto].
    intros Hleb. split; [done|]. discriminate.
Qed.

Lemma tuple_lt_false_trans (a b c : pyfloat.float * string) :
  pyfloat.is_nan b.1 = false ->
  tuple_lt a b = false -> tuple_lt b c = false -> tuple_lt a c = false.
Proof.
  intros Hb. unfold tuple_lt.
  destruct (pyfloat.eqb a.1 b.1) eqn:Hab; destruct (pyfloat.eqb b.1 c.1) eqn:Hbc.
  - rewrite (float_eqb_trans _ _ _ Hab Hbc). apply string_ltb_false_trans.
  - intros _ Hlt.
    assert (pyfloat.eqb a.1 c.1 = false) as ->.
    { destruct (pyfloat.eqb a.1 c.1) eqn:Hac; [|done].
      rewrite float_eqb_sym in Hab.
      by rewrite (float_eqb_trans _ _ _ Hab Hac) in Hbc. }
    by rewrite (float_ltb_eqb_l _ _ _ Hab).
  - intros Hlt _.
    assert (pyfloat.eqb a.1 c.1 = false) as ->.
    { destruct (pyfloat.eqb a.1 c.1) eqn:Hac; [|done].
      rewrite float_eqb_sym in Hbc.
      by rewrite (float_eqb_trans _ _ _ Hac Hbc) in Hab. }
    by rewrite <- (float_ltb_eqb_r _ _ _ Hbc).
  - intros Hlt1 Hlt2.
    pose proof (float_ltb_false_trans _ _ _ Hb Hlt1 Hlt2) as Hlt.
    destruct (pyfloat.eqb a.1 c.1) eqn:Hac; [|done].
    rewrite (float_ltb_eqb_l _ _ _ Hac) in Hlt1.
    destruct (float_compare_total c.1 b.1) as [cmp Hcmp]; [|done|].
    { destruct (c.1); try done. by destruct (a.1). }
    exfalso. revert Hlt1 Hlt2 Hbc.
    unfold pyfloat.ltb, pyfloat.eqb, SFltb, SFeqb.
    rewrite (float_compare_antisym c.1 b.1), Hcmp. by destruct cmp.
Qed.

(** ** The sort *)

Lemma insert_desc_elem (x y : pyfloat.float * string)
    (l : list (pyfloat.float * string)) :
  y ∈ insert_desc x l <-> y = x \/ y ∈ l.
Proof.
  induction l as [|z l IH]; simpl.
  - rewrite list_elem_of_singleton, elem_of_nil. tauto.
  - destruct (tuple_lt x z).
    + rewrite !elem_of_cons, IH. tauto.
    + rewrite !elem_of_cons. tauto.
Qed.

Lemma sort_reverse_elem (y : pyfloat.float * string)
    (l : list (pyfloat.float * string)) :
  y ∈ sort_reverse l <-> y ∈ l.
Proof.
  unfold sort_reverse. induction l as [|x l IH]; simpl; [done|].
  rewrite insert_desc_elem, IH, elem_of_cons. tauto.
Qed.

Lemma insert_desc_head_max (x : pyfloat.float * string)
    (l : list (pyfloat.float * string)) :
  (forall y, y ∈ l -> pyfloat.is_nan y.1 = false) ->
  head_max l -> head_max (insert_desc x l).
Proof.
  destruct l as [|b rest]; simpl.
  - intros _ _ y Hy. by apply elem_of_nil in Hy.
  - intros Hnum Hmax. destruct (tuple_lt x b) eqn:Hxb; simpl.
    + intros y [->|Hy]%insert_desc_elem; [by apply tuple_lt_asym|by apply Hmax].
    + intros y [->|Hy]%elem_of_cons; [done|].
      apply tuple_lt_false_trans with b; [|done|by apply Hmax].
      apply Hnum. by left.
Qed.

Lemma sort_reverse_head_max (l : list (pyfloat.float * string)) :
  (forall y, y ∈ l -> pyfloat.is_nan y.1 = false) ->
  head_max (sort_reverse l).
Proof.
  unfold sort_reverse. induction l as [|x l IH]; simpl; [done|].
  intros Hnum. apply insert_desc_head_max.
  - intros y Hy. apply Hnum. right. by apply (sort_reverse_elem y l).
  - apply IH. intros y Hy. apply Hnum. by right.
Qed.

(** [scored[0]] after the sort is in [scored]. *)
Lemma sort_reverse_first_elem (l : list (pyfloat.float * string))
    (best : pyfloat.float * string) (rest : list (pyfloat.float * string)) :
  sort_reverse l = best :: rest -> best ∈ l.
Proof. intros Hs. apply sort_reverse_elem. rewrite Hs. by left. Qed.

(** When all scores are numbers, no element of [scored] is above
    [scored[0]]. *)
Lemma sort_reverse_first (l : list (pyfloat.float * string))
    (best : pyfloat.float * string) (rest : list (pyfloat.float * string)) :
  (forall y, y ∈ l -> pyfloat.is_nan y.1 = false) ->
  sort_reverse l = best :: rest ->
  forall y, y ∈ l -> tuple_lt best y = false.
Proof.
  intros Hnum Hs y Hy. apply sort_reverse_elem in Hy. rewrite Hs in Hy.
  apply elem_of_cons in Hy as [->|Hy]; [apply tuple_lt_irrefl|].
  pose proof (sort_reverse_head_max l Hnum) as Hmax. rewrite Hs in Hmax.
  by apply Hmax.
Qed.

(** ** The selection *)

Lemma eligible_keys_spec (active : gmap string APIKeyEntry) (model : string)
    (exclude : gset (string * string)) (kh : string) (entry : APIKeyEntry) :
  eligible_keys active model exclude !! kh = Some entry <->
  active !! kh = Some entry /\ model ∈ available_models entry
  /\ (kh, model) ∉ exclude.
Proof. unfold eligible_keys. rewrite map_lookup_filter_Some. reflexivity. Qed.

Lemma score_keys_spec (self : RouterService) (rate : RateDb) (now : Qc)
    (model : string) (est : Z) (eligible : gmap string APIKeyEntry)
    (s : pyfloat.float) (kh : string) :
  (s, kh) ∈ score_keys self rate now model est eligible <->
  exists entry, eligible !! kh = Some entry
    /\ (check_rate_limit rate now kh model est).1 = true
    /\ s = candidate_score self rate now model kh entry.
Proof.
  unfold score_keys, candidate_score. rewrite list_elem_of_omap. split.
  - intros [[kh' entry] [Hin Hf]]. apply elem_of_map_to_list in Hin.
    destruct ((check_rate_limit rate now kh' model est).1) eqn:Hc; [|done].
    injection Hf as <- <-. eauto.
  - intros (entry & Hin & Hc & ->). exists (kh, entry).
    split; [by apply elem_of_map_to_list|]. by rewrite Hc.
Qed.

(** What a successful pass over the candidate models says of its result. *)
Lemma try_models_Selected (self : RouterService) (rate : RateDb) (now : Qc)
    (active : gmap string APIKeyEntry) (est : Z) (caps : option (gset string))
    (exclude : gset (string * string)) (blocked : gset string)
    (models : list string) (kh model em pv : string) :
  try_models self rate now active est caps exclude blocked models
    = Selected kh model em pv ->
  model ∈ models /\ (model ∉ blocked)
  /\ (forall entry, eligible_keys active model exclude !! kh = Some entry ->
         em = email entry /\ pv = api_key_preview entry)
  /\ exists best rest,
       sort_reverse (score_keys self rate now model est
                       (eligible_keys active model exclude)) = best :: rest
       /\ best.2 = kh.
Proof.
  induction models as [|m models IH]; simpl; [done|].
  case_bool_decide as Hb.
  { intros H. destruct (IH H) as (? & ? & ?). split; [by right|done]. }
  destruct (caps_given caps && _).
  { intros H. destruct (IH H) as (? & ? & ?). split; [by right|done]. }
  case_bool_decide as He.
  { intros H. destruct (IH H) as (? & ? & ?). split; [by right|done]. }
  destruct (sort_reverse (score_keys self rate now m est
                            (eligible_keys active m exclude)))
    as [|best rest] eqn:Hs.
  { intros H. destruct (IH H) as (? & ? & ?). split; [by right|done]. }
  intros H.
  assert (best.2 = kh /\ m = model) as [<- <-].
  { destruct (eligible_keys active m exclude !! best.2); by injection H. }
  split; [by left|]. split; [done|]. split; [|eauto].
  intros entry He'. rewrite He' in H. by injection H.
Qed.

Lemma select_Selected (self : RouterService) (keys : KeyDb) (rate : RateDb)
    (now : Qc) (preferred : option string) (est : Z)
    (caps : option (gset string)) (exclude : option (gset (string * string)))
    (blocked : option (gset string)) (kh model em pv : string) :
  select_best_key_and_model self keys rate now preferred est caps exclude blocked
    = Selected kh model em pv ->
  (model ∉ default ∅ blocked)
  /\ (forall entry,
        eligible_keys (get_active_keys keys) model (default ∅ exclude) !! kh
          = Some entry ->
        em = email entry /\ pv = api_key_preview entry)
  /\ exists best rest,
       sort_reverse (score_keys self rate now model est
                       (eligible_keys (get_active_keys keys) model
                                      (default ∅ exclude))) = best :: rest
       /\ best.2 = kh.
Proof.
  unfold select_best_key_and_model. case_bool_decide as Hne; [done|].
  intros Hsel. by apply try_models_Selected in Hsel as (_ & ? & ?).
Qed.

Lemma survivor_scored (self : RouterService) (keys : KeyDb) (rate : RateDb)
    (now : Qc) (model : string) (est : Z) (exclude : gset (string * string))
    (s : pyfloat.float) (kh : string) :
  (s, kh) ∈ score_keys self rate now model est
              (eligible_keys (get_active_keys keys) model exclude) <->
  exists entry, survivor keys rate now model est exclude kh entry
    /\ s = candidate_score self rate now model kh entry.
Proof.
  rewrite score_keys_spec. unfold survivor.
  split; intros (entry & H); exists entry; revert H;
    rewrite eligible_keys_spec, get_active_keys_spec; tauto.
Qed.

(** The pair the router returns is neither excluded nor on a blocked
    model. *)
Lemma select_respects_exclusions (self : RouterService) (keys : KeyDb)
    (rate : RateDb) (now : Qc) (preferred : option string) (est : Z)
    (caps : option (gset string)) (exclude : gset (string * string))
    (blocked : gset string) (kh model em pv : string) :
  select_best_key_and_model self keys rate now preferred est caps
                            (Some exclude) (Some blocked)
    = Selected kh model em pv ->
  ((kh, model) ∉ exclude) /\ (model ∉ blocked).
Proof.
  intros H. apply select_Selected in H as (Hb & _ & best & rest & Hs & <-).
  split; [|done]. simpl in Hs.
  apply sort_reverse_first_elem in Hs as Hin.
  destruct best as [s kh]. apply survivor_scored in Hin as (entry & Hsv & _).
  unfold survivor in Hsv. tauto.
Qed.

(** C3, as amended.  When the router returns a credential for a model,
    that credential is one of the survivors scored for the model, no
    survivor has a higher score, and every survivor with exactly the same
    score has a handle that is lexicographically less than or equal to
    the one returned: ties go to the last handle in ascending order.  The
    choice is a function of the inputs.  The scores are the floats the
    router computes, compared with [==] and [<=] on floats; they are
    computed from [int]s that floats hold exactly, and none is NaN. *)
Theorem ties_go_to_last_handle
    (self : RouterService) (keys : KeyDb) (rate : RateDb) (now : Qc)
    (preferred : option string) (est : Z) (caps : option (gset string))
    (exclude : gset (string * string)) (blocked : gset string)
    (kh model em pv : string) :
  select_best_key_and_model self keys rate now preferred est caps
                            (Some exclude) (Some blocked)
    = Selected kh model em pv ->
  scores_are_numbers self keys rate now model est exclude ->
  exists entry : APIKeyEntry,
    survivor keys rate now model est exclude kh entry
    /\ em = email entry /\ pv = api_key_preview entry
    /\ forall (kh' : string) (entry' : APIKeyEntry),
         survivor keys rate now model est exclude kh' entry' ->
         pyfloat.leb (candidate_score self rate now model kh' entry')
                     (candidate_score self rate now model kh entry) = true
         /\ (pyfloat.eqb (candidate_score self rate now model kh' entry')
                         (candidate_score self rate now model kh entry) = true ->
             String.leb kh' kh = true).
Proof.
  intros H Hnum.
  apply select_Selected in H as (_ & Hem & best & rest & Hs & <-).
  simpl in Hs, Hem.
  assert (forall y,
            y ∈ score_keys self rate now model est
                  (eligible_keys (get_active_keys keys) model exclude) ->
            pyfloat.is_nan y.1 = false) as Hnum'.
  { intros [s k] Hy. apply survivor_scored in Hy as (e & Hsv & ->).
    by destruct (Hnum k e Hsv). }
  pose proof (sort_reverse_first_elem _ _ _ Hs) as Hin.
  pose proof (sort_reverse_first _ _ _ Hnum' Hs) as Hmax.
  destruct best as [s kh]. simpl in *.
  pose proof Hin as Hin'.
  apply survivor_scored in Hin' as (entry & Hsv & ->).
  apply score_keys_spec in Hin as (entry0 & Hel & _ & Hs0).
  assert (entry0 = entry) as ->.
  { apply eligible_keys_spec in Hel as (Hact & _).
    apply get_active_keys_spec in Hact as [Hk _].
    destruct Hsv as (Hk' & _). congruence. }
  exists entry. split; [done|].
  destruct (Hem _ Hel) as [-> ->]. split; [done|]. split; [done|].
  intros kh' entry' Hsv'.
  assert ((candidate_score self rate now model kh' entry', kh')
            ∈ score_keys self rate now model est
                (eligible_keys (get_active_keys keys) model exclude)) as Hin'.
  { apply survivor_scored. eauto. }
  apply Hmax in Hin'. apply tuple_lt_false in Hin'; simpl; [done| |].
  - by apply (Hnum kh entry).
  - by apply (Hnum kh' entry').
Qed.

End router_properties.

(* ===================================================================== *)
(** * Properties of the fallback loop *)
(* ===================================================================== *)

Section fallback_properties.
Import constants.
Import rate_limiter.
Import api_key_service.
Import router_service.
Import chat.
Import runs.

Context (self : RouterService) (request : Request).

(** The ways an iteration can go: the router finds nothing; or it
    selects a pair and then the plaintext key is missing, or the upstream
    returns a result and the block completes, or the upstream answers
    429, or another error status, or the call ends with another
    exception, or it returns a result and a later statement of the block
    raises. *)
Lemma attempt_paths (env : Env) (l : Locals) (r : Redis)
    (s : Step) (a : Attempt) (r' : Redis) :
  attempt self request env l r = (s, a, r') ->
  let n1 := total_attempts l + 1 in
  a_exclude a = failed_pairs l /\ a_blocked a = blocked_models l
  /\ ((a_selection a = AllKeysExhausted /\ a_upstream a = None
       /\ a_calls a = [] /\ r' = r
       /\ s = Break (mkLocals (failed_pairs l) (failed_models l)
                              (blocked_models l) (last_error l) n1))
      \/ exists kh m em pv,
           a_selection a = Selected kh m em pv
           /\ ((kh, m) ∉ failed_pairs l) /\ (m ∉ blocked_models l)
           /\ let excluded := failed_pairs l ∪ {[(kh, m)]} in
              let log := log_request_call kh m false (n1 - 1) in
              ((a_upstream a = None /\ a_calls a = [] /\ r' = r
                /\ s = Continue (mkLocals excluded (failed_models l)
                                   (blocked_models l) (last_error l) n1))
               \/ (exists n,
                     a_upstream a = Some (UpResult n)
                     /\ a_calls a = [record_request_call kh m n;
                                     update_health_call kh true;
                                     log_request_call kh m true (n1 - 1)]
                     /\ r' = run_calls env r (a_calls a)
                     /\ s = Return (mkResult m em n (n1 - 1))
                              (mkLocals (failed_pairs l) (failed_models l)
                                 (blocked_models l) (last_error l) n1))
               \/ (a_upstream a = Some (UpGeminiAPIError 429)
                   /\ a_calls a = [log] /\ r' = r
                   /\ let n := default 0 (failed_models l !! m) + 1 in
                      s = Continue
                            (mkLocals excluded (<[m := n]> (failed_models l))
                               (if n >=? 2 then blocked_models l ∪ {[m]}
                                else blocked_models l)
                               (Some (UpGeminiAPIError 429)) n1))
               \/ (exists status,
                     status <> 429
                     /\ a_upstream a = Some (UpGeminiAPIError status)
                     /\ a_calls a = [update_health_call kh false; log]
                     /\ r' = mkRedis (update_health (keys r) kh false)
                                     (rate r) (plainkeys r)
                     /\ s = Continue (mkLocals excluded (failed_models l)
                                        (blocked_models l)
                                        (Some (UpGeminiAPIError status)) n1))
               \/ (a_upstream a = Some UpException /\ a_calls a = [] /\ r' = r
                   /\ s = Continue (mkLocals excluded (failed_models l)
                                      (blocked_models l) (Some UpException) n1))
               \/ (exists n k,
                     a_upstream a = Some (UpLateException n k)
                     /\ a_calls a = take k [record_request_call kh m n;
                                            update_health_call kh true;
                                            log_request_call kh m true (n1 - 1)]
                     /\ r' = run_calls env r (a_calls a)
                     /\ s = Continue (mkLocals excluded (failed_models l)
                                        (blocked_models l)
                                        (Some (UpLateException n k)) n1)))).
Proof.
  intros H. cbv zeta. unfold attempt in H. cbv zeta in H.
  destruct (select_best_key_and_model self (keys r) (rate r) (now env)
              (Some (preferred_model request)) (estimated_tokens request)
              (if bool_decide (required_caps request <> ∅)
               then Some (required_caps request) else None)
              (Some (failed_pairs l)) (Some (blocked_models l)))
    as [kh m em pv|] eqn:Hsel.
  - apply select_respects_exclusions in Hsel as [Hpair Hmodel].
    destruct (plainkeys r !! kh) as [api_key|].
    + destruct (nonempty api_key).
      * destruct (generate_content env api_key m) as [n|status| |n k].
        -- remember (run_calls env r _) as served eqn:Hserved in H.
           injection H as <- <- <-. split; [done|]. split; [done|]. right.
           exists kh, m, em, pv. do 3 (split; [done|]).
           right. left. exists n. do 2 (split; [done|]). split; [exact Hserved|done].
        -- destruct (Z.eqb_spec status 429) as [Heq|Hne];
             injection H as <- <- <-; (split; [done|]); (split; [done|]);
             right; exists kh, m, em, pv; do 3 (split; [done|]).
           ++ subst status. right. right. left. done.
           ++ right. right. right. left. exists status. done.
        -- injection H as <- <- <-. split; [done|]. split; [done|]. right.
           exists kh, m, em, pv. do 3 (split; [done|]).
           right. right. right. right. left. done.
        -- remember (run_calls env r _) as late eqn:Hlate in H.
           injection H as <- <- <-. split; [done|]. split; [done|]. right.
           exists kh, m, em, pv. do 3 (split; [done|]).
           right. right. right. right. right. exists n, k.
           do 2 (split; [done|]). split; [exact Hlate|done].
      * injection H as <- <- <-. split; [done|]. split; [done|]. right.
        exists kh, m, em, pv. do 3 (split; [done|]). left. done.
    + injection H as <- <- <-. split; [done|]. split; [done|]. right.
      exists kh, m, em, pv. do 3 (split; [done|]). left. done.
  - injection H as <- <- <-. split; [done|]. split; [done|]. left. done.
Qed.

(** Case analysis on the path an iteration took. *)
Ltac attempt_inv H :=
  let kh := fresh "kh" in let m := fresh "m" in
  let em := fresh "em" in let pv := fresh "pv" in
  let Hex := fresh "Hex" in let Hbl := fresh "Hbl" in
  let Hsel := fresh "Hsel" in let Hup := fresh "Hup" in
  let Hcalls := fresh "Hcalls" in let Hr := fresh "Hr" in
  let Hpair := fresh "Hpair" in let Hmodel := fresh "Hmodel" in
  let n := fresh "n" in let status := fresh "status" in
  let Hstatus := fresh "Hstatus" in
  let n' := fresh "n" in let k := fresh "k" in
  apply attempt_paths in H; cbv zeta in H;
  destruct H as
    (Hex & Hbl &
     [(Hsel & Hup & Hcalls & Hr & ->)
     |(kh & m & em & pv & Hsel & Hpair & Hmodel &
       [(Hup & Hcalls & Hr & ->)
       |[(n & Hup & Hcalls & Hr & ->)
        |[(Hup & Hcalls & Hr & ->)
         |[(status & Hstatus & Hup & Hcalls & Hr & ->)
          |[(Hup & Hcalls & Hr & ->)
           |(n' & k & Hup & Hcalls & Hr & ->)]]]]])]);
  cbn [step_locals failed_pairs failed_models blocked_models last_error
       total_attempts].

(** The record of an iteration shows the exclusion sets it was entered
    with, and the pair selected is in neither. *)
Lemma attempt_record (env : Env) (l : Locals) (r : Redis)
    (s : Step) (a : Attempt) (r' : Redis) :
  attempt self request env l r = (s, a, r') ->
  a_exclude a = failed_pairs l /\ a_blocked a = blocked_models l
  /\ forall kh m, selects a kh m ->
       ((kh, m) ∉ failed_pairs l) /\ (m ∉ blocked_models l).
Proof.
  intros H. attempt_inv H; (split; [done|]; split; [done|]);
    intros kh' m' (em' & pv' & Heq); rewrite Hsel in Heq;
    try discriminate; by injection Heq as <- <- _ _.
Qed.

(** The locals only grow over an iteration, and the attempt counter
    goes up by one. *)
Lemma attempt_mono (env : Env) (l : Locals) (r : Redis)
    (s : Step) (a : Attempt) (r' : Redis) :
  attempt self request env l r = (s, a, r') ->
  total_attempts (step_locals s) = total_attempts l + 1
  /\ failed_pairs l ⊆ failed_pairs (step_locals s)
  /\ blocked_models l ⊆ blocked_models (step_locals s)
  /\ forall M, failures_429 l M <= failures_429 (step_locals s) M.
Proof.
  intros H. unfold failures_429.
  attempt_inv H; (split; [done|]);
    (split; [try done; apply union_subseteq_l|]);
    (split; [try done|try done]).
  - destruct (_ >=? 2); [apply union_subseteq_l|done].
  - intros M. destruct (decide (m = M)) as [->|Hne].
    + rewrite lookup_insert_eq. simpl. lia.
    + by rewrite lookup_insert_ne.
Qed.

(** An iteration that continues selected a pair and added it to the
    exclusion set. *)
Lemma attempt_continue (env : Env) (l : Locals) (r : Redis)
    (l1 : Locals) (a : Attempt) (r' : Redis) :
  attempt self request env l r = (Continue l1, a, r') ->
  exists kh m, selects a kh m
    /\ failed_pairs l1 = failed_pairs l ∪ {[(kh, m)]}.
Proof.
  intros H. apply attempt_paths in H. cbv zeta in H.
  destruct H as
    (_ & _ &
     [(_ & _ & _ & _ & Hs)
     |(kh & m & em & pv & Hsel & _ & _ &
       [(_ & _ & _ & Hs)
       |[(n & _ & _ & _ & Hs)
        |[(_ & _ & _ & Hs)
         |[(status & _ & _ & _ & _ & Hs)
          |[(_ & _ & _ & Hs)
           |(n' & k & _ & _ & _ & Hs)]]]]])]);
    try discriminate Hs; injection Hs as ->;
    exists kh, m; (split; [by exists em, pv|done]).
Qed.

(** An iteration that selected a pair either got a result from the
    upstream and returns, or continues. *)
Lemma attempt_selected (env : Env) (l : Locals) (r : Redis)
    (s : Step) (a : Attempt) (r' : Redis) (kh m : string) :
  attempt self request env l r = (s, a, r') ->
  selects a kh m ->
  (exists n res l1, s = Return res l1 /\ a_upstream a = Some (UpResult n))
  \/ (exists l1, s = Continue l1
        /\ failed_pairs l1 = failed_pairs l ∪ {[(kh, m)]}).
Proof.
  intros H (em' & pv' & Heq).
  attempt_inv H; rewrite Hsel in Heq; try discriminate;
    injection Heq as <- <- _ _; eauto 6.
Qed.

(** A 429 answer: the model's counter goes up by one, the model is
    blocked once the counter is 2, no [update_health] call is made, and
    the database is as before. *)
Lemma attempt_429 (env : Env) (l : Locals) (r : Redis)
    (s : Step) (a : Attempt) (r' : Redis) (M : string) :
  attempt self request env l r = (s, a, r') ->
  fails_429 a M ->
  failures_429 (step_locals s) M = failures_429 l M + 1
  /\ (2 <= failures_429 (step_locals s) M -> M ∈ blocked_models (step_locals s))
  /\ (exists kh n, a_calls a = [log_request_call kh M false n])
  /\ r' = r.
Proof.
  intros H (kh' & em' & pv' & Heq & Hup'). unfold failures_429.
  attempt_inv H; rewrite Hsel in Heq; rewrite Hup in Hup'; try discriminate;
    injection Heq as <- <- _ _.
  - rewrite lookup_insert_eq. simpl. split; [done|].
    split; [|split; [eauto|done]].
    intros Hge. destruct (Z.geb_spec (default 0 (failed_models l !! m) + 1) 2);
      [|lia].
    apply elem_of_union_r. by apply elem_of_singleton.
  - by injection Hup' as ->.
Qed.

(** A transport or unknown error: the pair is excluded, the error kept
    as [last_error]; no service call is made and the database is as
    before. *)
Lemma attempt_exception (env : Env) (l : Locals) (r : Redis)
    (s : Step) (a : Attempt) (r' : Redis) (kh m : string) :
  attempt self request env l r = (s, a, r') ->
  selects a kh m ->
  a_upstream a = Some UpException ->
  s = Continue (mkLocals (failed_pairs l ∪ {[(kh, m)]}) (failed_models l)
                         (blocked_models l) (Some UpException)
                         (total_attempts l + 1))
  /\ a_calls a = [] /\ r' = r.
Proof.
  intros H (em' & pv' & Heq) Hup'.
  attempt_inv H; rewrite Hsel in Heq; rewrite Hup in Hup'; try discriminate;
    by injection Heq as <- <- _ _.
Qed.

(** The [except Exception] branch, whichever statement raised. *)
Lemma attempt_other_exception (env : Env) (l : Locals) (r : Redis)
    (s : Step) (a : Attempt) (r' : Redis) (kh m : string) :
  attempt self request env l r = (s, a, r') ->
  selects a kh m ->
  other_exception (a_upstream a) ->
  s = Continue (mkLocals (failed_pairs l ∪ {[(kh, m)]}) (failed_models l)
                         (blocked_models l) (a_upstream a)
                         (total_attempts l + 1))
  /\ (exists n k,
        a_calls a = take k [record_request_call kh m n;
                            update_health_call kh true;
                            log_request_call kh m true (total_attempts l)])
  /\ (a_upstream a = Some UpException -> a_calls a = [])
  /\ r' = run_calls env r (a_calls a).
Proof.
  intros H (em' & pv' & Heq) Hexc.
  attempt_inv H; rewrite Hsel in Heq; rewrite Hup in Hexc |- *;
    destruct Hexc as [Hexc|(? & ? & Hexc)]; try discriminate;
    injection Heq as <- <- _ _.
  - split; [done|]. split; [by exists 0, 0%nat; rewrite Hcalls|].
    split; [done|]. by rewrite Hcalls.
  - split; [done|]. rewrite Z.add_simpl_r in Hcalls.
    split; [by eexists _, _|]. split; [done|]. exact Hr.
Qed.

(** ** The loop *)

(** Enough fuel: the loop ends. *)
Lemma fallback_loop_total (fuel : nat) (envs : nat -> Env) (l : Locals) (r : Redis) :
  (Z.to_nat (max_attempts - total_attempts l) < fuel)%nat ->
  is_Some (fallback_loop fuel self request envs l r).
Proof.
  revert l r. induction fuel as [|fuel IH]; intros l r Hfuel; [lia|].
  simpl. destruct (Z.ltb_spec (total_attempts l) max_attempts) as [Hlt|Hge];
    [|eauto].
  destruct (attempt self request _ l _) as [[s a] r1] eqn:Hatt.
  destruct s as [l1| |]; eauto.
  pose proof (attempt_mono _ _ _ _ _ _ Hatt) as [Htot _]. simpl in Htot.
  destruct (IH l1 r1) as [[[[out l'] t] r'] Hres]; [lia|].
  rewrite Hres. eauto.
Qed.

(** The records of a run of the loop are those of consecutive
    iterations. *)
Lemma fallback_loop_run (fuel : nat) (envs : nat -> Env) (l : Locals) (r : Redis)
    (out : Outcome) (l' : Locals) (t : list Attempt) (r' : Redis) :
  fallback_loop fuel self request envs l r = Some (out, l', t, r') ->
  run_from self request l t l'.
Proof.
  revert l r t. induction fuel as [|fuel IH]; intros l r t; [done|].
  simpl. destruct (total_attempts l <? max_attempts).
  - destruct (attempt self request _ l _) as [[s a] r1] eqn:Hatt.
    destruct s as [l1|l1|res l1].
    + destruct (fallback_loop fuel self request envs l1 r1)
        as [[[[out1 l1'] t1] r1']|] eqn:Hrec; [|done].
      intros [= <- <- <- <-]. eapply run_next; eauto.
    + intros [= <- <- <- <-]. by eapply (run_last _ _ _ _ _ (Break l1)).
    + intros [= <- <- <- <-]. by eapply (run_last _ _ _ _ _ (Return res l1)).
  - intros [= <- <- <- <-]. constructor.
Qed.

(** The attempt counter counts the iterations and stays within
    [max_attempts]. *)
Lemma fallback_loop_attempts (fuel : nat) (envs : nat -> Env) (l : Locals)
    (r : Redis) (out : Outcome) (l' : Locals) (t : list Attempt) (r' : Redis) :
  fallback_loop fuel self request envs l r = Some (out, l', t, r') ->
  total_attempts l' = total_attempts l + Z.of_nat (length t)
  /\ (total_attempts l <= max_attempts -> total_attempts l' <= max_attempts).
Proof.
  revert l r t. induction fuel as [|fuel IH]; intros l r t; [done|].
  simpl. destruct (Z.ltb_spec (total_attempts l) max_attempts) as [Hlt|Hge].
  - destruct (attempt self request _ l _) as [[s a] r1] eqn:Hatt.
    pose proof (attempt_mono _ _ _ _ _ _ Hatt) as [Htot _].
    destruct s as [l1|l1|res l1]; simpl in Htot.
    + destruct (fallback_loop fuel self request envs l1 r1)
        as [[[[out1 l1'] t1] r1']|] eqn:Hrec; [|done].
      intros [= <- <- <- <-]. apply IH in Hrec as [Hlen Hmax].
      simpl length. lia.
    + intros [= <- <- <- <-]. simpl length. lia.
    + intros [= <- <- <- <-]. simpl length. lia.
  - intros [= <- <- <- <-]. simpl length. lia.
Qed.

(** Over consecutive iterations the exclusion sets and the 429 counters
    only grow. *)
Lemma run_mono (l : Locals) (t : list Attempt) (l' : Locals) :
  run_from self request l t l' ->
  failed_pairs l ⊆ failed_pairs l'
  /\ blocked_models l ⊆ blocked_models l'
  /\ forall M, failures_429 l M <= failures_429 l' M.
Proof.
  induction 1 as [l|l env r s a r' Hatt|l env r l1 a r' t l' Hatt Hrun IH].
  - done.
  - apply attempt_mono in Hatt. tauto.
  - apply attempt_mono in Hatt as (_ & Hp & Hb & Hc). simpl in *.
    destruct IH as (IHp & IHb & IHc).
    split; [by etrans|]. split; [by etrans|].
    intros M. specialize (Hc M). specialize (IHc M). lia.
Qed.

(** Every record of a run lies between the locals at entry and those at
    exit, and its selection respects its own exclusion sets. *)
Lemma run_each (l : Locals) (t : list Attempt) (l' : Locals) :
  run_from self request l t l' ->
  forall (i : nat) (a : Attempt), t !! i = Some a ->
    failed_pairs l ⊆ a_exclude a /\ a_exclude a ⊆ failed_pairs l'
    /\ blocked_models l ⊆ a_blocked a /\ a_blocked a ⊆ blocked_models l'
    /\ forall kh m, selects a kh m ->
         ((kh, m) ∉ a_exclude a) /\ (m ∉ a_blocked a).
Proof.
  induction 1 as [l|l env r s a r' Hatt|l env r l1 a r' t l' Hatt Hrun IH];
    intros i b Hi.
  - done.
  - destruct i; [|done]. injection Hi as <-.
    pose proof (attempt_record _ _ _ _ _ _ Hatt) as (-> & -> & Hsel).
    apply attempt_mono in Hatt as (_ & ? & ? & _). done.
  - pose proof (attempt_mono _ _ _ _ _ _ Hatt) as (_ & Hp & Hb & _).
    simpl in Hp, Hb.
    pose proof (run_mono _ _ _ Hrun) as (Hp' & Hb' & _).
    destruct i as [|i].
    + injection Hi as <-.
      pose proof (attempt_record _ _ _ _ _ _ Hatt) as (-> & -> & Hsel).
      split; [done|]. split; [by etrans|]. split; [done|].
      split; [by etrans|done].
    + destruct (IH i b Hi) as (? & ? & ? & ? & ?).
      split; [by etrans|]. split; [done|]. split; [by etrans|]. done.
Qed.

(** Of two records of a run, the later has the larger exclusion sets,
    and they hold the pair the earlier iteration selected. *)
Lemma run_pairs (l : Locals) (t : list Attempt) (l' : Locals) :
  run_from self request l t l' ->
  forall (i j : nat) (a b : Attempt),
    (i < j)%nat -> t !! i = Some a -> t !! j = Some b ->
    a_exclude a ⊆ a_exclude b /\ a_blocked a ⊆ a_blocked b
    /\ forall kh m, selects a kh m -> (kh, m) ∈ a_exclude b.
Proof.
  induction 1 as [l|l env r s a r' Hatt|l env r l1 a r' t l' Hatt Hrun IH];
    intros i j x y Hij Hi Hj.
  - done.
  - destruct j; [lia|done].
  - destruct j as [|j]; [lia|]. simpl in Hj.
    destruct i as [|i].
    + injection Hi as <-.
      pose proof (attempt_record _ _ _ _ _ _ Hatt) as (Hex & Hbl & Hsel).
      pose proof (attempt_mono _ _ _ _ _ _ Hatt) as (_ & Hp & Hb & _).
      simpl in Hp, Hb.
      destruct (run_each _ _ _ Hrun j y Hj) as (Hp' & _ & Hb' & _).
      rewrite Hex, Hbl. split; [by etrans|]. split; [by etrans|].
      intros kh m (em & pv & Hs).
      apply attempt_continue in Hatt as (kh' & m' & (em' & pv' & Hs') & Hfp).
      rewrite Hs in Hs'. injection Hs' as <- <- _ _.
      apply Hp'. rewrite Hfp. apply elem_of_union_r. by apply elem_of_singleton.
    + simpl in Hi. apply (IH i j); [lia|done|done].
Qed.

(** Every record of a run comes from an iteration of the loop body. *)
Lemma run_attempt (l : Locals) (t : list Attempt) (l' : Locals) :
  run_from self request l t l' ->
  forall (i : nat) (a : Attempt), t !! i = Some a ->
    exists env l0 r s r', attempt self request env l0 r = (s, a, r').
Proof.
  induction 1 as [l|l env r s a r' Hatt|l env r l1 a r' t l' Hatt Hrun IH];
    intros i b Hi.
  - done.
  - destruct i; [|done]. injection Hi as <-. eauto 6.
  - destruct i as [|i]; [injection Hi as <-; eauto 6|]. by apply (IH i).
Qed.

(** An iteration that selected a pair and did not get a result from the
    upstream left the pair in the exclusion set. *)
Lemma run_failed_added (l : Locals) (t : list Attempt) (l' : Locals) :
  run_from self request l t l' ->
  forall (i : nat) (a : Attempt) (kh m : string),
    t !! i = Some a -> selects a kh m ->
    (exists n, a_upstream a = Some (UpResult n)) \/ (kh, m) ∈ failed_pairs l'.
Proof.
  induction 1 as [l|l env r s a r' Hatt|l env r l1 a r' t l' Hatt Hrun IH];
    intros i b kh m Hi Hsel.
  - done.
  - destruct i; [|done]. injection Hi as <-.
    destruct (attempt_selected _ _ _ _ _ _ _ _ Hatt Hsel)
      as [(n & res & l1 & -> & Hup)|(l1 & -> & Hfp)]; [eauto|].
    right. simpl. rewrite Hfp. apply elem_of_union_r. by apply elem_of_singleton.
  - destruct i as [|i]; [|by apply (IH i b)].
    injection Hi as <-. right.
    destruct (attempt_selected _ _ _ _ _ _ _ _ Hatt Hsel)
      as [(n & res & l2 & Hs & Hup)|(l2 & Hs & Hfp)]; [done|].
    injection Hs as <-.
    apply run_mono in Hrun as (Hp & _). apply Hp. rewrite Hfp.
    apply elem_of_union_r. by apply elem_of_singleton.
Qed.

(** A 429 on a model that already counted one: from then on the model
    is blocked. *)
Lemma run_second_429 (l : Locals) (t : list Attempt) (l' : Locals) :
  run_from self request l t l' ->
  forall (i : nat) (a : Attempt) (M : string),
    t !! i = Some a -> fails_429 a M -> 1 <= failures_429 l M ->
    M ∈ blocked_models l'
    /\ forall (j : nat) (b : Attempt),
         (i < j)%nat -> t !! j = Some b -> M ∈ a_blocked b.
Proof.
  induction 1 as [l|l env r s a r' Hatt|l env r l1 a r' t l' Hatt Hrun IH];
    intros i x M Hi H429 Hcount.
  - done.
  - destruct i; [|done]. injection Hi as <-.
    destruct (attempt_429 _ _ _ _ _ _ _ Hatt H429) as (Hc & Hb & _).
    split; [apply Hb; lia|]. intros [|j] b Hij Hj; [lia|done].
  - destruct i as [|i].
    + injection Hi as <-.
      destruct (attempt_429 _ _ _ _ _ _ _ Hatt H429) as (Hc & Hb & _).
      simpl in Hc, Hb.
      assert (M ∈ blocked_models l1) as HM by (apply Hb; lia).
      split; [by apply (run_mono _ _ _ Hrun)|].
      intros [|j] b Hij Hj; [lia|]. simpl in Hj.
      by apply (run_each _ _ _ Hrun j b Hj).
    + apply attempt_mono in Hatt as (_ & _ & _ & Hc). simpl in Hc.
      specialize (Hc M).
      destruct (IH i x M Hi H429) as [HM Hlater]; [lia|].
      split; [done|]. intros [|j] b Hij Hj; [lia|].
      apply (Hlater j b); [lia|done].
Qed.

(** Two 429 answers on the same model: from the second on the model is
    blocked. *)
Lemma run_two_429 (l : Locals) (t : list Attempt) (l' : Locals) :
  run_from self request l t l' ->
  (forall M, 0 <= failures_429 l M) ->
  forall (i j : nat) (a b : Attempt) (M : string),
    (i < j)%nat -> t !! i = Some a -> t !! j = Some b ->
    fails_429 a M -> fails_429 b M ->
    M ∈ blocked_models l'
    /\ forall (k : nat) (c : Attempt),
         (j < k)%nat -> t !! k = Some c -> M ∈ a_blocked c.
Proof.
  induction 1 as [l|l env r s a r' Hatt|l env r l1 a r' t l' Hatt Hrun IH];
    intros Hnn i j x y M Hij Hi Hj Hx Hy.
  - done.
  - destruct j; [lia|done].
  - destruct j as [|j]; [lia|]. simpl in Hj. destruct i as [|i].
    + injection Hi as <-.
      destruct (attempt_429 _ _ _ _ _ _ _ Hatt Hx) as (Hc & _).
      simpl in Hc. specialize (Hnn M).
      destruct (run_second_429 _ _ _ Hrun j y M Hj Hy) as [HM Hlater]; [lia|].
      split; [done|]. intros [|k] c Hjk Hk; [lia|].
      apply (Hlater k c); [lia|done].
    + apply attempt_mono in Hatt as (_ & _ & _ & Hc). simpl in Hc.
      destruct (IH (fun M => Z.le_trans _ _ _ (Hnn M) (Hc M)) i j x y M)
        as [HM Hlater]; [lia|done..|].
      split; [done|]. intros [|k] c Hjk Hk; [lia|].
      apply (Hlater k c); [lia|done].
Qed.

(** C2.  Every run of the fallback loop ends, after at most 20
    iterations, and the attempt counter is their number.  The exclusion
    set only grows: each iteration's set is within every later one and
    within the final one; an iteration that selected a pair and got no
    result from the upstream leaves the pair in the exclusion set; the
    router never returns a pair of the set it is given, so no pair is
    selected by two iterations of a run. *)
Theorem attempts_bounded_and_pairs_never_repeat (envs : nat -> Env) (r : Redis) :
  exists (out : Outcome) (l : Locals) (t : list Attempt) (r' : Redis),
    _generate_with_fallback self request envs r = Some (out, l, t, r')
    /\ (length t <= 20)%nat
    /\ total_attempts l = Z.of_nat (length t)
    /\ (forall (i : nat) (a : Attempt), t !! i = Some a ->
          a_exclude a ⊆ failed_pairs l
          /\ forall kh m, selects a kh m ->
               ((kh, m) ∉ a_exclude a)
               /\ ((exists n, a_upstream a = Some (UpResult n))
                   \/ (kh, m) ∈ failed_pairs l))
    /\ (forall (i j : nat) (a b : Attempt),
          (i < j)%nat -> t !! i = Some a -> t !! j = Some b ->
          a_exclude a ⊆ a_exclude b
          /\ forall kh m, selects a kh m ->
               (kh, m) ∈ a_exclude b /\ ~ selects b kh m).
Proof.
  unfold _generate_with_fallback.
  destruct (fallback_loop_total (S (Z.to_nat max_attempts)) envs init_locals r)
    as [[[[out l] t] r'] Hrun].
  { simpl. unfold max_attempts. lia. }
  exists out, l, t, r'. split; [done|].
  pose proof (fallback_loop_attempts _ _ _ _ _ _ _ _ Hrun) as [Hlen Hmax].
  pose proof (fallback_loop_run _ _ _ _ _ _ _ _ Hrun) as Hfrom.
  simpl in Hlen, Hmax. unfold max_attempts in Hmax.
  split; [lia|]. split; [lia|]. split.
  - intros i a Hi.
    destruct (run_each _ _ _ Hfrom i a Hi) as (_ & Hsub & _ & _ & Hsel).
    split; [done|]. intros kh m Hs. split; [by apply (Hsel kh m)|].
    by apply (run_failed_added _ _ _ Hfrom i a).
  - intros i j a b Hij Hi Hj.
    destruct (run_pairs _ _ _ Hfrom i j a b Hij Hi Hj) as (Hsub & _ & Hin).
    split; [done|]. intros kh m Hs. split; [by apply Hin|].
    intros Hb.
    destruct (run_each _ _ _ Hfrom j b Hj) as (_ & _ & _ & _ & Hsel).
    destruct (Hsel kh m Hb) as [Hnot _]. apply Hnot. by apply Hin.
Qed.

(** C1.  In a run of the fallback loop, when two iterations fail with
    upstream status 429 on the same model M (they are then on distinct
    credentials), M is in the blocked-model set at the end of the run
    and in the set given to the router by every later iteration, and no
    later iteration selects M.  An iteration that fails with status 429
    calls [log_request] and nothing else: [update_health] is not
    called, and the loop body leaves the database, every credential
    record included, as it found it. *)
Theorem model_blocked_after_two_429
    (envs : nat -> Env) (r : Redis)
    (out : Outcome) (l : Locals) (t : list Attempt) (r' : Redis)
    (i j : nat) (a b : Attempt) (M : string) :
  _generate_with_fallback self request envs r = Some (out, l, t, r') ->
  (i < j)%nat -> t !! i = Some a -> t !! j = Some b ->
  fails_429 a M -> fails_429 b M ->
  (forall kh, selects a kh M -> ~ selects b kh M)
  /\ M ∈ blocked_models l
  /\ (forall (k : nat) (c : Attempt), (j < k)%nat -> t !! k = Some c ->
        M ∈ a_blocked c /\ forall kh, ~ selects c kh M)
  /\ (forall (k : nat) (c : Attempt) (M' : string),
        t !! k = Some c -> fails_429 c M' ->
        forall kh success, update_health_call kh success ∉ a_calls c)
  /\ (forall (env : Env) (l0 : Locals) (r0 : Redis) (s : Step) (c : Attempt)
             (r1 : Redis) (M' : string),
        attempt self request env l0 r0 = (s, c, r1) -> fails_429 c M' ->
        r1 = r0
        /\ get_key (keys r1) = get_key (keys r0)
        /\ exists kh n, a_calls c = [log_request_call kh M' false n]).
Proof.
  unfold _generate_with_fallback. intros Hrun Hij Hi Hj Ha Hb.
  pose proof (fallback_loop_run _ _ _ _ _ _ _ _ Hrun) as Hfrom.
  assert (forall M', 0 <= failures_429 init_locals M') as Hinit.
  { intros M'. unfold failures_429. simpl. by rewrite lookup_empty. }
  pose proof (run_two_429 _ _ _ Hfrom Hinit i j a b M Hij Hi Hj Ha Hb)
    as [HM Hlater].
  split; [|split; [|split; [|split]]].
  - intros kh Hsa.
    destruct (run_pairs _ _ _ Hfrom i j a b Hij Hi Hj) as (_ & _ & Hin).
    destruct (run_each _ _ _ Hfrom j b Hj) as (_ & _ & _ & _ & Hsel).
    intros Hsb. destruct (Hsel kh M Hsb) as [Hnot _]. apply Hnot. by apply Hin.
  - done.
  - intros k c Hjk Hk. split; [by apply (Hlater k c)|]. intros kh Hsc.
    destruct (run_each _ _ _ Hfrom k c Hk) as (_ & _ & _ & _ & Hsel).
    destruct (Hsel kh M Hsc) as [_ Hnot]. apply Hnot. by apply (Hlater k c).
  - intros k c M' Hk Hc kh success.
    destruct (run_attempt _ _ _ Hfrom k c Hk) as (env & l0 & r0 & s & r1 & Hatt).
    destruct (attempt_429 _ _ _ _ _ _ _ Hatt Hc) as (_ & _ & (kh' & n & ->) & _).
    intros Hin%list_elem_of_singleton. discriminate Hin.
  - intros env l0 r0 s c r1 M' Hatt Hc.
    destruct (attempt_429 _ _ _ _ _ _ _ Hatt Hc) as (_ & _ & Hcalls & ->).
    done.
Qed.

(** C4, as amended.  When the [try] block of an iteration ends with a
    transport or unknown error (an exception that is not a
    [GeminiAPIError], raised before the upstream call returned or by a
    later statement of the block), the iteration adds the selected pair
    to the exclusion set, keeps the error as the last error, counts the
    attempt and continues, and it records no failure against any
    credential: [update_health(key_hash, success=False)] is not among
    its calls.  The calls it made are those of the success path that had
    completed when the exception was raised, none when the upstream call
    itself raised, and the database is the one they leave. *)
Theorem transport_error_only_excludes
    (env : Env) (l : Locals) (r : Redis)
    (s : Step) (a : Attempt) (r' : Redis) (kh m : string) :
  attempt self request env l r = (s, a, r') ->
  selects a kh m ->
  other_exception (a_upstream a) ->
  s = Continue (mkLocals (failed_pairs l ∪ {[(kh, m)]}) (failed_models l)
                         (blocked_models l) (a_upstream a)
                         (total_attempts l + 1))
  /\ (kh, m) ∈ failed_pairs (step_locals s)
  /\ (forall kh', update_health_call kh' false ∉ a_calls a)
  /\ (exists total_tokens,
        a_calls a `prefix_of`
          [record_request_call kh m total_tokens;
           update_health_call kh true;
           log_request_call kh m true (total_attempts l)])
  /\ (a_upstream a = Some UpException -> a_calls a = [])
  /\ r' = run_calls env r (a_calls a).
Proof.
  intros Hatt Hsel Hexc.
  destruct (attempt_other_exception _ _ _ _ _ _ _ _ Hatt Hsel Hexc)
    as (-> & (n & k & Hcalls) & Hnone & ->).
  split; [done|]. split; [simpl; set_solver|].
  split; [|split; [|done]].
  - intros kh' Hin. rewrite Hcalls in Hin.
    apply (subseteq_take k) in Hin.
    rewrite !elem_of_cons, elem_of_nil in Hin.
    by destruct Hin as [Hin|[Hin|[Hin|[]]]].
  - exists n. rewrite Hcalls. apply prefix_take.
Qed.

End fallback_properties.

(* ===================================================================== *)
(** * The properties at concrete inputs *)
(* ===================================================================== *)

Section concrete.
Import constants.
Import rate_limiter.
Import api_key_service.
Import router_service.
Import chat.
Import props.
Import runs.
Import scenario.

(** The router on the two equal credentials: it returns ["bbb"]. *)
Example select_two_equal_keys :
  select_best_key_and_model default_router two_keys ∅ clock
    (Some GEMINI_25_PRO) 100 None (Some ∅) (Some ∅)
  = Selected "bbb" GEMINI_25_PRO "dev@example.com" "...k3y001".
Proof. vm_compute. reflexivity. Qed.

Lemma survivor_two_keys (kh : string) :
  kh = "aaa" \/ kh = "bbb" ->
  survivor two_keys ∅ clock GEMINI_25_PRO 100 ∅ kh entry0.
Proof.
  intros [-> | ->]; unfold survivor;
    (split; [vm_compute; reflexivity|]); (split; [reflexivity|]);
    (split; [by left|]); (split; [apply not_elem_of_empty|]);
    vm_compute; reflexivity.
Qed.

(** C3, counterexample.  With two credentials ["aaa"] and ["bbb"] of
    equal health and usage, hence equal scores, the router returns
    ["bbb"], which is not the lexicographically first handle. *)
Lemma ties_do_not_go_to_first_handle :
  select_best_key_and_model default_router two_keys ∅ clock
    (Some GEMINI_25_PRO) 100 None (Some ∅) (Some ∅)
  = Selected "bbb" GEMINI_25_PRO "dev@example.com" "...k3y001"
  /\ candidate_score default_router ∅ clock GEMINI_25_PRO "aaa" entry0
     = candidate_score default_router ∅ clock GEMINI_25_PRO "bbb" entry0
  /\ String.ltb "aaa" "bbb" = true
  /\ ~ ties_go_to_first_handle.
Proof.
  split; [exact select_two_equal_keys|].
  split; [vm_compute; reflexivity|].
  split; [reflexivity|].
  intros Hclaim.
  pose proof (Hclaim default_router two_keys ∅ clock (Some GEMINI_25_PRO) 100
                None ∅ ∅ "bbb" GEMINI_25_PRO "dev@example.com" "...k3y001"
                select_two_equal_keys entry0 "aaa" entry0
                (survivor_two_keys "bbb" (or_intror eq_refl))
                (survivor_two_keys "aaa" (or_introl eq_refl))) as Hleb.
  assert (String.leb "bbb" "aaa" = true) as Habs.
  { apply Hleb. vm_compute. reflexivity. }
  vm_compute in Habs. discriminate Habs.
Qed.

(** With unequal load the less loaded credential wins, whatever its
    handle. *)
Example select_less_loaded_key :
  select_best_key_and_model default_router two_keys uneven_load clock
    (Some GEMINI_25_FLASH) 100 None (Some ∅) (Some ∅)
  = Selected "aaa" GEMINI_25_FLASH "dev@example.com" "...k3y001".
Proof. vm_compute. reflexivity. Qed.

(** The daily counter across the date change of the quota zone: blocked
    one second before, admitted at the change. *)
Example check_across_the_date_change :
  _today_pacific (clock - Qc_of_Z 1)%Qc = "2025-12-31"
  /\ _today_pacific clock = "2026-01-01"
  /\ check_rate_limit yesterday_full (clock - Qc_of_Z 1)%Qc "aaa" GEMINI_25_FLASH 100
     = (false, Some (RpdReached 1500))
  /\ check_rate_limit yesterday_full clock "aaa" GEMINI_25_FLASH 100 = (true, None).
Proof. vm_compute. repeat split; reflexivity. Qed.

(** Close scores are not a tie.  Credential ["aaa"] has health 95 and
    used 4 of 100 requests of the day, credential ["bbb"] health 100 and
    14 of 100: in exact arithmetic both scores are 97.2, the floats the
    router computes are 97.2 and 97.19999999999999, and the router
    returns ["aaa"]. *)
Example select_close_scores :
  candidate_score default_router close_load clock GEMINI_25_PRO "aaa" entry95
  = S754_finite false 6839841934068941 (-46)
  /\ candidate_score default_router close_load clock GEMINI_25_PRO "bbb" entry100
     = S754_finite false 6839841934068940 (-46)
  /\ select_best_key_and_model default_router close_keys close_load clock
       (Some GEMINI_25_PRO) 100 None (Some ∅) (Some ∅)
     = Selected "aaa" GEMINI_25_PRO "dev@example.com" "...k3y095".
Proof. vm_compute. repeat split; reflexivity. Qed.

Lemma two_keys_survivor_inv (kh : string) (entry : APIKeyEntry) :
  survivor two_keys ∅ clock GEMINI_25_PRO 100 ∅ kh entry ->
  (kh = "aaa" \/ kh = "bbb") /\ entry = entry0.
Proof.
  intros (Hk & _). unfold two_keys in Hk. cbn [apikeys] in Hk.
  apply lookup_insert_Some in Hk as [[<- <-]|[_ Hk]]; [by split; [left|]|].
  apply lookup_insert_Some in Hk as [[<- <-]|[_ Hk]]; [by split; [right|]|].
  by rewrite lookup_empty in Hk.
Qed.

(** C3, witness: the two equal credentials. *)
Lemma ties_go_to_last_handle_witness :
  exists entry : APIKeyEntry,
    survivor two_keys ∅ clock GEMINI_25_PRO 100 ∅ "bbb" entry
    /\ "dev@example.com" = email entry /\ "...k3y001" = api_key_preview entry
    /\ forall (kh' : string) (entry' : APIKeyEntry),
         survivor two_keys ∅ clock GEMINI_25_PRO 100 ∅ kh' entry' ->
         pyfloat.leb
           (candidate_score default_router ∅ clock GEMINI_25_PRO kh' entry')
           (candidate_score default_router ∅ clock GEMINI_25_PRO "bbb" entry)
         = true
         /\ (pyfloat.eqb
               (candidate_score default_router ∅ clock GEMINI_25_PRO kh' entry')
               (candidate_score default_router ∅ clock GEMINI_25_PRO "bbb" entry)
             = true ->
             String.leb kh' "bbb" = true).
Proof.
  apply (ties_go_to_last_handle default_router two_keys ∅ clock
           (Some GEMINI_25_PRO) 100 None ∅ ∅).
  - vm_compute. reflexivity.
  - intros kh entry Hsv.
    apply two_keys_survivor_inv in Hsv as [[-> | ->] ->];
      (split; [repeat split; vm_compute; discriminate|vm_compute; reflexivity]).
Defined.

(** The run against the upstream that answers 429 on [gemini-2.5-pro]:
    two failures on that model, then [gemini-2.5-flash] serves. *)
Example run0_result :
  run0 = Some (outcome0, locals0, trace0, redis0_after)
  /\ trace0 !! 0%nat = Some first_429
  /\ trace0 !! 1%nat = Some second_429
  /\ outcome0 = Served (mkResult GEMINI_25_FLASH "dev@example.com" 150 2).
Proof. vm_compute. repeat split; reflexivity. Qed.

(** C1, witness: the run above. *)
Lemma model_blocked_after_two_429_witness :
  GEMINI_25_PRO ∈ blocked_models locals0
  /\ forall (k : nat) (c : Attempt), (1 < k)%nat -> trace0 !! k = Some c ->
       GEMINI_25_PRO ∈ a_blocked c /\ forall kh, ~ selects c kh GEMINI_25_PRO.
Proof.
  destruct run0_result as (Hrun & Ha & Hb & _).
  destruct (model_blocked_after_two_429 default_router request0 envs_pro_out
              redis0 outcome0 locals0 trace0 redis0_after 0%nat 1%nat
              first_429 second_429 GEMINI_25_PRO Hrun)
    as (_ & HM & Hlater & _).
  - lia.
  - exact Ha.
  - exact Hb.
  - eexists _, _, _. split; reflexivity.
  - eexists _, _, _. split; reflexivity.
  - split; [exact HM|exact Hlater].
Defined.

Lemma failed_transport_eq :
  attempt default_router request0 env_no_transport init_locals redis0
  = (failed_transport.1.1, failed_transport.1.2, failed_transport.2).
Proof. unfold failed_transport. by destruct (attempt _ _ _ _ _) as [[? ?] ?]. Qed.

Lemma failed_transport_record :
  selects (failed_transport.1.2) "bbb" GEMINI_25_PRO
  /\ a_upstream (failed_transport.1.2) = Some UpException.
Proof. split; [eexists _, _|]; vm_compute; reflexivity. Qed.

(** C4, counterexample.  Credential ["bbb"], of health 100, is selected
    and the connection to the upstream fails: the pair is excluded, but
    the iteration makes no call, so [update_health] is not among its
    calls, and the stored credential is as before, health 100 and no
    consecutive error. *)
Lemma transport_error_is_not_penalised :
  selects (failed_transport.1.2) "bbb" GEMINI_25_PRO
  /\ a_upstream (failed_transport.1.2) = Some UpException
  /\ a_calls (failed_transport.1.2) = []
  /\ get_key (keys (failed_transport.2)) "bbb" = Some entry0
  /\ ~ transport_error_penalises.
Proof.
  destruct failed_transport_record as [Hsel Hup].
  assert (a_calls (failed_transport.1.2) = []) as Hnone
    by (vm_compute; reflexivity).
  split; [exact Hsel|]. split; [exact Hup|]. split; [exact Hnone|].
  split; [vm_compute; reflexivity|].
  intros Hclaim.
  destruct (Hclaim default_router request0 env_no_transport init_locals redis0
              _ _ _ "bbb" GEMINI_25_PRO failed_transport_eq Hsel
              (or_introl Hup))
    as (Hcall & _).
  rewrite Hnone in Hcall. by apply elem_of_nil in Hcall.
Qed.

Lemma failed_late_eq :
  attempt default_router request0 env_late_failure init_locals redis0
  = (failed_late.1.1, failed_late.1.2, failed_late.2).
Proof. unfold failed_late. by destruct (attempt _ _ _ _ _) as [[? ?] ?]. Qed.

(** The upstream answers, [record_request] and [update_health(True)]
    take effect, and then the block raises: the iteration has made the
    two calls, the request is in the rate window of the credential, and
    the loop goes on to another pair. *)
Example late_failure_keeps_what_was_written :
  selects (failed_late.1.2) "bbb" GEMINI_25_PRO
  /\ a_upstream (failed_late.1.2) = Some (UpLateException 150 2)
  /\ a_calls (failed_late.1.2)
     = [record_request_call "bbb" GEMINI_25_PRO 150;
        update_health_call "bbb" true]
  /\ rpd_count (hgetall (rate (failed_late.2)) (_rkey "bbb" GEMINI_25_PRO))
     = Some 1
  /\ exists l, failed_late.1.1 = Continue l
       /\ failed_pairs l = {[("bbb", GEMINI_25_PRO)]}.
Proof.
  split; [eexists _, _; vm_compute; reflexivity|].
  split; [vm_compute; reflexivity|]. split; [vm_compute; reflexivity|].
  split; [vm_compute; reflexivity|].
  eexists. split; [vm_compute; reflexivity|]. simpl. set_solver.
Qed.

(** C4, witness: the iteration in which the block raises after the
    upstream answered. *)
Lemma transport_error_only_excludes_witness :
  other_exception (a_upstream (failed_late.1.2))
  /\ (("bbb", GEMINI_25_PRO) ∈ failed_pairs (step_locals (failed_late.1.1)))
  /\ (forall kh', update_health_call kh' false ∉ a_calls (failed_late.1.2)).
Proof.
  destruct late_failure_keeps_what_was_written as (Hsel & Hup & _).
  assert (other_exception (a_upstream (failed_late.1.2))) as Hexc.
  { right. exists 150, 2%nat. exact Hup. }
  destruct (transport_error_only_excludes default_router request0
              env_late_failure init_locals redis0 _ _ _ "bbb" GEMINI_25_PRO
              failed_late_eq Hsel Hexc)
    as (_ & Hin & Hno & _).
  split; [exact Hexc|]. split; [exact Hin|exact Hno].
Defined.

(** C5, witness: the fifth consecutive failure disables the credential. *)
Lemma update_health_adjusts_score_witness :
  exists entry' : APIKeyEntry,
    apikeys (update_health one_key "aaa" false) !! "aaa" = Some entry'
    /\ health_score entry' = 50
    /\ consecutive_errors entry' = 5
    /\ is_active entry' = false
    /\ ("aaa" ∉ active_keys (update_health one_key "aaa" false)).
Proof.
  destruct (update_health_adjusts_score one_key "aaa" entry4 false)
    as (entry' & Hlook & _ & Hfail).
  - vm_compute. reflexivity.
  - destruct (Hfail eq_refl) as (Hh & Hc & Hoff & _).
    simpl in Hh, Hc.
    destruct Hoff as (Hact & Hout & _); [rewrite Hc; lia|].
    exists entry'. repeat split; assumption.
Defined.

(** C6, witness: the window that was full yesterday. *)
Lemma daily_boundary_resets_counter_witness :
  (check_rate_limit (hset_rpd_count (_rkey "aaa" GEMINI_25_FLASH) 0 yesterday_full)
                    clock "aaa" GEMINI_25_FLASH 10
   = check_rate_limit yesterday_full clock "aaa" GEMINI_25_FLASH 10)
  /\ rpd_count (hgetall (record_request yesterday_full clock "aaa" GEMINI_25_FLASH 150)
                        (_rkey "aaa" GEMINI_25_FLASH)) = Some 1
  /\ last_rpd_reset (hgetall (record_request yesterday_full clock "aaa"
                                GEMINI_25_FLASH 150)
                             (_rkey "aaa" GEMINI_25_FLASH))
     = Some (_today_pacific clock).
Proof.
  destruct (daily_boundary_resets_counter yesterday_full clock "aaa"
              GEMINI_25_FLASH 10 150)
    as (Hcheck & _ & Hcount & Hstamp).
  - vm_compute. discriminate.
  - split; [exact (Hcheck 0)|]. split; [exact Hcount|exact Hstamp].
Defined.

(** C7, witness: one second before the date changes in the quota zone,
    the full daily counter blocks with the RPD reason. *)
Lemma check_reports_first_exceeded_limit_witness :
  check_rate_limit yesterday_full (clock - Qc_of_Z 1)%Qc "aaa" GEMINI_25_FLASH 10
  = (false, Some (RpdReached 1500)).
Proof.
  destruct (check_reports_first_exceeded_limit yesterday_full
              (clock - Qc_of_Z 1)%Qc "aaa" GEMINI_25_FLASH 10
              (mkLimits 15 1500 1000000))
    as (_ & Hrpd & _).
  - vm_compute. reflexivity.
  - apply Hrpd. split; vm_compute; congruence.
Defined.

(** C9, witness: the token of credential ["aaa"] is added again with one
    newly detected model. *)
Lemma add_merges_update_models_replaces_witness :
  (exists entry' : APIKeyEntry,
     apikeys ((add_api_key toy_hash two_keys clock "0123456789ab" "token-a"
                 "dev@example.com" [GEMINI_25_FLASH_LITE] "" "").1) !! "aaa"
       = Some entry'
     /\ (forall m, m ∈ available_models entry'
           <-> m ∈ [GEMINI_25_PRO; GEMINI_25_FLASH] \/ m ∈ [GEMINI_25_FLASH_LITE])
     /\ health_score entry' = 100)
  /\ (exists entry' : APIKeyEntry,
        apikeys ((update_models two_keys clock "aaa" [GEMINI_25_FLASH_LITE]).1)
          !! "aaa" = Some entry'
        /\ forall m, m ∈ available_models entry' <-> m ∈ [GEMINI_25_FLASH_LITE]).
Proof.
  destruct (add_merges_update_models_replaces toy_hash two_keys clock
              "0123456789ab" "token-a" "dev@example.com" [GEMINI_25_FLASH_LITE]
              "" "" entry0)
    as ((_ & e1 & Hl1 & Hm1 & Hh1 & _) & (e2 & Hl2 & Hm2 & _)).
  - vm_compute. reflexivity.
  - split.
    + exists e1. split; [exact Hl1|]. split; [exact Hm1|exact Hh1].
    + exists e2. split; [exact Hl2|exact Hm2].
Defined.

(** With a driver that hands the cursor back as a [str], the loop ends
    after the first scan and returns the number of records. *)
Example reset_rpd_all_with_str_cursor :
  exists db, reset_rpd_all 1 scan_at_once_str yesterday_full = Some (db, 1)
    /\ rpd_count (hgetall db (_rkey "aaa" GEMINI_25_FLASH)) = Some 0.
Proof. eexists. split; vm_compute; reflexivity. Qed.

(** C10, witness: the server answers the first SCAN with every key and
    the cursor 0; the loop does not end, and each pass sets the daily
    counter of the stored record to 0 and counts it again. *)
Lemma reset_rpd_all_never_returns_witness :
  int_cursor scan_at_once
  /\ reset_rpd_all 1000 scan_at_once yesterday_full = None
  /\ (reset_batch yesterday_full 0 [_rkey "aaa" GEMINI_25_FLASH]).2 = 1
  /\ rpd_count (hgetall (reset_batch yesterday_full 0
                           [_rkey "aaa" GEMINI_25_FLASH]).1
                        (_rkey "aaa" GEMINI_25_FLASH)) = Some 0.
Proof.
  assert (int_cursor scan_at_once) as Hint.
  { intros call cursor db. exists 0. reflexivity. }
  destruct (reset_rpd_all_never_returns scan_at_once Hint) as [Hloop Hpass].
  destruct (Hpass yesterday_full 0 [_rkey "aaa" GEMINI_25_FLASH])
    as [Hcount Hrec].
  destruct (Hrec (_rkey "aaa" GEMINI_25_FLASH)) as (_ & Hzero & _).
  split; [exact Hint|]. split; [apply Hloop|]. split; [exact Hcount|].
  apply Hzero. apply list_elem_of_singleton. reflexivity.
Defined.

End concrete.

(* ===================================================================== *)
(** * Further properties of the key service *)
(* ===================================================================== *)

Section api_key_service_more.
Import constants.
Import api_key_service.
Import more.
Import scenario.

(** ** The active-set index *)

Lemma index_consistent_insert_active (db : KeyDb) (kh : string) (e : APIKeyEntry) :
  index_consistent db -> is_active e = true ->
  index_consistent (mkKeyDb (<[kh := e]> (apikeys db)) ({[kh]} ∪ active_keys db)).
Proof.
  intros Hc Ha kh'. simpl. rewrite elem_of_union, elem_of_singleton.
  destruct (decide (kh' = kh)) as [->|Hne].
  - rewrite lookup_insert_eq. split; [eauto|by left].
  - rewrite lookup_insert_ne by done. rewrite <- (Hc kh'). tauto.
Qed.

Lemma index_consistent_insert_same (db : KeyDb) (kh : string) (e e' : APIKeyEntry) :
  index_consistent db -> apikeys db !! kh = Some e ->
  is_active e' = is_active e ->
  index_consistent (mkKeyDb (<[kh := e']> (apikeys db)) (active_keys db)).
Proof.
  intros Hc Hk Ha kh'. simpl. rewrite (Hc kh').
  destruct (decide (kh' = kh)) as [->|Hne].
  - rewrite lookup_insert_eq, Hk. split; intros (x & [= <-] & Hx).
    + exists e'. split; [done|congruence].
    + exists e. split; [done|congruence].
  - by rewrite lookup_insert_ne.
Qed.

Lemma index_consistent_insert_inactive (db : KeyDb) (kh : string) (e : APIKeyEntry) :
  index_consistent db -> is_active e = false ->
  index_consistent (mkKeyDb (<[kh := e]> (apikeys db)) (active_keys db ∖ {[kh]})).
Proof.
  intros Hc Ha kh'. simpl. rewrite elem_of_difference, elem_of_singleton.
  destruct (decide (kh' = kh)) as [->|Hne].
  - rewrite lookup_insert_eq. split; [tauto|].
    intros (x & [= <-] & Hx). congruence.
  - rewrite lookup_insert_ne by done. rewrite <- (Hc kh'). tauto.
Qed.

Lemma index_consistent_add (hash_key : string -> string) (db : KeyDb) (now : Qc)
    (fresh_id api_key email_ : string) (detected : list string)
    (notes_ project_id_ : string) :
  index_consistent db ->
  index_consistent (add_api_key hash_key db now fresh_id api_key email_ detected
                                notes_ project_id_).1.
Proof.
  intros Hc. unfold add_api_key.
  destruct (apikeys db !! hash_key api_key); simpl;
    by apply index_consistent_insert_active.
Qed.

Lemma index_consistent_update_models (db : KeyDb) (now : Qc) (kh : string)
    (detected : list string) :
  index_consistent db -> index_consistent (update_models db now kh detected).1.
Proof.
  intros Hc. unfold update_models.
  destruct (apikeys db !! kh) as [e|] eqn:Hk; [|done].
  case_bool_decide; [|done]. simpl.
  by apply index_consistent_insert_same with e.
Qed.

Lemma index_consistent_remove (db : KeyDb) (kh : string) :
  index_consistent db -> index_consistent (remove_api_key db kh).1.
Proof.
  intros Hc kh'. simpl. rewrite elem_of_difference, elem_of_singleton.
  destruct (decide (kh' = kh)) as [->|Hne].
  - rewrite lookup_delete_eq. split; [tauto|]. by intros (x & [=] & _).
  - rewrite lookup_delete_ne by done. rewrite <- (Hc kh'). tauto.
Qed.

Lemma index_consistent_update_health (db : KeyDb) (kh : string) (success : bool) :
  index_consistent db -> index_consistent (update_health db kh success).
Proof.
  intros Hc. unfold update_health.
  destruct (apikeys db !! kh) as [e|] eqn:Hk; [|done].
  destruct success.
  - by apply index_consistent_insert_same with e.
  - destruct (_ >=? _).
    + by apply index_consistent_insert_inactive.
    + by apply index_consistent_insert_same with e.
Qed.

Lemma index_consistent_reactivate (db : KeyDb) (kh : string) :
  index_consistent db -> index_consistent (reactivate_key db kh).1.
Proof.
  intros Hc. unfold reactivate_key.
  destruct (apikeys db !! kh) as [e|] eqn:Hk; [|done]. simpl.
  by apply index_consistent_insert_active.
Qed.

Lemma index_consistent_dom (db : KeyDb) :
  index_consistent db -> active_keys db = dom (get_active_keys db).
Proof.
  intros Hc. apply set_eq. intros kh. rewrite (Hc kh), elem_of_dom.
  unfold is_Some. by setoid_rewrite get_active_keys_spec.
Qed.

(** X1.  When the set [active_keys] holds exactly the hashes of the
    stored entries flagged active, it still does after [add_api_key],
    [update_models], [remove_api_key], [update_health] and
    [reactivate_key]; and then the count [get_key_count] reports is the
    number of entries [get_active_keys] returns, the keys the router
    chooses from. *)
Theorem active_index_stays_consistent
    (hash_key : string -> string) (db : KeyDb) (now : Qc)
    (fresh_id api_key email_ : string) (detected : list string)
    (notes_ project_id_ kh : string) (success : bool) :
  index_consistent db ->
  get_key_count db = size (get_active_keys db)
  /\ get_active_key_hashes db = dom (get_active_keys db)
  /\ index_consistent (add_api_key hash_key db now fresh_id api_key email_
                                   detected notes_ project_id_).1
  /\ index_consistent (update_models db now kh detected).1
  /\ index_consistent (remove_api_key db kh).1
  /\ index_consistent (update_health db kh success)
  /\ index_consistent (reactivate_key db kh).1.
Proof.
  intros Hc. split; [|split].
  - unfold get_key_count. rewrite (index_consistent_dom _ Hc). apply size_dom.
  - by apply index_consistent_dom.
  - split; [by apply index_consistent_add|].
    split; [by apply index_consistent_update_models|].
    split; [by apply index_consistent_remove|].
    split; [by apply index_consistent_update_health|].
    by apply index_consistent_reactivate.
Qed.

Lemma two_keys_consistent : index_consistent two_keys.
Proof.
  intros kh. unfold two_keys. simpl.
  rewrite elem_of_union, !elem_of_singleton. split.
  - intros [-> | ->]; exists entry0; (split; [vm_compute|]); reflexivity.
  - intros (e & He & _).
    destruct (decide (kh = "aaa")) as [->|Ha]; [by left|].
    destruct (decide (kh = "bbb")) as [->|Hb]; [by right|].
    rewrite lookup_insert_ne, lookup_insert_ne in He by done. done.
Qed.

(** X1, witness: the two credentials of the scenario; one of them is
    then disabled by a failure. *)
Lemma active_index_stays_consistent_witness :
  get_key_count two_keys = size (get_active_keys two_keys)
  /\ index_consistent (update_health two_keys "aaa" false).
Proof.
  destruct (active_index_stays_consistent toy_hash two_keys clock
              "0123456789ab" "token-a" "dev@example.com" [GEMINI_25_PRO]
              "" "" "aaa" false two_keys_consistent)
    as (Hcount & _ & _ & _ & _ & Hhealth & _).
  split; [exact Hcount|exact Hhealth].
Defined.

(** ** Health scores and error counters *)

Lemma scores_in_range_insert (db : KeyDb) (kh : string) (e : APIKeyEntry)
    (act : gset string) :
  scores_in_range db ->
  0 <= health_score e <= 100 -> 0 <= consecutive_errors e ->
  scores_in_range (mkKeyDb (<[kh := e]> (apikeys db)) act).
Proof.
  intros Hr Hh Hc kh' e'. simpl.
  destruct (decide (kh' = kh)) as [->|Hne].
  - rewrite lookup_insert_eq. by intros [= <-].
  - rewrite lookup_insert_ne by done. apply Hr.
Qed.

(** X2.  When every stored health score is within 0..100 and no stored
    error counter is negative, the same holds after [add_api_key],
    [update_models], [remove_api_key], [update_health] and
    [reactivate_key]. *)
Theorem health_scores_stay_in_range
    (hash_key : string -> string) (db : KeyDb) (now : Qc)
    (fresh_id api_key email_ : string) (detected : list string)
    (notes_ project_id_ kh : string) (success : bool) :
  scores_in_range db ->
  scores_in_range (add_api_key hash_key db now fresh_id api_key email_
                               detected notes_ project_id_).1
  /\ scores_in_range (update_models db now kh detected).1
  /\ scores_in_range (remove_api_key db kh).1
  /\ scores_in_range (update_health db kh success)
  /\ scores_in_range (reactivate_key db kh).1.
Proof.
  intros Hr. split; [|split; [|split; [|split]]].
  - unfold add_api_key.
    destruct (apikeys db !! hash_key api_key) as [e|] eqn:Hk; simpl.
    + destruct (Hr _ _ Hk). by apply scores_in_range_insert.
    + apply scores_in_range_insert; simpl; [done|lia|lia].
  - unfold update_models. destruct (apikeys db !! kh) as [e|] eqn:Hk; [|done].
    case_bool_decide; [|done]. simpl.
    destruct (Hr _ _ Hk). by apply scores_in_range_insert.
  - intros kh' e'. simpl. intros He%lookup_delete_Some. apply (Hr kh' e'), He.
  - unfold update_health. destruct (apikeys db !! kh) as [e|] eqn:Hk; [|done].
    destruct (Hr _ _ Hk) as [Hh Hc].
    unfold HEALTH_SCORE_MAX, HEALTH_SCORE_SUCCESS_DELTA,
      HEALTH_SCORE_FAILURE_DELTA, HEALTH_CONSECUTIVE_ERROR_DISABLE.
    destruct success; [|destruct (_ >=? _)];
      apply scores_in_range_insert; simpl; try done; lia.
  - unfold reactivate_key. destruct (apikeys db !! kh) as [e|] eqn:Hk; [|done].
    simpl. apply scores_in_range_insert; simpl; try done;
      unfold HEALTH_SCORE_MAX; lia.
Qed.

Lemma two_keys_in_range : scores_in_range two_keys.
Proof.
  intros kh e. unfold two_keys. simpl.
  destruct (decide (kh = "aaa")) as [->|Ha].
  { rewrite lookup_insert_eq. intros [= <-]. simpl. lia. }
  rewrite lookup_insert_ne by done.
  destruct (decide (kh = "bbb")) as [->|Hb].
  { rewrite lookup_insert_eq. intros [= <-]. simpl. lia. }
  by rewrite lookup_insert_ne.
Qed.

(** X2, witness: the two credentials of the scenario. *)
Lemma health_scores_stay_in_range_witness :
  scores_in_range (update_health two_keys "aaa" true)
  /\ scores_in_range (update_health two_keys "aaa" false).
Proof.
  split.
  - exact (proj1 (proj2 (proj2 (proj2
      (health_scores_stay_in_range toy_hash two_keys clock "0123456789ab"
         "token-a" "dev@example.com" [GEMINI_25_PRO] "" "" "aaa" true
         two_keys_in_range))))).
  - exact (proj1 (proj2 (proj2 (proj2
      (health_scores_stay_in_range toy_hash two_keys clock "0123456789ab"
         "token-a" "dev@example.com" [GEMINI_25_PRO] "" "" "aaa" false
         two_keys_in_range))))).
Defined.

(** ** Removing *)

(** X3.  [remove_api_key] returns whether the hash had a record; after
    it the hash has no record, is not in the active set and is not
    among the active keys, whether or not it was stored before; removing
    again returns [False] and changes nothing. *)
Theorem remove_is_idempotent (db : KeyDb) (kh : string) :
  let db1 := (remove_api_key db kh).1 in
  ((remove_api_key db kh).2 = true <-> is_Some (apikeys db !! kh))
  /\ get_key db1 kh = None
  /\ (kh ∉ active_keys db1)
  /\ get_active_keys db1 !! kh = None
  /\ (remove_api_key db1 kh).2 = false
  /\ (remove_api_key db1 kh).1 = db1.
Proof.
  cbv zeta. unfold remove_api_key, get_key. simpl.
  split; [apply bool_decide_eq_true|].
  split; [apply lookup_delete_eq|].
  split.
  { intros [_ Hn]%elem_of_difference. apply Hn. by apply elem_of_singleton. }
  split.
  { apply eq_None_not_Some. intros [e He].
    apply get_active_keys_spec in He as [He _]. simpl in He.
    by rewrite lookup_delete_eq in He. }
  split.
  { apply bool_decide_eq_false. rewrite lookup_delete_eq. by intros [? ?]. }
  f_equal.
  - apply delete_id. apply lookup_delete_eq.
  - apply set_eq. intros x. rewrite !elem_of_difference. tauto.
Qed.

(** ** Disabling and reactivating *)

Lemma fail_times_lookup (n : nat) (db : KeyDb) (kh : string) (e : APIKeyEntry) :
  apikeys db !! kh = Some e ->
  0 <= health_score e ->
  exists e' : APIKeyEntry,
    apikeys (fail_times n db kh) !! kh = Some e'
    /\ health_score e' = Z.max 0 (health_score e - 10 * Z.of_nat n)
    /\ consecutive_errors e' = consecutive_errors e + Z.of_nat n
    /\ is_active e' =
         (if (0 <? Z.of_nat n) && (consecutive_errors e' >=? 5)
          then false else is_active e)
    /\ id e' = id e /\ email e' = email e
    /\ api_key_preview e' = api_key_preview e
    /\ project_id e' = project_id e /\ created_at e' = created_at e
    /\ last_validated e' = last_validated e
    /\ available_models e' = available_models e /\ notes e' = notes e.
Proof.
  intros Hk Hh. induction n as [|n IH].
  - exists e. simpl. rewrite Hk. repeat split; try done; lia.
  - destruct IH as (e1 & Hk1 & Hh1 & Hc1 & Ha1 & Hrest).
    change (fail_times (S n) db kh)
      with (update_health (fail_times n db kh) kh false).
    generalize dependent (fail_times n db kh). intros d Hk1.
    unfold update_health. rewrite Hk1.
    unfold HEALTH_SCORE_FAILURE_DELTA, HEALTH_CONSECUTIVE_ERROR_DISABLE.
    destruct (Z.geb_spec (consecutive_errors e1 + 1) 5) as [Hge|Hlt].
    + eexists. simpl. rewrite lookup_insert_eq. split; [reflexivity|]. simpl.
      split; [lia|]. split; [lia|]. split; [|done].
      destruct (Z.ltb_spec 0 (Z.of_nat (S n))); [|lia].
      destruct (Z.geb_spec (consecutive_errors e1 + 1) 5); [done|lia].
    + eexists. simpl. rewrite lookup_insert_eq. split; [reflexivity|]. simpl.
      split; [lia|]. split; [lia|]. split; [|done].
      rewrite Ha1.
      destruct (Z.geb_spec (consecutive_errors e1 + 1) 5); [lia|].
      destruct (Z.geb_spec (consecutive_errors e1) 5); [lia|].
      by rewrite !andb_false_r.
Qed.

(** X4.  After [n] consecutive failures recorded against a stored
    credential whose health score is not negative, its health score is
    [max(0, health - 10 n)] and its error counter is up by [n].  When the
    counter has reached 5 (and [n >= 1]) the credential is inactive and
    not among the active keys; while the counter is below 5 its active
    flag is as before.  So a credential with no error on record is
    disabled by its fifth consecutive failure and not earlier. *)
Theorem consecutive_failures_disable
    (n : nat) (db : KeyDb) (kh : string) (e : APIKeyEntry) :
  apikeys db !! kh = Some e ->
  0 <= health_score e ->
  exists e' : APIKeyEntry,
    apikeys (fail_times n db kh) !! kh = Some e'
    /\ health_score e' = Z.max 0 (health_score e - 10 * Z.of_nat n)
    /\ consecutive_errors e' = consecutive_errors e + Z.of_nat n
    /\ ((1 <= n)%nat -> 5 <= consecutive_errors e + Z.of_nat n ->
          is_active e' = false
          /\ get_active_keys (fail_times n db kh) !! kh = None)
    /\ (consecutive_errors e + Z.of_nat n < 5 -> is_active e' = is_active e).
Proof.
  intros Hk Hh.
  destruct (fail_times_lookup n db kh e Hk Hh)
    as (e' & Hk' & Hh' & Hc' & Ha' & _).
  exists e'. do 3 (split; [done|]). split.
  - intros Hn Hge.
    assert (is_active e' = false) as Hoff.
    { rewrite Ha'. destruct (Z.ltb_spec 0 (Z.of_nat n)); [|lia].
      destruct (Z.geb_spec (consecutive_errors e') 5); [done|lia]. }
    split; [done|]. apply eq_None_not_Some. intros [x Hx].
    apply get_active_keys_spec in Hx as [Hx Hact]. congruence.
  - intros Hlt. rewrite Ha'.
    destruct (Z.geb_spec (consecutive_errors e') 5); [lia|].
    by rewrite andb_false_r.
Qed.

(** X4, witness: five failures against a credential of the scenario. *)
Lemma consecutive_failures_disable_witness :
  exists e' : APIKeyEntry,
    apikeys (fail_times 5 two_keys "aaa") !! "aaa" = Some e'
    /\ health_score e' = 50
    /\ consecutive_errors e' = 5
    /\ is_active e' = false.
Proof.
  destruct (consecutive_failures_disable 5 two_keys "aaa" entry0)
    as (e' & Hk & Hh & Hc & Hoff & _).
  - vm_compute. reflexivity.
  - simpl. lia.
  - exists e'. split; [exact Hk|]. split; [exact Hh|]. split; [exact Hc|].
    apply Hoff; simpl; lia.
Defined.

(** X5.  [reactivate_key] undoes the disabling: on a credential that a
    run of failures left stored, it returns [True] and the credential is
    among the active keys again, with health score 100, no error on
    record and every other field as before the failures.  On a hash
    with no record it returns [False] and changes nothing. *)
Theorem reactivate_restores_credential
    (n : nat) (db : KeyDb) (kh : string) (e : APIKeyEntry) :
  apikeys db !! kh = Some e ->
  0 <= health_score e ->
  (let res := reactivate_key (fail_times n db kh) kh in
   res.2 = true
   /\ (kh ∈ active_keys (res.1))
   /\ get_active_keys (res.1) !! kh =
        Some (mkAPIKeyEntry (id e) (email e) (api_key_preview e) (project_id e)
                (created_at e) (last_validated e) true 100 0
                (available_models e) (notes e)))
  /\ (forall kh', apikeys db !! kh' = None -> reactivate_key db kh' = (db, false)).
Proof.
  intros Hk Hh. split.
  - destruct (fail_times_lookup n db kh e Hk Hh)
      as (e' & Hk' & _ & _ & _ & Hid & Hem & Hpv & Hpr & Hcr & Hlv & Hav & Hno).
    cbv zeta. unfold reactivate_key. rewrite Hk'. simpl.
    split; [done|]. split.
    { apply elem_of_union_l. by apply elem_of_singleton. }
    apply get_active_keys_spec. simpl. rewrite lookup_insert_eq.
    split; [|done]. unfold HEALTH_SCORE_MAX.
    by rewrite Hid, Hem, Hpv, Hpr, Hcr, Hlv, Hav, Hno.
  - intros kh' Hnone. unfold reactivate_key. by rewrite Hnone.
Qed.

(** X5, witness: the credential disabled by five failures. *)
Lemma reactivate_restores_credential_witness :
  get_active_keys (reactivate_key (fail_times 5 two_keys "aaa") "aaa").1 !! "aaa"
  = Some entry0.
Proof.
  destruct (reactivate_restores_credential 5 two_keys "aaa" entry0)
    as ((_ & _ & Hback) & _).
  - vm_compute. reflexivity.
  - simpl. lia.
  - exact Hback.
Defined.

(** ** What the operations leave alone *)

Lemma same_credential_refl (kh : string) (db : KeyDb) : same_credential kh db db.
Proof. by split. Qed.

Lemma same_credential_trans (kh : string) (db1 db2 db3 : KeyDb) :
  same_credential kh db1 db2 -> same_credential kh db2 db3 ->
  same_credential kh db1 db3.
Proof.
  intros [H1 H1'] [H2 H2']. split; [by rewrite H2|]. by rewrite H2'.
Qed.

Lemma same_elsewhere_refl (kh : string) (db : KeyDb) : same_elsewhere kh db db.
Proof. by intros kh' _. Qed.

Lemma same_elsewhere_insert (db : KeyDb) (k : string) (e : APIKeyEntry)
    (act : gset string) :
  (forall kh', kh' <> k -> kh' ∈ act <-> kh' ∈ active_keys db) ->
  same_elsewhere k db (mkKeyDb (<[k := e]> (apikeys db)) act).
Proof.
  intros Hact kh' Hne. simpl. rewrite lookup_insert_ne by done.
  split; [done|by apply Hact].
Qed.

Lemma active_add_elsewhere (act : gset string) (k kh' : string) :
  kh' <> k -> kh' ∈ {[k]} ∪ act <-> kh' ∈ act.
Proof. intros Hne. rewrite elem_of_union, elem_of_singleton. tauto. Qed.

Lemma active_remove_elsewhere (act : gset string) (k kh' : string) :
  kh' <> k -> kh' ∈ act ∖ {[k]} <-> kh' ∈ act.
Proof. intros Hne. rewrite elem_of_difference, elem_of_singleton. tauto. Qed.

Lemma update_models_elsewhere (db : KeyDb) (now : Qc) (kh : string)
    (detected : list string) :
  same_elsewhere kh db (update_models db now kh detected).1.
Proof.
  unfold update_models.
  destruct (apikeys db !! kh); [|apply same_elsewhere_refl].
  case_bool_decide; [|apply same_elsewhere_refl].
  simpl. by apply same_elsewhere_insert.
Qed.

Lemma update_health_elsewhere (db : KeyDb) (kh : string) (success : bool) :
  same_elsewhere kh db (update_health db kh success).
Proof.
  unfold update_health.
  destruct (apikeys db !! kh); [|apply same_elsewhere_refl].
  destruct success; [by apply same_elsewhere_insert|].
  destruct (_ >=? _); apply same_elsewhere_insert; [|done].
  intros kh'. apply active_remove_elsewhere.
Qed.

Lemma reactivate_key_elsewhere (db : KeyDb) (kh : string) :
  same_elsewhere kh db (reactivate_key db kh).1.
Proof.
  unfold reactivate_key.
  destruct (apikeys db !! kh); [|apply same_elsewhere_refl].
  simpl. apply same_elsewhere_insert. intros kh'. apply active_add_elsewhere.
Qed.

(** X6.  Each operation of the key service touches the record and the
    active-set membership of one hash only, the one it is called for
    (for [add_api_key], the hash of the token): every other hash keeps
    its record and its membership. *)
Theorem key_operations_touch_one_hash
    (hash_key : string -> string) (db : KeyDb) (now : Qc)
    (fresh_id api_key email_ : string) (detected : list string)
    (notes_ project_id_ kh : string) (success : bool) :
  same_elsewhere (hash_key api_key) db
    (add_api_key hash_key db now fresh_id api_key email_ detected
                 notes_ project_id_).1
  /\ same_elsewhere kh db (update_models db now kh detected).1
  /\ same_elsewhere kh db (remove_api_key db kh).1
  /\ same_elsewhere kh db (update_health db kh success)
  /\ same_elsewhere kh db (reactivate_key db kh).1.
Proof.
  split; [|split; [|split; [|split]]].
  - unfold add_api_key.
    destruct (apikeys db !! hash_key api_key); simpl;
      apply same_elsewhere_insert; intros kh'; apply active_add_elsewhere.
  - apply update_models_elsewhere.
  - intros kh' Hne. simpl. rewrite lookup_delete_ne by done.
    split; [done|by apply active_remove_elsewhere].
  - apply update_health_elsewhere.
  - apply reactivate_key_elsewhere.
Qed.

End api_key_service_more.

(* ===================================================================== *)
(** * Further properties of the rate limiter *)
(* ===================================================================== *)

Section rate_limiter_more.
Import constants.
Import rate_limiter.
Import props.
Import scenario.

(** ** The clock and the window *)

Lemma window_start_before (now : Qc) : (now - Qc_of_Z 60 < now)%Qc.
Proof.
  apply Qclt_minus_iff.
  replace (now + - (now - Qc_of_Z 60))%Qc with (Qc_of_Z 60) by ring.
  done.
Qed.

Lemma window_start_mono (now now' : Qc) :
  (now <= now')%Qc -> (now - Qc_of_Z 60 <= now' - Qc_of_Z 60)%Qc.
Proof. intros H. unfold Qcminus. by apply Qcplus_le_mono_r. Qed.

Lemma newer_mono (w w' t : Qc) :
  (w <= w')%Qc -> newer w' t = true -> newer w t = true.
Proof.
  rewrite !newer_spec. intros Hle Hlt. by apply Qcle_lt_trans with w'.
Qed.

Lemma filter_filter_weaker {A : Type} (f g : A -> bool) (l : list A) :
  (forall x, f x = true -> g x = true) ->
  List.filter f (List.filter g l) = List.filter f l.
Proof.
  intros Hfg. induction l as [|x l IH]; simpl; [done|].
  destruct (g x) eqn:Hg; simpl.
  - by rewrite IH.
  - destruct (f x) eqn:Hf; [|done]. apply Hfg in Hf. congruence.
Qed.

Lemma recent_requests_twice (w w' : Qc) (l : list Qc) :
  (w <= w')%Qc ->
  recent_requests w' (recent_requests w l) = recent_requests w' l.
Proof.
  intros Hle. apply filter_filter_weaker. intros x. by apply newer_mono.
Qed.

Lemma recent_entries_twice (w w' : Qc) (l : list TokenEntry) :
  (w <= w')%Qc ->
  recent_entries w' (recent_entries w l) = recent_entries w' l.
Proof.
  intros Hle. apply filter_filter_weaker. intros x. by apply newer_mono.
Qed.

Lemma sum_counts_app (l1 l2 : list TokenEntry) :
  sum_counts (l1 ++ l2) = sum_counts l1 + sum_counts l2.
Proof.
  unfold sum_counts. induction l1 as [|e l1 IH]; simpl; [done|].
  rewrite IH. lia.
Qed.

(** ** What [get_usage_stats] reports *)

Lemma get_usage_stats_unfold (db : RateDb) (now : Qc) (kh model : string) :
  get_usage_stats db now kh model =
    let limits := default (mkLimits 0 0 0) (MODEL_RATE_LIMITS !! model) in
    mkUsage (rpm_in_window db now kh model) (rpm limits)
            (rpd_today db now kh model) (rpd limits)
            (tpm_in_window db now kh model) (tpm limits).
Proof. reflexivity. Qed.

(** X7.  For a model of the catalog, [check_rate_limit] lets a request
    through exactly when the usage [get_usage_stats] reports at the same
    instant leaves room for it: fewer requests in the minute than the
    RPM limit, fewer requests today than the RPD limit, and the tokens
    of the minute plus the estimate within the TPM limit; the limits
    reported are those of the catalog. *)
Theorem check_passes_iff_usage_has_room
    (db : RateDb) (now : Qc) (kh model : string) (est : Z) (limits : Limits) :
  MODEL_RATE_LIMITS !! model = Some limits ->
  let u := get_usage_stats db now kh model in
  u_rpm_limit u = rpm limits /\ u_rpd_limit u = rpd limits
  /\ u_tpm_limit u = tpm limits
  /\ ((check_rate_limit db now kh model est).1 = true
      <-> rpm_used u < u_rpm_limit u
          /\ rpd_used u < u_rpd_limit u
          /\ tpm_used u + est <= u_tpm_limit u).
Proof.
  intros Hl. cbv zeta. rewrite get_usage_stats_unfold. cbv zeta.
  rewrite Hl. simpl. do 3 (split; [done|]).
  rewrite (check_rate_limit_unfold _ _ _ _ _ _ Hl).
  generalize (rpm_in_window db now kh model) (rpd_today db now kh model)
             (tpm_in_window db now kh model).
  intros n_rpm n_rpd n_tpm.
  destruct (Z.geb_spec n_rpm (rpm limits));
  destruct (Z.geb_spec n_rpd (rpd limits));
  destruct (Z.gtb_spec (n_tpm + est) (tpm limits)); simpl;
    (split; [intros; try discriminate; lia|intros; try reflexivity; lia]).
Qed.

(** X7, witness: the window that was full the day before, and
    [gemini-2.5-flash]. *)
Lemma check_passes_iff_usage_has_room_witness :
  (check_rate_limit yesterday_full clock "aaa" GEMINI_25_FLASH 10).1 = true
  <-> rpm_used (get_usage_stats yesterday_full clock "aaa" GEMINI_25_FLASH)
        < u_rpm_limit (get_usage_stats yesterday_full clock "aaa" GEMINI_25_FLASH)
      /\ rpd_used (get_usage_stats yesterday_full clock "aaa" GEMINI_25_FLASH)
          < u_rpd_limit (get_usage_stats yesterday_full clock "aaa" GEMINI_25_FLASH)
      /\ tpm_used (get_usage_stats yesterday_full clock "aaa" GEMINI_25_FLASH) + 10
          <= u_tpm_limit (get_usage_stats yesterday_full clock "aaa" GEMINI_25_FLASH).
Proof.
  destruct (check_passes_iff_usage_has_room yesterday_full clock "aaa"
              GEMINI_25_FLASH 10 (mkLimits 15 1500 1000000))
    as (_ & _ & _ & Hiff).
  - vm_compute. reflexivity.
  - exact Hiff.
Defined.

(** ** Recording *)

(** X8.  A request recorded at [now] shows in the usage read at any
    instant [now']: it counts as one more request and its tokens as
    that many more tokens of the minute while [now' - 60 < now], and no
    longer once [now <= now' - 60]; it counts as one more request of
    the day when [now'] is on the same quota-zone date as [now].  The
    limits reported do not change. *)
Theorem recorded_request_counts_for_a_minute
    (db : RateDb) (now now' : Qc) (kh model : string) (toks : Z) :
  let u := get_usage_stats db now' kh model in
  let u' := get_usage_stats (record_request db now kh model toks) now' kh model in
  ((now' - Qc_of_Z 60 < now)%Qc ->
     rpm_used u' = rpm_used u + 1 /\ tpm_used u' = tpm_used u + toks)
  /\ ((now <= now' - Qc_of_Z 60)%Qc ->
        rpm_used u' = rpm_used u /\ tpm_used u' = tpm_used u)
  /\ (_today_pacific now' = _today_pacific now -> rpd_used u' = rpd_used u + 1)
  /\ u_rpm_limit u' = u_rpm_limit u /\ u_rpd_limit u' = u_rpd_limit u
  /\ u_tpm_limit u' = u_tpm_limit u.
Proof.
  cbv zeta. rewrite !get_usage_stats_unfold. cbv zeta. simpl.
  unfold rpm_in_window, tpm_in_window, rpd_today, stored_stamp.
  rewrite record_request_hash. simpl.
  unfold recent_requests, recent_entries.
  rewrite !List.filter_app. simpl.
  split; [|split; [|split; [|done]]].
  - intros Hin. apply newer_spec in Hin. rewrite Hin.
    rewrite length_app, sum_counts_app. unfold sum_counts. simpl.
    split; lia.
  - intros Hout.
    assert (newer (now' - Qc_of_Z 60) now = false) as ->.
    { apply bool_decide_eq_false. by apply Qcle_not_lt. }
    rewrite !app_nil_r. done.
  - intros Hday. rewrite Hday.
    rewrite (bool_decide_eq_true_2 (_today_pacific now = _today_pacific now))
      by done.
    simpl. destruct (decide (default "" (last_rpd_reset (hgetall db (_rkey kh model)))
                             = _today_pacific now)) as [He|Hne].
    + rewrite (bool_decide_eq_true_2 _ He).
      rewrite (bool_decide_eq_false_2 (_ <> _)) by (intros H; by apply H).
      done.
    + rewrite (bool_decide_eq_false_2 _ Hne).
      by rewrite (bool_decide_eq_true_2 _ Hne).
Qed.

(** ** Pruning *)

Lemma cleanup_hash (db : RateDb) (now : Qc) (kh model : string) (k : string) :
  let h := hgetall db k in
  hgetall (cleanup_old_data db now kh model) k =
    if bool_decide (k = _rkey kh model) && negb (hash_is_empty h)
    then mkRateHash
           (Some (recent_requests (now - Qc_of_Z 60)%Qc (default [] (requests h))))
           (Some (recent_entries (now - Qc_of_Z 60)%Qc (default [] (tokens h))))
           (rpd_count h) (last_rpd_reset h)
           (rpm_limit h) (rpd_limit h) (tpm_limit h)
    else h.
Proof.
  cbv zeta. unfold cleanup_old_data. cbv zeta.
  case_bool_decide as Hk.
  - subst k. destruct (hash_is_empty _); simpl; [done|].
    rewrite hgetall_hset_tokens. cbv zeta.
    rewrite hgetall_hset_requests. done.
  - simpl. destruct (hash_is_empty _); [done|].
    unfold hset_tokens, hset_requests. cbv zeta.
    rewrite !hgetall_insert_ne by done. done.
Qed.

(** The answers of [check_rate_limit] and [get_usage_stats] depend on
    the database through the three quantities only. *)
Lemma answers_from_quantities (db db' : RateDb) (now : Qc) (kh model : string)
    (est : Z) :
  rpm_in_window db' now kh model = rpm_in_window db now kh model ->
  rpd_today db' now kh model = rpd_today db now kh model ->
  tpm_in_window db' now kh model = tpm_in_window db now kh model ->
  check_rate_limit db' now kh model est = check_rate_limit db now kh model est
  /\ get_usage_stats db' now kh model = get_usage_stats db now kh model.
Proof.
  intros Hrpm Hrpd Htpm. split.
  - destruct (MODEL_RATE_LIMITS !! model) as [limits|] eqn:Hl.
    + rewrite !(check_rate_limit_unfold _ _ _ _ _ _ Hl).
      by rewrite Hrpm, Hrpd, Htpm.
    + unfold check_rate_limit. by rewrite Hl.
  - rewrite !get_usage_stats_unfold. cbv zeta. by rewrite Hrpm, Hrpd, Htpm.
Qed.

Lemma cleanup_quantities (db : RateDb) (now now' : Qc)
    (kh model kh' model' : string) :
  (now <= now')%Qc ->
  rpm_in_window (cleanup_old_data db now kh model) now' kh' model'
    = rpm_in_window db now' kh' model'
  /\ rpd_today (cleanup_old_data db now kh model) now' kh' model'
     = rpd_today db now' kh' model'
  /\ tpm_in_window (cleanup_old_data db now kh model) now' kh' model'
     = tpm_in_window db now' kh' model'.
Proof.
  intros Hle. apply window_start_mono in Hle.
  unfold rpm_in_window, rpd_today, tpm_in_window, stored_stamp.
  rewrite cleanup_hash. cbv zeta.
  destruct (bool_decide _ && negb _); [|done]. simpl.
  by rewrite recent_requests_twice, recent_entries_twice.
Qed.

(** X9.  Pruning never changes an answer: after [cleanup_old_data] at
    [now], [check_rate_limit] and [get_usage_stats] at any instant
    [now' >= now], for any credential and model, give what they gave
    on the database before the pruning. *)
Theorem cleanup_changes_no_answer
    (db : RateDb) (now now' : Qc) (kh model kh' model' : string) (est : Z) :
  (now <= now')%Qc ->
  check_rate_limit (cleanup_old_data db now kh model) now' kh' model' est
    = check_rate_limit db now' kh' model' est
  /\ get_usage_stats (cleanup_old_data db now kh model) now' kh' model'
     = get_usage_stats db now' kh' model'.
Proof.
  intros Hle.
  destruct (cleanup_quantities db now now' kh model kh' model' Hle)
    as (Hrpm & Hrpd & Htpm).
  by apply answers_from_quantities.
Qed.

(** X9, witness: a window with ten requests five seconds old, pruned and
    read one second later. *)
Lemma cleanup_changes_no_answer_witness :
  get_usage_stats (cleanup_old_data uneven_load clock "bbb" GEMINI_25_FLASH)
                  (clock + Qc_of_Z 1)%Qc "bbb" GEMINI_25_FLASH
  = get_usage_stats uneven_load (clock + Qc_of_Z 1)%Qc "bbb" GEMINI_25_FLASH.
Proof.
  destruct (cleanup_changes_no_answer uneven_load clock (clock + Qc_of_Z 1)%Qc
              "bbb" GEMINI_25_FLASH "bbb" GEMINI_25_FLASH 0) as [_ Husage].
  - vm_compute. discriminate.
  - exact Husage.
Defined.

(** ** The daily reset *)

Lemma reset_batch_quantities (db : RateDb) (count : Z) (keys : list string)
    (now : Qc) (kh model : string) :
  (_rkey kh model ∈ keys ->
   rpd_today (reset_batch db count keys).1 now kh model = 0)
  /\ ((_rkey kh model ∉ keys) ->
      rpd_today (reset_batch db count keys).1 now kh model
      = rpd_today db now kh model)
  /\ rpm_in_window (reset_batch db count keys).1 now kh model
     = rpm_in_window db now kh model
  /\ tpm_in_window (reset_batch db count keys).1 now kh model
     = tpm_in_window db now kh model.
Proof.
  destruct (reset_batch_spec keys db count) as [_ Hm].
  unfold rpd_today, stored_stamp, rpm_in_window, tpm_in_window.
  rewrite !Hm. split; [|split; [|split]].
  - intros Hin. rewrite (bool_decide_eq_true_2 _ Hin). simpl.
    by destruct (bool_decide _).
  - intros Hnot. by rewrite (bool_decide_eq_false_2 _ Hnot).
  - by destruct (bool_decide (_ ∈ keys)).
  - by destruct (bool_decide (_ ∈ keys)).
Qed.

(** X10.  After a pass of the loop of [reset_rpd_all] over a batch of
    keys, for every credential and model whose key is in the batch and
    at every instant, [get_usage_stats] reports no request today and
    the same requests and tokens of the minute and the same limits as
    before, and [check_rate_limit] does not answer with the RPD reason
    for a positive limit. *)
Theorem reset_batch_clears_daily_usage
    (db : RateDb) (count : Z) (keys : list string)
    (now : Qc) (kh model : string) (est : Z) :
  _rkey kh model ∈ keys ->
  let db' := (reset_batch db count keys).1 in
  let u := get_usage_stats db now kh model in
  let u' := get_usage_stats db' now kh model in
  rpd_used u' = 0
  /\ rpm_used u' = rpm_used u /\ tpm_used u' = tpm_used u
  /\ u_rpm_limit u' = u_rpm_limit u /\ u_rpd_limit u' = u_rpd_limit u
  /\ u_tpm_limit u' = u_tpm_limit u
  /\ forall lim, 0 < lim ->
       (check_rate_limit db' now kh model est).2 <> Some (RpdReached lim).
Proof.
  intros Hin. cbv zeta.
  destruct (reset_batch_quantities db count keys now kh model)
    as (Hzero & _ & Hrpm & Htpm).
  specialize (Hzero Hin).
  rewrite !get_usage_stats_unfold. cbv zeta. simpl.
  do 6 (split; [done|]).
  intros lim Hlim.
  destruct (MODEL_RATE_LIMITS !! model) as [limits|] eqn:Hl.
  - rewrite (check_rate_limit_unfold _ _ _ _ _ _ Hl), Hzero.
    destruct (_ >=? rpm limits); [simpl; congruence|].
    destruct (Z.geb_spec 0 (rpd limits)).
    + simpl. intros [= <-]. lia.
    + destruct (_ >? tpm limits); simpl; congruence.
  - unfold check_rate_limit. rewrite Hl. simpl. congruence.
Qed.

(** X10, witness: the window that was full the day before. *)
Lemma reset_batch_clears_daily_usage_witness :
  rpd_used (get_usage_stats
              (reset_batch yesterday_full 0 [_rkey "aaa" GEMINI_25_FLASH]).1
              (clock - Qc_of_Z 1)%Qc "aaa" GEMINI_25_FLASH) = 0
  /\ rpd_used (get_usage_stats yesterday_full (clock - Qc_of_Z 1)%Qc
                 "aaa" GEMINI_25_FLASH) = 1500.
Proof.
  destruct (reset_batch_clears_daily_usage yesterday_full 0
              [_rkey "aaa" GEMINI_25_FLASH] (clock - Qc_of_Z 1)%Qc
              "aaa" GEMINI_25_FLASH 10) as (Hzero & _).
  - apply list_elem_of_singleton. reflexivity.
  - split; [exact Hzero|]. vm_compute. reflexivity.
Defined.

(** ** Waiting *)

Lemma filter_length_weaker {A : Type} (f g : A -> bool) (l : list A) :
  (forall x, f x = true -> g x = true) ->
  (length (List.filter f l) <= length (List.filter g l))%nat.
Proof.
  intros Hfg. rewrite <- (filter_filter_weaker f g l Hfg).
  apply List.filter_length_le.
Qed.

Lemma sum_counts_filter_le (f : TokenEntry -> bool) (l : list TokenEntry) :
  Forall (fun e => 0 <= count e) l ->
  0 <= sum_counts (List.filter f l) <= sum_counts l.
Proof.
  unfold sum_counts. induction 1 as [|e l He Hl IH]; simpl; [lia|].
  destruct (f e); simpl; lia.
Qed.

(** X11.  Without new requests recorded, the usage of the minute only
    goes down with time: for [now <= now'] the requests counted at
    [now'] are at most those counted at [now], and so are the tokens
    when no stored token count is negative.  A credential that passes
    the RPM test passes it at every later instant. *)
Theorem usage_of_the_minute_only_expires
    (db : RateDb) (now now' : Qc) (kh model : string) :
  (now <= now')%Qc ->
  let u := get_usage_stats db now kh model in
  let u' := get_usage_stats db now' kh model in
  rpm_used u' <= rpm_used u
  /\ (Forall (fun e => 0 <= count e)
        (default [] (tokens (hgetall db (_rkey kh model)))) ->
      tpm_used u' <= tpm_used u)
  /\ forall est lim,
       (check_rate_limit db now kh model est).2 <> Some (RpmReached lim) ->
       is_Some (MODEL_RATE_LIMITS !! model) ->
       (check_rate_limit db now' kh model est).2 <> Some (RpmReached lim).
Proof.
  intros Hle. apply window_start_mono in Hle. cbv zeta.
  rewrite !get_usage_stats_unfold. cbv zeta. simpl.
  assert (rpm_in_window db now' kh model <= rpm_in_window db now kh model) as Hrpm.
  { unfold rpm_in_window. apply inj_le. apply filter_length_weaker.
    intros x. by apply newer_mono. }
  split; [done|]. split.
  - intros Hpos. unfold tpm_in_window, recent_entries.
    rewrite <- (filter_filter_weaker
                  (fun e => newer (now' - Qc_of_Z 60)%Qc (ts e))
                  (fun e => newer (now - Qc_of_Z 60)%Qc (ts e))).
    + apply sum_counts_filter_le.
      apply List.Forall_forall. intros e He. apply filter_In in He as [He _].
      rewrite List.Forall_forall in Hpos. by apply Hpos.
    + intros x. by apply newer_mono.
  - intros est lim Hnot [limits Hl].
    rewrite (check_rate_limit_unfold _ _ _ _ _ _ Hl) in Hnot.
    rewrite (check_rate_limit_unfold _ _ _ _ _ _ Hl).
    destruct (Z.geb_spec (rpm_in_window db now' kh model) (rpm limits)).
    + destruct (Z.geb_spec (rpm_in_window db now kh model) (rpm limits)); [done|lia].
    + clear Hnot. destruct (_ >=? rpd limits); [simpl; discriminate|].
      destruct (_ >? tpm limits); simpl; discriminate.
Qed.

(** X11, witness: the window with ten requests five seconds old, read
    again a minute later. *)
Lemma usage_of_the_minute_only_expires_witness :
  rpm_used (get_usage_stats uneven_load (clock + Qc_of_Z 60)%Qc "bbb" GEMINI_25_FLASH)
  <= rpm_used (get_usage_stats uneven_load clock "bbb" GEMINI_25_FLASH).
Proof.
  destruct (usage_of_the_minute_only_expires uneven_load clock
              (clock + Qc_of_Z 60)%Qc "bbb" GEMINI_25_FLASH) as [Hrpm _].
  - vm_compute. discriminate.
  - exact Hrpm.
Defined.

End rate_limiter_more.

(* ===================================================================== *)
(** * Further properties of the router *)
(* ===================================================================== *)

Section router_more.
Import constants.
Import rate_limiter.
Import api_key_service.
Import router_service.
Import props.
Import more.
Import scenario.

(** ** The catalog *)

Lemma rate_limits_catalog (m : string) :
  is_Some (MODEL_RATE_LIMITS !! m) <-> m ∈ ALL_MODELS.
Proof.
  unfold MODEL_RATE_LIMITS, ALL_MODELS, MODEL_PRIORITY, IMAGE_MODEL_PRIORITY.
  simpl. rewrite !elem_of_cons, elem_of_nil.
  rewrite <- !not_eq_None_Some, !lookup_insert_None, lookup_empty.
  split.
  - intros H.
    destruct (decide (m = GEMINI_25_PRO)); [tauto|].
    destruct (decide (m = GEMINI_3_FLASH)); [tauto|].
    destruct (decide (m = GEMINI_25_FLASH)); [tauto|].
    destruct (decide (m = GEMINI_25_FLASH_LITE)); [tauto|].
    destruct (decide (m = GEMINI_25_FLASH_IMAGE)); [tauto|].
    destruct (decide (m = GEMINI_EMBEDDING)); [tauto|].
    destruct H. repeat (split; [congruence|]). done.
  - intros H Hn. intuition congruence.
Qed.

Lemma capabilities_catalog (m : string) (c : string) :
  c ∈ default ∅ (MODEL_CAPABILITIES !! m) ->
  (c = CAP_EMBEDDING -> m = GEMINI_EMBEDDING)
  /\ (c = CAP_IMAGE_GENERATION -> m = GEMINI_25_FLASH_IMAGE)
  /\ m ∈ ALL_MODELS.
Proof.
  unfold MODEL_CAPABILITIES, ALL_MODELS, MODEL_PRIORITY, IMAGE_MODEL_PRIORITY.
  simpl.
  assert (forall x : string, x ∈ text_caps ->
            x <> CAP_EMBEDDING /\ x <> CAP_IMAGE_GENERATION) as Htext.
  { intros x. unfold text_caps. simpl.
    rewrite !elem_of_union, !elem_of_singleton, elem_of_empty.
    intros H. split; intros ->; repeat destruct H as [H|H]; discriminate || done. }
  destruct (decide (m = GEMINI_3_FLASH)) as [->|?].
  { rewrite lookup_insert_eq. simpl. intros [? ?]%Htext.
    split; [done|]. split; [done|]. right; by left. }
  rewrite lookup_insert_ne by done.
  destruct (decide (m = GEMINI_25_PRO)) as [->|?].
  { rewrite lookup_insert_eq. simpl. intros [? ?]%Htext.
    split; [done|]. split; [done|]. by left. }
  rewrite lookup_insert_ne by done.
  destruct (decide (m = GEMINI_25_FLASH)) as [->|?].
  { rewrite lookup_insert_eq. simpl. intros [? ?]%Htext.
    split; [done|]. split; [done|]. do 2 right; by left. }
  rewrite lookup_insert_ne by done.
  destruct (decide (m = GEMINI_25_FLASH_IMAGE)) as [->|?].
  { rewrite lookup_insert_eq. simpl.
    rewrite !elem_of_union, !elem_of_singleton, elem_of_empty. intros Hc.
    split; [intros ->; repeat destruct Hc as [Hc|Hc]; discriminate || done|].
    split; [done|]. do 4 right; by left. }
  rewrite lookup_insert_ne by done.
  destruct (decide (m = GEMINI_25_FLASH_LITE)) as [->|?].
  { rewrite lookup_insert_eq. simpl. intros [? ?]%Htext.
    split; [done|]. split; [done|]. do 3 right; by left. }
  rewrite lookup_insert_ne by done.
  destruct (decide (m = GEMINI_EMBEDDING)) as [->|?].
  { rewrite lookup_insert_eq. simpl.
    rewrite elem_of_union, elem_of_singleton, elem_of_empty.
    intros [->|[]]. split; [done|]. split; [discriminate|]. do 5 right; by left. }
  rewrite lookup_insert_ne by done. rewrite lookup_empty. simpl.
  by intros ?%elem_of_empty.
Qed.

(** ** The order of the models *)

Lemma base_order_cases (caps : option (gset string)) :
  _build_model_order None caps = IMAGE_MODEL_PRIORITY
  \/ _build_model_order None caps = [GEMINI_EMBEDDING]
  \/ _build_model_order None caps = MODEL_PRIORITY.
Proof.
  unfold _build_model_order.
  destruct (caps_given caps && has_cap CAP_IMAGE_GENERATION caps); [by left|].
  destruct (caps_given caps && has_cap CAP_EMBEDDING caps); [right; by left|].
  by do 2 right.
Qed.

Lemma build_model_order_preferred (preferred : option string)
    (caps : option (gset string)) :
  _build_model_order preferred caps =
    match preferred with
    | Some p =>
      if nonempty p && bool_decide (is_Some (MODEL_RATE_LIMITS !! p))
      then p :: List.filter (fun m => negb (String.eqb m p))
                  (_build_model_order None caps)
      else _build_model_order None caps
    | None => _build_model_order None caps
    end.
Proof. by destruct preferred. Qed.

Lemma base_order_NoDup (caps : option (gset string)) :
  NoDup (_build_model_order None caps)
  /\ forall m, m ∈ _build_model_order None caps -> m ∈ ALL_MODELS.
Proof.
  unfold ALL_MODELS.
  destruct (base_order_cases caps) as [-> | [-> | ->]].
  - split; [apply NoDup_singleton|].
    intros m Hm. apply elem_of_app. right. apply elem_of_app. by left.
  - split; [apply NoDup_singleton|].
    intros m Hm. apply elem_of_app. right. apply elem_of_app. by right.
  - split; [|intros m Hm; apply elem_of_app; by left].
    unfold MODEL_PRIORITY.
    repeat (apply NoDup_cons; split;
            [rewrite ?elem_of_cons, ?elem_of_nil;
             intros H; repeat destruct H as [H|H]; discriminate || done|]).
    apply NoDup_nil_2.
Qed.

Lemma nonempty_catalog (p : string) : p ∈ ALL_MODELS -> nonempty p = true.
Proof.
  unfold ALL_MODELS, MODEL_PRIORITY, IMAGE_MODEL_PRIORITY. simpl.
  rewrite !elem_of_cons, elem_of_nil.
  intros H. repeat destruct H as [H|H]; subst; done.
Qed.

Lemma build_model_order_known (preferred : option string)
    (caps : option (gset string)) (p : string) :
  preferred = Some p -> p ∈ ALL_MODELS ->
  _build_model_order preferred caps
  = p :: List.filter (fun m => negb (String.eqb m p))
           (_build_model_order None caps).
Proof.
  intros -> Hp. rewrite build_model_order_preferred.
  rewrite (nonempty_catalog _ Hp).
  rewrite bool_decide_eq_true_2 by (by apply rate_limits_catalog). done.
Qed.

Lemma build_model_order_unknown (preferred : option string)
    (caps : option (gset string)) (p : string) :
  preferred = Some p -> (p ∉ ALL_MODELS) ->
  _build_model_order preferred caps = _build_model_order None caps.
Proof.
  intros -> Hp. rewrite build_model_order_preferred.
  rewrite (bool_decide_eq_false_2 (is_Some _))
    by (by rewrite rate_limits_catalog).
  by rewrite andb_false_r.
Qed.

Lemma filter_other_models (p m : string) (base : list string) :
  m ∈ List.filter (fun m => negb (String.eqb m p)) base <-> m ∈ base /\ m <> p.
Proof.
  rewrite !list_elem_of_In, filter_In, negb_true_iff.
  by rewrite String.eqb_neq.
Qed.

Lemma build_model_order_mem (preferred : option string)
    (caps : option (gset string)) (m : string) :
  m ∈ _build_model_order preferred caps <->
  m ∈ _build_model_order None caps \/ (preferred = Some m /\ m ∈ ALL_MODELS).
Proof.
  destruct preferred as [p|].
  - destruct (decide (p ∈ ALL_MODELS)) as [Hp|Hp].
    + rewrite (build_model_order_known _ caps p eq_refl Hp),
        elem_of_cons, filter_other_models.
      split.
      * intros [->|[? ?]]; [right; done|by left].
      * intros [Hm|[[= ->] _]]; [|by left].
        destruct (decide (m = p)); [by left|right; done].
    + rewrite (build_model_order_unknown _ caps p eq_refl Hp).
      split; [by left|].
      intros [?|[[= ->] ?]]; done.
  - split; [by left|]. by intros [?|[? _]].
Qed.

Lemma build_model_order_catalog (preferred : option string)
    (caps : option (gset string)) (m : string) :
  m ∈ _build_model_order preferred caps -> is_Some (MODEL_RATE_LIMITS !! m).
Proof.
  intros [Hm|[_ Hm]]%build_model_order_mem; apply rate_limits_catalog; [|done].
  by apply base_order_NoDup in Hm.
Qed.


(** ** One model of the loop *)

Lemma scored_nonempty (self : RouterService) (keys : KeyDb) (rate : RateDb)
    (now : Qc) (model : string) (est : Z) (exclude : gset (string * string)) :
  sort_reverse (score_keys self rate now model est
                  (eligible_keys (get_active_keys keys) model exclude)) <> []
  <-> exists kh entry, survivor keys rate now model est exclude kh entry.
Proof.
  split.
  - destruct (sort_reverse _) as [|[s kh] rest] eqn:Hs; [done|]. intros _.
    assert ((s, kh) ∈ sort_reverse (score_keys self rate now model est
              (eligible_keys (get_active_keys keys) model exclude))) as Hin.
    { rewrite Hs. by left. }
    apply sort_reverse_elem, survivor_scored in Hin as (entry & Hsv & _).
    eauto.
  - intros (kh & entry & Hsv) Hnil.
    assert ((candidate_score self rate now model kh entry, kh)
              ∈ sort_reverse (score_keys self rate now model est
                  (eligible_keys (get_active_keys keys) model exclude))) as Hin.
    { apply sort_reverse_elem, survivor_scored. eauto. }
    rewrite Hnil in Hin. by apply elem_of_nil in Hin.
Qed.

Lemma try_models_skip (self : RouterService) (keys : KeyDb) (rate : RateDb)
    (now : Qc) (est : Z) (caps : option (gset string))
    (exclude : gset (string * string)) (blocked : gset string)
    (m : string) (rest : list string) :
  ~ viable keys rate now est caps exclude blocked m ->
  try_models self rate now (get_active_keys keys) est caps exclude blocked
             (m :: rest)
  = try_models self rate now (get_active_keys keys) est caps exclude blocked rest.
Proof.
  intros Hnv. simpl.
  case_bool_decide as Hb; [done|].
  destruct (caps_given caps && _) eqn:Hc; [done|].
  destruct (bool_decide (_ = ∅)) eqn:He; [done|].
  destruct (sort_reverse _) as [|best rest'] eqn:Hs; [done|].
  destruct Hnv. split; [done|]. split.
  - intros Hg. rewrite Hg in Hc. simpl in Hc.
    apply negb_false_iff in Hc. by apply bool_decide_eq_true in Hc.
  - apply (scored_nonempty self). by rewrite Hs.
Qed.

Lemma try_models_take (self : RouterService) (keys : KeyDb) (rate : RateDb)
    (now : Qc) (est : Z) (caps : option (gset string))
    (exclude : gset (string * string)) (blocked : gset string)
    (m : string) (rest : list string) :
  viable keys rate now est caps exclude blocked m ->
  exists kh em pv,
    try_models self rate now (get_active_keys keys) est caps exclude blocked
               (m :: rest)
    = Selected kh m em pv.
Proof.
  intros (Hb & Hc & Hsv). simpl.
  rewrite (bool_decide_eq_false_2 _ Hb).
  assert (caps_given caps
          && negb (bool_decide (default ∅ caps
                                ⊆ default ∅ (MODEL_CAPABILITIES !! m))) = false)
    as ->.
  { destruct (caps_given caps) eqn:Hg; [|done]. simpl.
    apply negb_false_iff, bool_decide_eq_true. by apply Hc. }
  apply (scored_nonempty self) in Hsv.
  destruct (sort_reverse _) as [|best rest'] eqn:Hs; [done|].
  rewrite bool_decide_eq_false_2.
  - destruct (eligible_keys _ _ _ !! best.2); eauto.
  - intros He. rewrite He in Hs. unfold score_keys in Hs.
    rewrite map_to_list_empty in Hs. discriminate Hs.
Qed.

Lemma try_models_first_viable (self : RouterService) (keys : KeyDb)
    (rate : RateDb) (now : Qc) (est : Z) (caps : option (gset string))
    (exclude : gset (string * string)) (blocked : gset string)
    (models : list string) :
  match try_models self rate now (get_active_keys keys) est caps exclude
                   blocked models with
  | Selected kh model em pv =>
      exists before after, models = (before ++ model :: after)%list
        /\ (forall m, m ∈ before ->
              ~ viable keys rate now est caps exclude blocked m)
        /\ viable keys rate now est caps exclude blocked model
  | AllKeysExhausted =>
      forall m, m ∈ models -> ~ viable keys rate now est caps exclude blocked m
  end.
Proof.
  induction models as [|m models IH].
  - simpl. intros m Hm. by apply elem_of_nil in Hm.
  - assert (viable keys rate now est caps exclude blocked m
            \/ ~ viable keys rate now est caps exclude blocked m) as [Hv|Hv].
    { destruct (try_models self rate now (get_active_keys keys) est caps
                  exclude blocked [m]) eqn:Ht.
      - left. simpl in Ht. revert Ht.
        case_bool_decide as Hb; [done|].
        destruct (caps_given caps && _) eqn:Hc; [done|].
        destruct (bool_decide (_ = ∅)) eqn:He; [done|].
        destruct (sort_reverse _) as [|best rest'] eqn:Hs; [done|]. intros _.
        split; [done|]. split.
        + intros Hg. rewrite Hg in Hc. simpl in Hc.
          apply negb_false_iff in Hc. by apply bool_decide_eq_true in Hc.
        + apply (scored_nonempty self). by rewrite Hs.
      - right. intros Hv.
        destruct (try_models_take self keys rate now est caps exclude blocked
                    m [] Hv) as (? & ? & ? & Heq).
        congruence. }
    + destruct (try_models_take self keys rate now est caps exclude blocked
                  m models Hv) as (kh & em & pv & ->).
      exists [], models. split; [done|]. split; [|done].
      intros m' Hm'. by apply elem_of_nil in Hm'.
    + rewrite (try_models_skip self _ _ _ _ _ _ _ _ _ Hv).
      destruct (try_models _ _ _ _ _ _ _ _ models) as [kh model em pv|].
      * destruct IH as (before & after & -> & Hbefore & Hmodel).
        exists (m :: before), after. split; [done|]. split; [|done].
        intros m' [->|Hm']%elem_of_cons; [done|by apply Hbefore].
      * intros m' [->|Hm']%elem_of_cons; [done|by apply IH].
Qed.

Lemma no_active_key_no_survivor (keys : KeyDb) (rate : RateDb) (now : Qc)
    (model : string) (est : Z) (exclude : gset (string * string))
    (kh : string) (entry : APIKeyEntry) :
  get_active_keys keys = ∅ ->
  ~ survivor keys rate now model est exclude kh entry.
Proof.
  intros Hempty (Hk & Hact & _).
  assert (get_active_keys keys !! kh = Some entry) as Hin.
  { by apply get_active_keys_spec. }
  rewrite Hempty, lookup_empty in Hin. discriminate Hin.
Qed.

(** The credential returned survives for the model returned. *)
Lemma select_survivor
    (self : RouterService) (keys : KeyDb) (rate : RateDb) (now : Qc)
    (preferred : option string) (est : Z) (caps : option (gset string))
    (exclude : option (gset (string * string))) (blocked : option (gset string))
    (kh model em pv : string) :
  select_best_key_and_model self keys rate now preferred est caps exclude blocked
    = Selected kh model em pv ->
  exists entry, survivor keys rate now model est (default ∅ exclude) kh entry
    /\ em = email entry /\ pv = api_key_preview entry.
Proof.
  intros H. apply select_Selected in H as (_ & Hem & best & rest & Hs & <-).
  apply sort_reverse_first_elem in Hs as Hin.
  destruct best as [s kh]. simpl in *.
  pose proof Hin as Hin'.
  apply survivor_scored in Hin' as (entry & Hsv & _).
  exists entry. split; [done|]. apply Hem.
  apply eligible_keys_spec. destruct Hsv as (Hk & Hact & Hm & Hx & _).
  split; [by apply get_active_keys_spec|done].
Qed.

(** X13.  The router serves with the first model of its order that is
    viable: when it returns a credential and a model, no model before
    that one in the order is viable (each is blocked, lacks a required
    capability, or has no credential that is active, advertises it, is
    not excluded with it and passes the rate check), and the model
    returned is viable. *)
Theorem selection_takes_first_viable_model
    (self : RouterService) (keys : KeyDb) (rate : RateDb) (now : Qc)
    (preferred : option string) (est : Z) (caps : option (gset string))
    (exclude : option (gset (string * string))) (blocked : option (gset string))
    (kh model em pv : string) :
  select_best_key_and_model self keys rate now preferred est caps exclude blocked
    = Selected kh model em pv ->
  exists before after,
    _build_model_order preferred caps = (before ++ model :: after)%list
    /\ (forall m, m ∈ before ->
          ~ viable keys rate now est caps (default ∅ exclude)
                   (default ∅ blocked) m)
    /\ viable keys rate now est caps (default ∅ exclude) (default ∅ blocked) model.
Proof.
  unfold select_best_key_and_model. case_bool_decide as Hne; [done|].
  intros Hsel.
  pose proof (try_models_first_viable self keys rate now est caps
                (default ∅ exclude) (default ∅ blocked)
                (_build_model_order preferred caps)) as Hfirst.
  by rewrite Hsel in Hfirst.
Qed.

(** X13, witness: the preferred model is blocked and the router moves on
    to the next one of the order. *)
Lemma selection_takes_first_viable_model_witness :
  exists before after,
    _build_model_order (Some GEMINI_25_PRO) None
      = (before ++ GEMINI_25_FLASH :: after)%list
    /\ (forall m, m ∈ before ->
          ~ viable two_keys ∅ clock 100 None ∅ {[GEMINI_25_PRO]} m)
    /\ viable two_keys ∅ clock 100 None ∅ {[GEMINI_25_PRO]} GEMINI_25_FLASH.
Proof.
  pose proof (selection_takes_first_viable_model default_router two_keys ∅ clock
                (Some GEMINI_25_PRO) 100 None (Some ∅) (Some {[GEMINI_25_PRO]})
                "bbb" GEMINI_25_FLASH "dev@example.com" "...k3y001") as Hfirst.
  simpl in Hfirst. apply Hfirst. vm_compute. reflexivity.
Defined.

(** X14.  The router raises [AllKeysExhaustedError] exactly when no
    model of its order is viable. *)
Theorem exhausted_iff_no_viable_model
    (self : RouterService) (keys : KeyDb) (rate : RateDb) (now : Qc)
    (preferred : option string) (est : Z) (caps : option (gset string))
    (exclude : option (gset (string * string))) (blocked : option (gset string)) :
  select_best_key_and_model self keys rate now preferred est caps exclude blocked
    = AllKeysExhausted
  <-> forall m, m ∈ _build_model_order preferred caps ->
        ~ viable keys rate now est caps (default ∅ exclude) (default ∅ blocked) m.
Proof.
  unfold select_best_key_and_model.
  pose proof (try_models_first_viable self keys rate now est caps
                (default ∅ exclude) (default ∅ blocked)
                (_build_model_order preferred caps)) as Hfirst.
  case_bool_decide as Hne.
  - split; [|done]. intros _ m _ (_ & _ & kh & entry & Hsv).
    by apply (no_active_key_no_survivor _ _ _ _ _ _ _ _ Hne) in Hsv.
  - destruct (try_models _ _ _ _ _ _ _ _ _) as [kh model em pv|].
    + split; [done|]. intros Hnone.
      destruct Hfirst as (before & after & Heq & _ & Hv).
      destruct (Hnone model); [|done].
      rewrite Heq. apply elem_of_app. right. by left.
    + done.
Qed.

(** X15.  The model returned has every capability the request requires,
    and belongs to the catalog: a request that requires embedding is
    served by [gemini-embedding-001] only, one that requires image
    generation by [gemini-2.5-flash-image] only, whatever model the
    caller prefers; and a request that requires both, or one of them
    with a capability that model lacks, is served by no model. *)
Theorem capabilities_decide_the_model
    (self : RouterService) (keys : KeyDb) (rate : RateDb) (now : Qc)
    (preferred : option string) (est : Z) (required : gset string)
    (exclude : option (gset (string * string))) (blocked : option (gset string))
    (kh model em pv : string) :
  select_best_key_and_model self keys rate now preferred est (Some required)
                            exclude blocked
    = Selected kh model em pv ->
  required ⊆ default ∅ (MODEL_CAPABILITIES !! model)
  /\ is_Some (MODEL_RATE_LIMITS !! model)
  /\ (CAP_EMBEDDING ∈ required -> model = GEMINI_EMBEDDING)
  /\ (CAP_IMAGE_GENERATION ∈ required -> model = GEMINI_25_FLASH_IMAGE).
Proof.
  unfold select_best_key_and_model.
  case_bool_decide as Hne; [done|]. intros Hsel.
  pose proof (try_models_first_viable self keys rate now est (Some required)
                (default ∅ exclude) (default ∅ blocked)
                (_build_model_order preferred (Some required))) as Hfirst.
  rewrite Hsel in Hfirst.
  destruct Hfirst as (before & after & Hord & _ & _ & Hcaps & _).
  assert (is_Some (MODEL_RATE_LIMITS !! model)) as Hcat.
  { apply (build_model_order_catalog preferred (Some required)).
    rewrite Hord. apply elem_of_app. right. by left. }
  assert (required ⊆ default ∅ (MODEL_CAPABILITIES !! model)) as Hsub.
  { destruct (decide (required = ∅)) as [->|Hn].
    - intros c Hc. by apply elem_of_empty in Hc.
    - apply Hcaps. simpl. by apply bool_decide_eq_true. }
  split; [done|]. split; [done|].
  split; intros Hc; apply Hsub, capabilities_catalog in Hc as (He & Hi & _);
    [by apply He|by apply Hi].
Qed.

(** X15, witness: a credential that advertises [gemini-2.5-pro] and the
    embedding model, a caller that prefers [gemini-2.5-pro], and a
    request that requires embedding. *)
Lemma capabilities_decide_the_model_witness :
  ({[CAP_EMBEDDING]} : gset string)
    ⊆ default ∅ (MODEL_CAPABILITIES !! GEMINI_EMBEDDING)
  /\ is_Some (MODEL_RATE_LIMITS !! GEMINI_EMBEDDING)
  /\ (CAP_EMBEDDING ∈ ({[CAP_EMBEDDING]} : gset string) ->
      GEMINI_EMBEDDING = GEMINI_EMBEDDING)
  /\ (CAP_IMAGE_GENERATION ∈ ({[CAP_EMBEDDING]} : gset string) ->
      GEMINI_EMBEDDING = GEMINI_25_FLASH_IMAGE).
Proof.
  apply (capabilities_decide_the_model default_router embed_keys ∅ clock
           (Some GEMINI_25_PRO) 100 {[CAP_EMBEDDING]} None None
           "eee" GEMINI_EMBEDDING "ops@example.com" "...k3y777").
  vm_compute. reflexivity.
Defined.

End router_more.

(* ===================================================================== *)
(** * Further properties of the fallback loop *)
(* ===================================================================== *)

Section chat_more.
Import constants.
Import rate_limiter.
Import api_key_service.
Import router_service.
Import chat.
Import props.
Import runs.
Import more.
Import scenario.

Context (self : RouterService) (request : Request).

(** The service calls of the success path touch the record of the
    selected credential only, and no plaintext key. *)
Lemma success_calls_elsewhere (env : Env) (r : Redis) (kh m : string)
    (n fc : Z) (k : nat) :
  let r' := run_calls env r
              (take k [record_request_call kh m n; update_health_call kh true;
                       log_request_call kh m true fc]) in
  plainkeys r' = plainkeys r
  /\ (forall kh0, kh0 <> kh -> same_credential kh0 (keys r) (keys r')).
Proof.
  cbv zeta. unfold run_calls.
  destruct k as [|[|[|k]]]; simpl; rewrite ?firstn_nil; simpl;
    (split; [done|]); intros kh0 Hne;
    try apply same_credential_refl;
    by apply (update_health_elsewhere (keys r) kh true).
Qed.

(** What an iteration leaves, by the way it ends. *)
Lemma attempt_step_shape (env : Env) (l : Locals) (r : Redis)
    (s : Step) (a : Attempt) (r' : Redis) :
  attempt self request env l r = (s, a, r') ->
  plainkeys r' = plainkeys r
  /\ (forall kh, (forall m, ~ selects a kh m) ->
        same_credential kh (keys r) (keys r'))
  /\ match s with
     | Continue l1 =>
         failed_attempt a /\ (~ raised_late a -> rate r' = rate r)
         /\ (last_error l1 = None -> last_error l = None /\ a_upstream a = None)
     | Break l1 =>
         a_selection a = AllKeysExhausted /\ a_upstream a = None /\ r' = r
         /\ last_error l1 = last_error l
     | Return res l1 =>
         exists kh pv,
           a_selection a = Selected kh (res_model res) (res_key_email res) pv
           /\ a_upstream a = Some (UpResult (res_total_tokens res))
           /\ res_fallback_count res = total_attempts l
           /\ rate r' = record_request (rate r) (now env) kh (res_model res)
                                       (res_total_tokens res)
           /\ keys r' = update_health (keys r) kh true
     end.
Proof.
  intros H. apply attempt_paths in H. cbv zeta in H.
  destruct H as
    (Hex & Hbl &
     [(Hsel & Hup & Hcalls & -> & ->)
     |(kh & m & em & pv & Hsel & Hpair & Hmodel &
       [(Hup & Hcalls & -> & ->)
       |[(n & Hup & Hcalls & -> & ->)
        |[(Hup & Hcalls & -> & ->)
         |[(status & Hstatus & Hup & Hcalls & -> & ->)
          |[(Hup & Hcalls & -> & ->)
           |(n & k & Hup & Hcalls & -> & ->)]]]]])]).
  - split; [done|]. split; [by intros kh _|]. done.
  - split; [done|]. split; [by intros kh0 _|].
    split; [split; [eauto|by rewrite Hup]|]. done.
  - rewrite Hcalls. simpl.
    split; [done|]. split.
    + intros kh0 Hnot.
      apply (update_health_elsewhere (keys r) kh true).
      intros ->. apply (Hnot m). by exists em, pv.
    + exists kh, pv. do 2 (split; [done|]). split; [lia|]. done.
  - split; [done|]. split; [by intros kh0 _|].
    split; [split; [eauto|by rewrite Hup]|]. done.
  - simpl. split; [done|]. split.
    + intros kh0 Hnot.
      apply (update_health_elsewhere (keys r) kh false).
      intros ->. apply (Hnot m). by exists em, pv.
    + split; [split; [eauto|by rewrite Hup]|]. done.
  - split; [done|]. split; [by intros kh0 _|].
    split; [split; [eauto|by rewrite Hup]|]. done.
  - rewrite Hcalls.
    destruct (success_calls_elsewhere env r kh m n (total_attempts l + 1 - 1) k)
      as [Hplain Hkeys].
    split; [done|]. split.
    + intros kh0 Hnot. apply Hkeys.
      intros ->. apply (Hnot m). by exists em, pv.
    + split; [split; [eauto|by rewrite Hup]|]. split; [|done].
      intros Hnot. exfalso. apply Hnot. by exists n, k.
Qed.


(** How a run ends, and what went before. *)
Lemma fallback_loop_outcome (fuel : nat) (envs : nat -> Env) (l : Locals) (r : Redis)
    (out : Outcome) (l' : Locals) (t : list Attempt) (r' : Redis) :
  fallback_loop fuel self request envs l r = Some (out, l', t, r') ->
  (forall (i : nat) (a : Attempt),
     t !! i = Some a -> (S i < length t)%nat -> failed_attempt a)
  /\ match out with
     | Served res =>
         exists a kh pv,
           last t = Some a
           /\ a_selection a = Selected kh (res_model res) (res_key_email res) pv
           /\ a_upstream a = Some (UpResult (res_total_tokens res))
           /\ res_fallback_count res = total_attempts l' - 1
     | Exhausted tried blocked lasterr =>
         tried = total_attempts l' /\ blocked = blocked_models l'
         /\ lasterr = last_error l'
         /\ (forall a n, a ∈ t -> a_upstream a <> Some (UpResult n))
         /\ (max_attempts <= total_attempts l'
             \/ exists a, last t = Some a /\ a_selection a = AllKeysExhausted)
         /\ (last_error l' = None ->
             last_error l = None /\ forall a, a ∈ t -> a_upstream a = None)
     end.
Proof.
  revert l r t. induction fuel as [|fuel IH]; intros l r t; [done|].
  simpl. destruct (Z.ltb_spec (total_attempts l) max_attempts) as [Hlt|Hge].
  - destruct (attempt self request _ l _) as [[s a] r1] eqn:Hatt.
    pose proof (attempt_mono _ _ _ _ _ _ _ _ Hatt) as [Htot _].
    apply attempt_step_shape in Hatt as (_ & _ & Hshape).
    destruct s as [l1|l1|res l1]; simpl in Htot.
    + destruct (fallback_loop fuel self request envs l1 r1)
        as [[[[out1 l1'] t1] r1']|] eqn:Hrec; [|done].
      intros [= <- <- <- <-].
      apply IH in Hrec as [Hbefore Hout].
      destruct Hshape as (Hfailed & _ & Herr).
      split.
      * intros [|i] b Hi Hlen; simpl in Hi, Hlen.
        -- by injection Hi as <-.
        -- apply (Hbefore i b Hi). lia.
      * destruct out1 as [res|tried blocked lasterr].
        -- destruct Hout as (b & kh & pv & Hlast & ?).
           exists b, kh, pv. split; [|done]. by rewrite last_cons, Hlast.
        -- destruct Hout as (-> & -> & -> & Hno & Hend & Hnone).
           do 3 (split; [done|]). split; [|split].
           ++ intros b n [->|Hb]%elem_of_cons; [apply Hfailed|by apply Hno].
           ++ destruct Hend as [Hmax|(b & Hlast & Hb)]; [by left|].
              right. exists b. split; [|done]. by rewrite last_cons, Hlast.
           ++ intros Hl'. destruct (Hnone Hl') as [Hl1 Hall].
              destruct (Herr Hl1) as [Hl Ha]. split; [done|].
              intros b [->|Hb]%elem_of_cons; [done|by apply Hall].
    + intros [= <- <- <- <-].
      destruct Hshape as (Hsel & Hup & _ & Herr).
      split; [intros [|i] b Hi Hlen; simpl in Hlen; lia|].
      unfold exhausted. do 3 (split; [done|]). split; [|split].
      * intros b n ->%list_elem_of_singleton. by rewrite Hup.
      * right. by exists a.
      * intros Hl1. split; [congruence|].
        by intros b ->%list_elem_of_singleton.
    + intros [= <- <- <- <-].
      destruct Hshape as (kh & pv & Hsel & Hup & Hcount & _).
      split; [intros [|i] b Hi Hlen; simpl in Hlen; lia|].
      exists a, kh, pv. do 3 (split; [done|]). lia.
  - intros [= <- <- <- <-].
    split; [intros i b Hi; by rewrite lookup_nil in Hi|].
    unfold exhausted. do 3 (split; [done|]). split; [|split].
    + intros b n Hb. by apply elem_of_nil in Hb.
    + by left.
    + intros Hl. split; [done|]. intros b Hb. by apply elem_of_nil in Hb.
Qed.

(** X16.  A run of the fallback loop ends in one of two ways.  It
    returns a result: then the [try] block of the last iteration, and
    of no other, ran to its [return]; the model, the e-mail and the
    token count returned are those of that iteration, and
    [fallback_count] is the number of iterations before it.  Or it
    raises the 429 error: then no iteration ran its block to the
    [return], the count reported is the number of iterations, and the
    loop stopped because the router found nothing or after 20
    iterations; no error is reported only if no iteration reached the
    upstream.  In both cases every iteration but the last selected a
    pair and failed. *)
Theorem run_ends_served_or_exhausted
    (envs : nat -> Env) (r : Redis)
    (out : Outcome) (l : Locals) (t : list Attempt) (r' : Redis) :
  _generate_with_fallback self request envs r = Some (out, l, t, r') ->
  (forall (i : nat) (a : Attempt),
     t !! i = Some a -> (S i < length t)%nat -> failed_attempt a)
  /\ match out with
     | Served res =>
         exists a kh pv,
           last t = Some a
           /\ a_selection a = Selected kh (res_model res) (res_key_email res) pv
           /\ a_upstream a = Some (UpResult (res_total_tokens res))
           /\ res_fallback_count res = Z.of_nat (length t) - 1
     | Exhausted tried blocked lasterr =>
         tried = Z.of_nat (length t) /\ blocked = blocked_models l
         /\ (forall a n, a ∈ t -> a_upstream a <> Some (UpResult n))
         /\ (length t = 20%nat
             \/ exists a, last t = Some a /\ a_selection a = AllKeysExhausted)
         /\ (lasterr = None -> forall a, a ∈ t -> a_upstream a = None)
     end.
Proof.
  unfold _generate_with_fallback. intros Hrun.
  pose proof (fallback_loop_attempts _ _ _ _ _ _ _ _ _ _ Hrun) as [Hlen Hmax].
  simpl in Hlen, Hmax. unfold max_attempts in Hmax.
  apply fallback_loop_outcome in Hrun as [Hbefore Hout].
  split; [done|].
  destruct out as [res|tried blocked lasterr].
  - destruct Hout as (a & kh & pv & Hlast & Hsel & Hup & Hcount).
    exists a, kh, pv. do 3 (split; [done|]). lia.
  - destruct Hout as (-> & -> & -> & Hno & Hend & Hnone).
    split; [lia|]. split; [done|]. split; [done|]. split.
    + destruct Hend as [Hmax'|?]; [|by right].
      left. unfold max_attempts in Hmax'. lia.
    + intros Hl. by apply Hnone.
Qed.

(** What a run without interference leaves in the database. *)
Lemma fallback_loop_accounts (fuel : nat) (envs : nat -> Env) (l : Locals)
    (r : Redis) (out : Outcome) (l' : Locals) (t : list Attempt) (r' : Redis) :
  fallback_loop fuel self request envs l r = Some (out, l', t, r') ->
  quiet envs ->
  plainkeys r' = plainkeys r
  /\ (forall kh, (forall a m, a ∈ t -> ~ selects a kh m) ->
        same_credential kh (keys r) (keys r'))
  /\ ((forall a, a ∈ t -> ~ raised_late a) ->
      match out with
      | Served res =>
          exists a kh,
            last t = Some a /\ selects a kh (res_model res)
            /\ rate r' = record_request (rate r)
                           (now (envs (Z.to_nat (total_attempts l' - 1))))
                           kh (res_model res) (res_total_tokens res)
      | Exhausted _ _ _ => rate r' = rate r
      end).
Proof.
  intros Hrun Hquiet. revert l r t Hrun.
  induction fuel as [|fuel IH]; intros l r t; [done|].
  simpl. destruct (Z.ltb_spec (total_attempts l) max_attempts) as [Hlt|Hge].
  - rewrite Hquiet.
    destruct (attempt self request _ l r) as [[s a] r1] eqn:Hatt.
    pose proof (attempt_mono _ _ _ _ _ _ _ _ Hatt) as [Htot _].
    apply attempt_step_shape in Hatt as (Hplain & Hkeys & Hshape).
    destruct s as [l1|l1|res l1]; simpl in Htot.
    + destruct (fallback_loop fuel self request envs l1 r1)
        as [[[[out1 l1'] t1] r1']|] eqn:Hrec; [|done].
      intros [= <- <- <- <-].
      apply IH in Hrec as (Hplain1 & Hkeys1 & Hout).
      destruct Hshape as (_ & Hrate & _).
      split; [congruence|]. split.
      * intros kh Hnot.
        apply (same_credential_trans kh _ (keys r1)).
        -- apply Hkeys. intros m. apply Hnot. by left.
        -- apply Hkeys1. intros b m Hb. apply Hnot. by right.
      * intros Hnolate.
        assert (rate r1 = rate r) as Hrate1.
        { apply Hrate. apply Hnolate. by left. }
        assert (forall b, b ∈ t1 -> ~ raised_late b) as Hnolate1.
        { intros b Hb. apply Hnolate. by right. }
        specialize (Hout Hnolate1).
        destruct out1 as [res|tried blocked lasterr].
        -- destruct Hout as (b & kh & Hlast & Hsel & Hr).
           exists b, kh. split; [by rewrite last_cons, Hlast|].
           split; [done|]. by rewrite Hr, Hrate1.
        -- by rewrite Hout.
    + intros [= <- <- <- <-].
      split; [done|]. split; [|by destruct Hshape as (_ & _ & -> & _)].
      intros kh Hnot. apply Hkeys. intros m. apply Hnot. by left.
    + intros [= <- <- <- <-].
      split; [done|]. split.
      * intros kh Hnot. apply Hkeys. intros m. apply Hnot. by left.
      * intros _. destruct Hshape as (kh & pv & Hsel & Hup & _ & Hrate & _).
        exists a, kh. split; [done|]. split; [by eexists _, _|].
        rewrite Hrate. do 2 f_equal. rewrite Htot. f_equal. lia.
  - intros [= <- <- <- <-]. split; [done|]. split; [|done]. by intros kh _.
Qed.

(** X17.  When no other task touches the database during a run, the
    run leaves the plaintext keys as they were, and the record and the
    active-set membership of every credential that no iteration
    selected.  When moreover no iteration raised after its upstream
    call had returned, the rate-limit database changes only when the
    run returns a result, and then by the one [record_request] of the
    iteration that served, at that iteration's clock, with the token
    count the upstream reported: iterations whose upstream call failed
    count against no limit. *)
Theorem run_accounts_for_the_served_request
    (envs : nat -> Env) (r : Redis)
    (out : Outcome) (l : Locals) (t : list Attempt) (r' : Redis) :
  _generate_with_fallback self request envs r = Some (out, l, t, r') ->
  quiet envs ->
  plainkeys r' = plainkeys r
  /\ (forall kh, (forall a m, a ∈ t -> ~ selects a kh m) ->
        same_credential kh (keys r) (keys r'))
  /\ ((forall a, a ∈ t -> ~ raised_late a) ->
      match out with
      | Served res =>
          exists a kh,
            last t = Some a /\ selects a kh (res_model res)
            /\ rate r' = record_request (rate r)
                           (now (envs (length t - 1)%nat))
                           kh (res_model res) (res_total_tokens res)
      | Exhausted _ _ _ => rate r' = rate r
      end).
Proof.
  unfold _generate_with_fallback. intros Hrun Hquiet.
  pose proof (fallback_loop_attempts _ _ _ _ _ _ _ _ _ _ Hrun) as [Hlen _].
  simpl in Hlen.
  destruct (fallback_loop_accounts _ _ _ _ _ _ _ _ Hrun Hquiet)
    as (Hplain & Hkeys & Hout).
  split; [done|]. split; [done|]. intros Hnolate. specialize (Hout Hnolate).
  destruct out as [res|tried blocked lasterr]; [|done].
  destruct Hout as (a & kh & Hlast & Hsel & Hrate).
  exists a, kh. do 2 (split; [done|]).
  rewrite Hrate. do 3 f_equal. lia.
Qed.

End chat_more.

Section chat_more_concrete.
Import constants.
Import rate_limiter.
Import api_key_service.
Import router_service.
Import chat.
Import props.
Import runs.
Import more.
Import scenario.

(** X16, witness: the run against the upstream that answers 429 on
    [gemini-2.5-pro]. *)
Lemma run_ends_served_or_exhausted_witness :
  (forall (i : nat) (a : Attempt),
     trace0 !! i = Some a -> (S i < length trace0)%nat -> failed_attempt a)
  /\ exists a kh pv,
       last trace0 = Some a
       /\ a_selection a = Selected kh GEMINI_25_FLASH "dev@example.com" pv
       /\ a_upstream a = Some (UpResult 150)
       /\ 2 = Z.of_nat (length trace0) - 1.
Proof.
  apply (run_ends_served_or_exhausted default_router request0 envs_pro_out redis0
           (Served (mkResult GEMINI_25_FLASH "dev@example.com" 150 2))
           locals0 trace0 redis0_after).
  vm_compute. reflexivity.
Defined.

(** X17, witness: the run against the upstream that answers 429 on
    [gemini-2.5-pro]; the two failed iterations record nothing. *)
Lemma run_accounts_for_the_served_request_witness :
  plainkeys redis0_after = plainkeys redis0
  /\ (forall kh, (forall a m, a ∈ trace0 -> ~ selects a kh m) ->
        same_credential kh (keys redis0) (keys redis0_after))
  /\ exists a kh,
       last trace0 = Some a /\ selects a kh GEMINI_25_FLASH
       /\ rate redis0_after
          = record_request (rate redis0)
              (now (envs_pro_out (length trace0 - 1)%nat))
              kh GEMINI_25_FLASH 150.
Proof.
  destruct (run_accounts_for_the_served_request default_router request0
              envs_pro_out redis0
              (Served (mkResult GEMINI_25_FLASH "dev@example.com" 150 2))
              locals0 trace0 redis0_after)
    as (Hplain & Hkeys & Hrate).
  - vm_compute. reflexivity.
  - intros n r. reflexivity.
  - split; [exact Hplain|]. split; [exact Hkeys|]. apply Hrate.
    intros a Ha (n & k & Hup).
    assert (Forall (fun b => forall n k,
                      a_upstream b <> Some (UpLateException n k)) trace0)
      as Hall.
    { vm_compute. repeat constructor; intros ? ?; discriminate. }
    rewrite Forall_forall in Hall. by apply (Hall a Ha n k).
Defined.

End chat_more_concrete.

(* ===================================================================== *)
(** * The simulated stream *)
(* ===================================================================== *)

Section chat_stream_properties.
Import chat_stream.

Lemma substring_all (s : string) (n : nat) :
  (String.length s <= n)%nat -> substring 0 n s = s.
Proof.
  revert n. induction s as [|c s IH]; intros [|n] Hn; simpl in *;
    try reflexivity; try lia.
  rewrite IH by lia. reflexivity.
Qed.

Lemma append_nil_l (s : string) : "" ++ s = s.
Proof. reflexivity. Qed.

Lemma append_cons (c : ascii) (s1 s2 : string) :
  String c s1 ++ s2 = String c (s1 ++ s2).
Proof. reflexivity. Qed.

Lemma substring_split (s : string) (a b : nat) :
  substring 0 a s ++ substring a b s = substring 0 (a + b) s.
Proof.
  revert a. induction s as [|c s IH]; intros [|a]; simpl.
  - by destruct b.
  - by destruct b.
  - reflexivity.
  - by rewrite append_cons, IH.
Qed.

Lemma substring_length (s : string) (i n : nat) :
  String.length (substring i n s) = Nat.min n (String.length s - i).
Proof.
  revert i n. induction s as [|c s IH]; intros [|i] [|n]; simpl;
    try reflexivity; try (rewrite IH; simpl; lia).
Qed.

Lemma assemble_chunks (chunks : list string) (rest : list SseEvent) :
  assemble (List.map ContentChunk chunks ++ rest)
  = foldr String.append (assemble rest) chunks.
Proof.
  induction chunks as [|c chunks IH]; simpl; [done|]. by rewrite IH.
Qed.

Lemma string_app_nil_r (s : string) : s ++ "" = s.
Proof.
  induction s as [|c s IH]; [done|]. by rewrite append_cons, IH.
Qed.

Lemma string_app_assoc (s1 s2 s3 : string) : (s1 ++ s2) ++ s3 = s1 ++ (s2 ++ s3).
Proof.
  induction s1 as [|c s1 IH]; [done|]. by rewrite !append_cons, IH.
Qed.

Lemma foldr_append_app (l1 l2 : list string) :
  foldr String.append "" (l1 ++ l2)%list
  = foldr String.append "" l1 ++ foldr String.append "" l2.
Proof.
  induction l1 as [|c l1 IH]; simpl; [done|].
  by rewrite IH, string_app_assoc.
Qed.

Lemma chunks_concat (s : string) (n m : nat) :
  foldr String.append ""
    (List.map (fun k => substring (k * n) n s) (seq 0 m))
  = substring 0 (m * n) s.
Proof.
  induction m as [|m IH].
  - simpl. by destruct s.
  - rewrite seq_S, List.map_app, foldr_append_app, IH. simpl.
    rewrite string_app_nil_r, substring_split. f_equal. lia.
Qed.

Lemma range_step_chunks (len : nat) :
  let m := ((len + chunk_size - 1) / chunk_size)%nat in
  (len <= m * chunk_size)%nat
  /\ (m = 0%nat <-> len = 0%nat)
  /\ (forall k, (k < m)%nat -> (k * chunk_size < len)%nat)
  /\ (forall k, (S k < m)%nat -> (k * chunk_size + chunk_size <= len)%nat).
Proof.
  cbv zeta. unfold chunk_size.
  pose proof (Nat.div_mod_eq (len + 30 - 1) 30) as Hdiv.
  pose proof (Nat.mod_upper_bound (len + 30 - 1) 30) as Hmod.
  repeat split; intros; lia.
Qed.

(** X18.  The stream simulated from a completed response delivers the
    content: the chunks a client receives, put together in the order
    received, are the content.  The events are the content chunks, then
    the final chunk with the finish reason, then the [DONE] marker;
    there is no content chunk for an empty content; no chunk is empty
    or longer than 30 characters, and every chunk but the last has
    exactly 30. *)
Theorem stream_delivers_the_content (content finish_reason : string) :
  assemble (_stream_sse content finish_reason) = content
  /\ exists chunks : list string,
       _stream_sse content finish_reason
       = (List.map ContentChunk chunks ++ [FinalChunk finish_reason; Done])%list
       /\ (chunks = [] <-> content = "")
       /\ forall (i : nat) (c : string), chunks !! i = Some c ->
            (1 <= String.length c <= 30)%nat
            /\ ((S i < length chunks)%nat -> String.length c = 30%nat).
Proof.
  unfold _stream_sse, range_step.
  rewrite List.map_map.
  destruct (range_step_chunks (String.length content))
    as (Hcover & Hzero & Hstart & Hfull).
  set (m := ((String.length content + chunk_size - 1) / chunk_size)%nat) in *.
  split.
  - rewrite <- (List.map_map (fun k => substring (k * chunk_size) chunk_size content)
                             ContentChunk).
    rewrite assemble_chunks. simpl.
    rewrite chunks_concat. by apply substring_all.
  - exists (List.map (fun k => substring (k * chunk_size) chunk_size content)
                     (seq 0 m)).
    split; [by rewrite List.map_map|]. split.
    + split.
      * intros Hnil. apply (f_equal length) in Hnil.
        rewrite length_map, length_seq in Hnil. simpl in Hnil.
        apply Hzero in Hnil. by destruct content.
      * intros ->. simpl in Hzero.
        assert (m = 0%nat) as -> by (by apply Hzero). done.
    + intros i c Hi. rewrite length_map, length_seq.
      rewrite list_lookup_fmap in Hi.
      destruct (seq 0 m !! i) as [k|] eqn:Hk; [|done].
      apply lookup_seq in Hk as [-> Hlt]. simpl in Hi. injection Hi as <-.
      rewrite substring_length. unfold chunk_size in *.
      pose proof (Hstart i Hlt). split; [lia|].
      intros Hnext. pose proof (Hfull i Hnext). lia.
Qed.

End chat_stream_properties.

(* ===================================================================== *)
(** * The embeddings endpoint *)
(* ===================================================================== *)

Section embed_properties.
Import constants.
Import rate_limiter.
Import api_key_service.
Import router_service.
Import chat.
Import gemini_client.
Import embed.
Import props.
Import more.
Import scenario.
Import more_situations.

(** The estimate for a text of 11 characters, and for one of 50:
    [int(2.75 * 1.2)] and [int(12.5 * 1.2)]. *)
Example estimate_tokens_values :
  estimate_tokens "hello world" = 3
  /\ estimate_tokens "The quick brown fox jumps over the lazy dog, twice" = 15
  /\ estimate_tokens "" = 0.
Proof. vm_compute. repeat split; reflexivity. Qed.

Lemma embedding_order (preferred : option string) :
  GEMINI_EMBEDDING ∈ _build_model_order preferred (Some {[CAP_EMBEDDING]}).
Proof.
  apply build_model_order_mem. left.
  assert (_build_model_order None (Some {[CAP_EMBEDDING]}) = [GEMINI_EMBEDDING])
    as ->; [|by left].
  unfold _build_model_order, caps_given, has_cap.
  rewrite (bool_decide_eq_true_2 (({[CAP_EMBEDDING]} : gset string) <> ∅)).
  - rewrite (bool_decide_eq_false_2
               (CAP_IMAGE_GENERATION ∈ ({[CAP_EMBEDDING]} : gset string))).
    + by rewrite (bool_decide_eq_true_2
                    (CAP_EMBEDDING ∈ ({[CAP_EMBEDDING]} : gset string)))
        by (by apply elem_of_singleton).
    + intros H. apply elem_of_singleton in H. discriminate H.
  - intros H. assert (CAP_EMBEDDING ∈ (∅ : gset string)) as Hin.
    { rewrite <- H. by apply elem_of_singleton. }
    by apply elem_of_empty in Hin.
Qed.

Lemma embedding_caps_ok (m : string) :
  caps_ok (Some {[CAP_EMBEDDING]}) m <-> m = GEMINI_EMBEDDING.
Proof.
  unfold caps_ok. simpl. split.
  - intros H.
    assert (CAP_EMBEDDING ∈ default ∅ (MODEL_CAPABILITIES !! m)) as Hin.
    { apply H.
      - apply bool_decide_eq_true. intros Heq.
        assert (CAP_EMBEDDING ∈ (∅ : gset string)) as Hin.
        { rewrite <- Heq. by apply elem_of_singleton. }
        by apply elem_of_empty in Hin.
      - by apply elem_of_singleton. }
    apply capabilities_catalog in Hin as (He & _). by apply He.
  - intros -> _ c Hc. apply elem_of_singleton in Hc as ->.
    unfold MODEL_CAPABILITIES. simpl.
    rewrite !(lookup_insert_ne _ _ GEMINI_EMBEDDING) by discriminate.
    rewrite lookup_insert_eq. simpl.
    apply elem_of_union. left. by apply elem_of_singleton.
Qed.

(** With the embedding capability required, the router finds nothing
    exactly when no credential survives for the embedding model. *)
Lemma select_embedding_exhausted (self : RouterService) (keys : KeyDb)
    (rate : RateDb) (now : Qc) (preferred : option string) (est : Z) :
  select_best_key_and_model self keys rate now preferred est
                            (Some {[CAP_EMBEDDING]}) None None
    = AllKeysExhausted
  <-> ~ exists kh entry, survivor keys rate now GEMINI_EMBEDDING est ∅ kh entry.
Proof.
  unfold select_best_key_and_model.
  pose proof (try_models_first_viable self keys rate now est
                (Some {[CAP_EMBEDDING]}) ∅ ∅
                (_build_model_order preferred (Some {[CAP_EMBEDDING]}))) as Hfirst.
  simpl default. case_bool_decide as Hne.
  - split; [|done]. intros _ (kh & entry & Hsv).
    by apply (no_active_key_no_survivor _ _ _ _ _ _ _ _ Hne) in Hsv.
  - destruct (try_models _ _ _ _ _ _ _ _ _) as [kh model em pv|].
    + split; [done|]. intros Hnone. destruct Hnone.
      destruct Hfirst as (_ & _ & _ & _ & _ & Hcaps & Hsv).
      apply embedding_caps_ok in Hcaps as ->. done.
    + split; [|done]. intros _ Hsv.
      apply (Hfirst GEMINI_EMBEDDING (embedding_order preferred)).
      split; [apply not_elem_of_empty|]. split; [|done].
      by apply embedding_caps_ok.
Qed.

(** X19.  The embeddings endpoint makes one attempt.  A response
    comes from [gemini-embedding-001], whatever model the request
    names, on a credential that survives for that model, and reports
    as usage the estimate of the texts; that estimate is what
    [record_request] is given, and the credential is credited with a
    success.  A failure never records a penalty against a credential,
    and with status 429 or 502 it ends the request with the database
    as it was (with status 500 the calls completed before the
    exception keep their effect).  The status is 429 exactly when no
    credential survives for the embedding model. *)
Theorem embeddings_are_served_in_one_attempt
    (self : RouterService) (now : Qc)
    (embed_content : string -> string -> Upstream)
    (request_model : string) (texts : list string) (r : Redis)
    (out : EmbedOutcome) (calls : list Call) (r' : Redis) :
  create_embeddings self now embed_content request_model texts r
    = (out, calls, r') ->
  (forall model toks, out = EmbeddingResponse model toks ->
     model = GEMINI_EMBEDDING /\ toks = estimate_all texts
     /\ exists kh entry,
          survivor (keys r) (rate r) now GEMINI_EMBEDDING toks ∅ kh entry
          /\ calls = [record_request_call kh GEMINI_EMBEDDING toks;
                      update_health_call kh true;
                      log_request_call kh GEMINI_EMBEDDING true 0]
          /\ rate r' = record_request (rate r) now kh GEMINI_EMBEDDING toks
          /\ keys r' = update_health (keys r) kh true
          /\ plainkeys r' = plainkeys r)
  /\ (forall status, out = HTTPException status ->
        (status = 429 \/ status = 500 \/ status = 502)
        /\ (status <> 500 -> r' = r /\ calls = [])
        /\ (forall kh, update_health_call kh false ∉ calls)
        /\ (status = 429 <->
            ~ exists kh entry,
                survivor (keys r) (rate r) now GEMINI_EMBEDDING
                         (estimate_all texts) ∅ kh entry)).
Proof.
  unfold create_embeddings. cbv zeta.
  pose proof (select_embedding_exhausted self (keys r) (rate r) now
                (Some (default request_model (OPENAI_MODEL_MAP !! request_model)))
                (estimate_all texts)) as Hex.
  assert (forall kh : string, update_health_call kh false ∉ ([] : list Call))
    as Hnil.
  { intros kh Hin. by apply elem_of_nil in Hin. }
  destruct (select_best_key_and_model _ _ _ _ _ _ _ _ _)
    as [kh model em pv|] eqn:Hsel.
  - assert (~ ~ exists kh entry,
                survivor (keys r) (rate r) now GEMINI_EMBEDDING
                         (estimate_all texts) ∅ kh entry) as Hsome.
    { intros Hnone. apply Hex in Hnone. discriminate Hnone. }
    assert (forall status, status <> 429 ->
              status = 429 <->
              ~ exists kh entry,
                  survivor (keys r) (rate r) now GEMINI_EMBEDDING
                           (estimate_all texts) ∅ kh entry) as Hnot429.
    { intros status Hne. split; [done|]. intros Hnone. by destruct Hsome. }
    pose proof Hsel as Hsv. apply select_survivor in Hsv as (entry & Hsv & _).
    assert (model = GEMINI_EMBEDDING) as ->.
    { unfold select_best_key_and_model in Hsel.
      case_bool_decide as Hne; [done|].
      pose proof (try_models_first_viable self (keys r) (rate r) now
                    (estimate_all texts) (Some {[CAP_EMBEDDING]}) ∅ ∅
                    (_build_model_order
                       (Some (default request_model
                                (OPENAI_MODEL_MAP !! request_model)))
                       (Some {[CAP_EMBEDDING]}))) as Hfirst.
      simpl default in Hsel. rewrite Hsel in Hfirst.
      destruct Hfirst as (_ & _ & _ & _ & _ & Hcaps & _).
      by apply embedding_caps_ok in Hcaps. }
    simpl in Hsv.
    destruct (plainkeys r !! kh) as [api_key|].
    + destruct (nonempty api_key).
      * destruct (embed_content api_key GEMINI_EMBEDDING) as [n|status| |n k].
        -- intros [= <- <- <-]. split; [|done].
           intros model toks [= <- <-]. do 2 (split; [done|]).
           exists kh, entry. done.
        -- intros [= <- <- <-]. split; [done|].
           intros st [= <-]. split; [tauto|]. split; [done|].
           split; [exact Hnil|]. by apply Hnot429.
        -- intros [= <- <- <-]. split; [done|].
           intros st [= <-]. split; [tauto|]. split; [done|].
           split; [exact Hnil|]. by apply Hnot429.
        -- intros [= <- <- <-]. split; [done|].
           intros st [= <-]. split; [tauto|]. split; [done|].
           split; [|by apply Hnot429].
           intros kh' Hin. apply (subseteq_take k) in Hin.
           rewrite !elem_of_cons, elem_of_nil in Hin.
           by destruct Hin as [Hin|[Hin|[Hin|[]]]].
      * intros [= <- <- <-]. split; [done|].
        intros st [= <-]. split; [tauto|]. split; [done|].
        split; [exact Hnil|]. by apply Hnot429.
    + intros [= <- <- <-]. split; [done|].
      intros st [= <-]. split; [tauto|]. split; [done|].
      split; [exact Hnil|]. by apply Hnot429.
  - intros [= <- <- <-]. split; [done|].
    intros st [= <-]. split; [tauto|]. split; [done|]. split; [exact Hnil|].
    split; [intros _; by apply Hex|done].
Qed.

(** X19, witness: a request that names [gpt-4] for its embeddings is
    served by the embedding model. *)
Lemma embeddings_are_served_in_one_attempt_witness :
  GEMINI_EMBEDDING = GEMINI_EMBEDDING
  /\ estimate_all ["hello world"] = estimate_all ["hello world"]
  /\ exists kh entry,
       survivor (keys embed_redis) (rate embed_redis) clock GEMINI_EMBEDDING
                (estimate_all ["hello world"]) ∅ kh entry
       /\ [record_request_call "eee" GEMINI_EMBEDDING (estimate_all ["hello world"]);
           update_health_call "eee" true;
           log_request_call "eee" GEMINI_EMBEDDING true 0]
          = [record_request_call kh GEMINI_EMBEDDING (estimate_all ["hello world"]);
             update_health_call kh true;
             log_request_call kh GEMINI_EMBEDDING true 0]
       /\ rate (create_embeddings default_router clock embed_ok "gpt-4"
                  ["hello world"] embed_redis).2
          = record_request (rate embed_redis) clock kh GEMINI_EMBEDDING
                           (estimate_all ["hello world"])
       /\ keys (create_embeddings default_router clock embed_ok "gpt-4"
                  ["hello world"] embed_redis).2
          = update_health (keys embed_redis) kh true
       /\ plainkeys (create_embeddings default_router clock embed_ok "gpt-4"
                       ["hello world"] embed_redis).2
          = plainkeys embed_redis.
Proof.
  destruct (embeddings_are_served_in_one_attempt default_router clock embed_ok
              "gpt-4" ["hello world"] embed_redis
              (EmbeddingResponse GEMINI_EMBEDDING (estimate_all ["hello world"]))
              [record_request_call "eee" GEMINI_EMBEDDING (estimate_all ["hello world"]);
               update_health_call "eee" true;
               log_request_call "eee" GEMINI_EMBEDDING true 0]
              (create_embeddings default_router clock embed_ok "gpt-4"
                 ["hello world"] embed_redis).2) as [Hserved _].
  - vm_compute. reflexivity.
  - exact (Hserved _ _ eq_refl).
Defined.

End embed_properties.

(* ===================================================================== *)
(** * The background rounds of the monitor: credentials *)
(* ===================================================================== *)

Section one_key_at_a_time.
Import api_key_service.
Import more.

(** A loop over the entries of a dict whose body touches, and depends
    on, the credential it is called for only. *)
Variable step : KeyDb -> string -> APIKeyEntry -> KeyDb.
Hypothesis step_elsewhere :
  forall d kh e, same_elsewhere kh d (step d kh e).
Hypothesis step_local :
  forall d d1 kh e,
    same_credential kh d d1 -> same_credential kh (step d kh e) (step d1 kh e).

Lemma foldl_one_key_at_a_time (l : list (string * APIKeyEntry)) (d : KeyDb) :
  NoDup l.*1 ->
  (forall kh, (kh ∉ l.*1) ->
     same_credential kh d (foldl (fun d p => step d p.1 p.2) d l))
  /\ (forall kh e, (kh, e) ∈ l ->
        same_credential kh (step d kh e)
                        (foldl (fun d p => step d p.1 p.2) d l)).
Proof.
  revert d. induction l as [|[k0 e0] l IH]; intros d Hnd.
  - split; [intros kh _; apply same_credential_refl|].
    intros kh e Hin. by apply elem_of_nil in Hin.
  - simpl in Hnd. apply NoDup_cons in Hnd as [Hk0 Hnd].
    destruct (IH (step d k0 e0) Hnd) as [IHout IHin].
    simpl. split.
    + intros kh Hkh. apply not_elem_of_cons in Hkh as [Hne Hkh].
      apply (same_credential_trans kh _ (step d k0 e0)).
      * by apply (step_elsewhere d k0 e0).
      * by apply IHout.
    + intros kh e [[= -> ->]|Hin]%elem_of_cons.
      * by apply IHout.
      * assert (kh <> k0) as Hne.
        { intros ->. apply Hk0. apply list_elem_of_fmap. by exists (k0, e). }
        apply (same_credential_trans kh _ (step (step d k0 e0) kh e)).
        -- apply step_local. by apply (step_elsewhere d k0 e0).
        -- by apply IHin.
Qed.

End one_key_at_a_time.

Section monitor_credentials.
Import constants.
Import api_key_service.
Import gemini_client.
Import health_monitor.
Import more.
Import scenario.
Import more_situations.

(** ** [_health_loop] *)

Lemma recover_cases (plainkeys : gmap string string)
    (test : string -> string -> bool) (d : KeyDb) (kh : string) (e : APIKeyEntry) :
  (recoverable plainkeys test kh e
   /\ recover plainkeys test d kh e = (reactivate_key d kh).1)
  \/ (~ recoverable plainkeys test kh e /\ recover plainkeys test d kh e = d).
Proof.
  unfold recover, recoverable.
  destruct (plainkeys !! kh) as [pk|]; [|right; split; [|done]].
  - destruct (nonempty pk) eqn:Hpk.
    + destruct (existsb (test pk) (models_to_test e)) eqn:Hex.
      * left. split; [|done].
        apply existsb_exists in Hex as (m & Hm & Ht).
        exists pk, m. split; [done|]. split.
        { intros ->. discriminate Hpk. }
        split; [by apply list_elem_of_In|done].
      * right. split; [|done].
        intros (pk' & m & [= <-] & _ & Hm & Ht).
        assert (existsb (test pk) (models_to_test e) = true) as Habs.
        { apply existsb_exists. exists m. split; [by apply list_elem_of_In|done]. }
        congruence.
    + right. split; [|done].
      intros (pk' & m & [= <-] & Hne & _).
      unfold nonempty in Hpk. apply negb_false_iff, String.eqb_eq in Hpk. done.
  - by intros (pk' & m & [=] & _).
Qed.

Lemma recover_elsewhere (plainkeys : gmap string string)
    (test : string -> string -> bool) (d : KeyDb) (kh : string) (e : APIKeyEntry) :
  same_elsewhere kh d (recover plainkeys test d kh e).
Proof.
  destruct (recover_cases plainkeys test d kh e) as [[_ ->]|[_ ->]].
  - apply reactivate_key_elsewhere.
  - apply same_elsewhere_refl.
Qed.

Lemma reactivate_key_local (d d1 : KeyDb) (kh : string) :
  same_credential kh d d1 ->
  same_credential kh (reactivate_key d kh).1 (reactivate_key d1 kh).1.
Proof.
  intros [Hk Hact]. unfold reactivate_key. rewrite Hk.
  unfold same_credential.
  destruct (apikeys d !! kh) as [e|] eqn:He; simpl; [|split; [congruence|done]].
  split; [by rewrite !lookup_insert_eq|].
  rewrite !elem_of_union, !elem_of_singleton. tauto.
Qed.

Lemma recover_local (plainkeys : gmap string string)
    (test : string -> string -> bool) (d d1 : KeyDb) (kh : string) (e : APIKeyEntry) :
  same_credential kh d d1 ->
  same_credential kh (recover plainkeys test d kh e)
                  (recover plainkeys test d1 kh e).
Proof.
  intros Hsame.
  destruct (recover_cases plainkeys test d kh e) as [[Hr ->]|[Hr ->]];
    destruct (recover_cases plainkeys test d1 kh e) as [[Hr1 ->]|[Hr1 ->]];
    try done.
  by apply reactivate_key_local.
Qed.

Lemma recover_consistent (plainkeys : gmap string string)
    (test : string -> string -> bool) (l : list (string * APIKeyEntry)) (d : KeyDb) :
  index_consistent d ->
  index_consistent (foldl (fun d p => recover plainkeys test d p.1 p.2) d l).
Proof.
  revert d. induction l as [|[k0 e0] l IH]; intros d Hc; [done|].
  simpl. apply IH.
  destruct (recover_cases plainkeys test d k0 e0) as [[_ ->]|[_ ->]]; [|done].
  by apply index_consistent_reactivate.
Qed.

Lemma disabled_spec (db : KeyDb) (kh : string) (e : APIKeyEntry) :
  (kh, e) ∈ map_to_list
              (filter (fun p : string * APIKeyEntry => is_active p.2 = false)
                      (get_all_keys db))
  <-> apikeys db !! kh = Some e /\ is_active e = false.
Proof.
  rewrite elem_of_map_to_list, map_lookup_filter_Some. reflexivity.
Qed.

(** X20.  A round of the health loop brings back the disabled
    credentials that answer, and touches nothing else.  A disabled
    credential that has a plaintext key and for which the upstream
    answers the test on one of its models (on one of the first two of
    the priority list when it advertises none) is active afterwards,
    with health score 100 and no error on record, its other fields
    unchanged.  Every other credential, active, disabled without
    answer or not stored, keeps its record and its membership of the
    active set.  The round keeps the active set an index of the
    entries whose flag is set. *)
Theorem health_round_recovers_what_answers
    (plainkeys : gmap string string) (test : string -> string -> bool)
    (db : KeyDb) :
  let db' := _health_loop plainkeys test db in
  (forall kh e,
     apikeys db !! kh = Some e -> is_active e = false ->
     recoverable plainkeys test kh e ->
     apikeys db' !! kh
       = Some (mkAPIKeyEntry (id e) (email e) (api_key_preview e) (project_id e)
                 (created_at e) (last_validated e) true 100 0
                 (available_models e) (notes e))
     /\ kh ∈ active_keys db')
  /\ (forall kh,
        (forall e, apikeys db !! kh = Some e -> is_active e = false ->
                   ~ recoverable plainkeys test kh e) ->
        same_credential kh db db')
  /\ (index_consistent db -> index_consistent db').
Proof.
  cbv zeta. unfold _health_loop. cbv zeta.
  set (disabled := filter (fun p : string * APIKeyEntry => is_active p.2 = false)
                          (get_all_keys db)).
  destruct (foldl_one_key_at_a_time (recover plainkeys test)
              (recover_elsewhere plainkeys test) (recover_local plainkeys test)
              (map_to_list disabled) db (NoDup_fst_map_to_list disabled))
    as [Hout Hin].
  case_bool_decide as Hempty.
  - assert (forall kh e, apikeys db !! kh = Some e -> is_active e = false -> False)
      as Hnone.
    { intros kh e Hk Hact.
      assert (disabled !! kh = Some e) as Hd.
      { by apply map_lookup_filter_Some. }
      rewrite Hempty, lookup_empty in Hd. discriminate Hd. }
    split; [intros kh e Hk Hact; by destruct (Hnone kh e)|].
    split; [intros kh _; apply same_credential_refl|done].
  - split; [|split].
    + intros kh e Hk Hact Hrec.
      assert ((kh, e) ∈ map_to_list disabled) as Hmem by (by apply disabled_spec).
      destruct (Hin kh e Hmem) as [Hlook Hactive].
      destruct (recover_cases plainkeys test db kh e) as [[_ Heq]|[Hno _]];
        [|done].
      rewrite Heq in Hlook, Hactive. unfold reactivate_key in Hlook, Hactive.
      rewrite Hk in Hlook, Hactive. simpl in Hlook, Hactive.
      rewrite lookup_insert_eq in Hlook. split; [done|].
      apply Hactive. apply elem_of_union_l. by apply elem_of_singleton.
    + intros kh Hno.
      destruct (apikeys db !! kh) as [e|] eqn:Hk.
      * destruct (is_active e) eqn:Hact.
        -- apply Hout. intros Hfst. apply list_elem_of_fmap in Hfst
             as ([k e'] & -> & Hmem). simpl in *.
           apply disabled_spec in Hmem as [Hk' Hact']. congruence.
        -- assert ((kh, e) ∈ map_to_list disabled) as Hmem
             by (by apply disabled_spec).
           pose proof (Hin kh e Hmem) as Hsame.
           destruct (recover_cases plainkeys test db kh e) as [[Hrec _]|[_ Heq]].
           ++ by destruct (Hno e eq_refl Hact).
           ++ by rewrite Heq in Hsame.
      * apply Hout. intros Hfst. apply list_elem_of_fmap in Hfst
          as ([k e'] & -> & Hmem). simpl in *.
        apply disabled_spec in Hmem as [Hk' _]. congruence.
    + apply recover_consistent.
Qed.

(** ** [_model_redetect_loop] *)

Lemma redetect_cases (plainkeys : gmap string string)
    (detect : string -> list string) (clock : string -> Qc)
    (d : KeyDb) (kh : string) :
  redetect plainkeys detect clock d kh = d
  \/ exists plain_key,
       plainkeys !! kh = Some plain_key /\ plain_key <> ""
       /\ detect plain_key <> []
       /\ redetect plainkeys detect clock d kh
          = (update_models d (clock kh) kh (detect plain_key)).1.
Proof.
  unfold redetect.
  destruct (plainkeys !! kh) as [pk|]; [|by left].
  destruct (nonempty pk) eqn:Hpk; [|by left].
  destruct (detect pk) as [|m ms] eqn:Hd; [by left|].
  right. exists pk. split; [done|]. split.
  { intros ->. discriminate Hpk. }
  rewrite Hd. done.
Qed.

Lemma redetect_elsewhere (plainkeys : gmap string string)
    (detect : string -> list string) (clock : string -> Qc)
    (d : KeyDb) (kh : string) (e : APIKeyEntry) :
  same_elsewhere kh d (redetect plainkeys detect clock d kh).
Proof.
  destruct (redetect_cases plainkeys detect clock d kh)
    as [->|(pk & _ & _ & _ & ->)].
  - apply same_elsewhere_refl.
  - apply update_models_elsewhere.
Qed.

Lemma update_models_local (d d1 : KeyDb) (now : Qc) (kh : string)
    (detected : list string) :
  same_credential kh d d1 ->
  same_credential kh (update_models d now kh detected).1
                  (update_models d1 now kh detected).1.
Proof.
  intros [Hk Hact]. unfold update_models. rewrite Hk.
  unfold same_credential.
  destruct (apikeys d !! kh) as [e|] eqn:He; simpl; [|split; [congruence|done]].
  case_bool_decide; simpl; [|split; [congruence|done]].
  split; [by rewrite !lookup_insert_eq|done].
Qed.

Lemma redetect_local (plainkeys : gmap string string)
    (detect : string -> list string) (clock : string -> Qc)
    (d d1 : KeyDb) (kh : string) (e : APIKeyEntry) :
  same_credential kh d d1 ->
  same_credential kh (redetect plainkeys detect clock d kh)
                  (redetect plainkeys detect clock d1 kh).
Proof.
  intros Hsame. unfold redetect.
  destruct (plainkeys !! kh) as [pk|]; [|done].
  destruct (nonempty pk); [|done].
  destruct (detect pk) as [|m ms]; [done|].
  by apply update_models_local.
Qed.

Lemma redetect_active_set (plainkeys : gmap string string)
    (detect : string -> list string) (clock : string -> Qc)
    (l : list (string * APIKeyEntry)) (d : KeyDb) :
  active_keys (foldl (fun d p => redetect plainkeys detect clock d p.1) d l)
  = active_keys d.
Proof.
  revert d. induction l as [|[k0 e0] l IH]; intros d; [done|].
  simpl. rewrite IH.
  destruct (redetect_cases plainkeys detect clock d k0)
    as [->|(pk & _ & _ & _ & ->)]; [done|].
  unfold update_models. destruct (apikeys d !! k0); [|done].
  by case_bool_decide.
Qed.

Lemma active_spec (db : KeyDb) (kh : string) (e : APIKeyEntry) :
  (kh, e) ∈ map_to_list
              (filter (fun p : string * APIKeyEntry => is_active p.2 = true)
                      (get_all_keys db))
  <-> apikeys db !! kh = Some e /\ is_active e = true.
Proof.
  rewrite elem_of_map_to_list, map_lookup_filter_Some. reflexivity.
Qed.

(** X21.  A round of the model re-detection changes model lists and
    nothing else.  The active set is unchanged.  A credential that is
    not active, has no plaintext key, or for which nothing was detected
    keeps its record.  An active credential with a plaintext key for
    which a non-empty list [detected] was detected advertises
    afterwards [detected] if its members differ from those advertised
    before, and what it advertised before otherwise; its flag, health
    score, error counter and registration are unchanged.  So a round
    never leaves an empty model list where there was none. *)
Theorem redetect_round_changes_model_lists_only
    (plainkeys : gmap string string) (detect : string -> list string)
    (clock : string -> Qc) (db : KeyDb) :
  let db' := _model_redetect_loop plainkeys detect clock db in
  active_keys db' = active_keys db
  /\ (forall kh, apikeys db !! kh = None -> apikeys db' !! kh = None)
  /\ (forall kh e, apikeys db !! kh = Some e ->
        exists e',
          apikeys db' !! kh = Some e'
          /\ same_registration e e'
          /\ is_active e' = is_active e /\ health_score e' = health_score e
          /\ consecutive_errors e' = consecutive_errors e
          /\ (available_models e <> [] -> available_models e' <> [])
          /\ (is_active e = false \/ plainkeys !! kh = None
              \/ plainkeys !! kh = Some ""
              \/ (exists pk, plainkeys !! kh = Some pk /\ detect pk = [])
              -> e' = e)
          /\ (forall pk, is_active e = true -> plainkeys !! kh = Some pk ->
                pk <> "" -> detect pk <> [] ->
                if bool_decide ((list_to_set (available_models e) : gset string)
                                <> list_to_set (detect pk))
                then available_models e' = detect pk
                     /\ last_validated e' = Some (clock kh)
                else e' = e)).
Proof.
  cbv zeta. unfold _model_redetect_loop. cbv zeta.
  set (active := filter (fun p : string * APIKeyEntry => is_active p.2 = true)
                        (get_all_keys db)).
  destruct (foldl_one_key_at_a_time
              (fun d kh (_ : APIKeyEntry) => redetect plainkeys detect clock d kh)
              (redetect_elsewhere plainkeys detect clock)
              (redetect_local plainkeys detect clock)
              (map_to_list active) db (NoDup_fst_map_to_list active))
    as [Hout Hin].
  pose proof (redetect_active_set plainkeys detect clock (map_to_list active) db)
    as Hset.
  assert (forall kh, (forall e, apikeys db !! kh = Some e -> is_active e = false) ->
            kh ∉ (map_to_list active).*1) as Hskip.
  { intros kh Hno Hfst. apply list_elem_of_fmap in Hfst as ([k e'] & -> & Hmem).
    simpl in *. apply active_spec in Hmem as [Hk' Hact'].
    rewrite (Hno e' Hk') in Hact'. discriminate Hact'. }
  assert (forall e : APIKeyEntry,
            same_registration e e /\ is_active e = is_active e
            /\ health_score e = health_score e
            /\ consecutive_errors e = consecutive_errors e
            /\ (available_models e <> [] -> available_models e <> [])) as Hrefl.
  { intros e. by repeat split. }
  case_bool_decide as Hempty.
  - split; [done|]. split; [done|].
    intros kh e Hk. exists e. split; [done|].
    destruct (Hrefl e) as (? & ? & ? & ? & ?). do 5 (split; [done|]).
    split; [done|].
    intros pk Hact. assert (active !! kh = Some e) as Hd.
    { by apply map_lookup_filter_Some. }
    rewrite Hempty, lookup_empty in Hd. discriminate Hd.
  - split; [done|]. split.
    + intros kh Hk.
      destruct (Hout kh) as [Hlook _]; [|by rewrite Hlook].
      apply Hskip. intros e He. congruence.
    + intros kh e Hk.
      destruct (is_active e) eqn:Hact.
      * assert ((kh, e) ∈ map_to_list active) as Hmem by (by apply active_spec).
        destruct (Hin kh e Hmem) as [Hlook _].
        destruct (redetect_cases plainkeys detect clock db kh)
          as [Heq|(pk & Hpk & Hne & Hdet & Heq)]; rewrite Heq in Hlook.
        -- exists e. split; [congruence|].
           destruct (Hrefl e) as (? & ? & ? & ? & ?). do 5 (split; [done|]).
           split; [done|].
           intros pk Hact' Hpk Hne Hdet. revert Heq. unfold redetect.
           rewrite Hpk.
           assert (nonempty pk = true) as ->.
           { unfold nonempty. apply negb_true_iff. by apply String.eqb_neq. }
           destruct (detect pk) as [|m ms] eqn:Hd; [done|].
           unfold update_models. rewrite Hk.
           case_bool_decide as Hdiff; [|done]. simpl. intros Heq.
           apply (f_equal (fun d => apikeys d !! kh)) in Heq. simpl in Heq.
           rewrite lookup_insert_eq, Hk in Heq. injection Heq as Heq.
           apply (f_equal available_models) in Heq. simpl in Heq.
           destruct Hdiff. by rewrite Heq.
        -- unfold update_models in Hlook. rewrite Hk in Hlook.
           case_bool_decide as Hdiff; simpl in Hlook.
           ++ rewrite lookup_insert_eq in Hlook.
              eexists. split; [exact Hlook|]. simpl.
              split; [by repeat split|]. do 3 (split; [done|]).
              split; [done|]. split.
              { intros [Hf|[Hf|[Hf|(pk' & Hpk' & Hd')]]]; congruence. }
              intros pk' _ Hpk' _ _.
              assert (pk' = pk) as -> by congruence.
              by rewrite (bool_decide_eq_true_2 _ Hdiff).
           ++ exists e. split; [congruence|].
              destruct (Hrefl e) as (? & ? & ? & ? & ?). do 5 (split; [done|]).
              split; [done|].
              intros pk' _ Hpk' _ _.
              assert (pk' = pk) as -> by congruence.
              rewrite bool_decide_eq_false_2; [done|].
              intros Hn. by apply Hn.
      * destruct (Hout kh) as [Hlook _].
        { apply Hskip. intros e' He'. congruence. }
        exists e. split; [congruence|].
        destruct (Hrefl e) as (? & ? & ? & ? & ?). do 5 (split; [done|]).
        split; [done|]. intros pk Habs. discriminate Habs.
Qed.

(** ** [detect_available_models] *)

Lemma filter_sublist_of {A : Type} (f : A -> bool) (l : list A) :
  sublist (List.filter f l) l.
Proof.
  induction l as [|x l IH]; simpl; [constructor|].
  destruct (f x); by constructor.
Qed.

Lemma probe_sublist (test : string -> nat -> bool) (models : list string) :
  sublist (_probe_models_parallel test models) models.
Proof.
  unfold _probe_models_parallel.
  induction models as [|m models IH]; simpl; [constructor|].
  unfold _probe at 1.
  destruct (test m 0%nat); [by constructor|].
  destruct (test m 1%nat); by constructor.
Qed.

(** X22.  [detect_available_models] returns models it was asked
    about, in the order asked and without repeating one asked once.
    When one of the three listings comes back non-empty, the first such
    listing decides: the result is the models asked about that it
    lists.  Only when all three come back empty are the models probed,
    and then the result is the models for which the first or the
    second probe passed. *)
Theorem detection_returns_requested_models
    (list_models_from_api : nat -> list string) (test : string -> nat -> bool)
    (models : list string) :
  let detected := detect_available_models list_models_from_api test models in
  sublist detected models
  /\ (NoDup models -> NoDup detected)
  /\ (forall (k : nat),
        (k < 3)%nat -> list_models_from_api k <> [] ->
        (forall j, (j < k)%nat -> list_models_from_api j = []) ->
        forall m, m ∈ detected <-> m ∈ models /\ m ∈ list_models_from_api k)
  /\ ((forall k, (k < 3)%nat -> list_models_from_api k = []) ->
      forall m, m ∈ detected <->
        m ∈ models /\ (test m 0%nat = true \/ test m 1%nat = true)).
Proof.
  cbv zeta.
  assert (sublist (detect_available_models list_models_from_api test models)
                  models) as Hsub.
  { unfold detect_available_models.
    destruct (list_models_from_api 0%nat); [|apply filter_sublist_of].
    destruct (list_models_from_api 1%nat); [|apply filter_sublist_of].
    destruct (list_models_from_api 2%nat); [|apply filter_sublist_of].
    apply probe_sublist. }
  split; [done|]. split; [intros Hnd; by apply (sublist_NoDup _ _ Hnd Hsub)|].
  assert (forall (listed : list string) m,
            m ∈ List.filter (fun m => bool_decide (m ∈ listed)) models
            <-> m ∈ models /\ m ∈ listed) as Hfilter.
  { intros listed m. rewrite !list_elem_of_In, filter_In.
    rewrite bool_decide_eq_true, !list_elem_of_In. reflexivity. }
  split.
  - intros k Hk Hne Hbefore m. unfold detect_available_models.
    destruct k as [|[|[|k]]]; [| | |lia].
    + destruct (list_models_from_api 0%nat) as [|x l]; [done|]. apply Hfilter.
    + rewrite (Hbefore 0%nat) by lia.
      destruct (list_models_from_api 1%nat) as [|x l]; [done|]. apply Hfilter.
    + rewrite (Hbefore 0%nat), (Hbefore 1%nat) by lia.
      destruct (list_models_from_api 2%nat) as [|x l]; [done|]. apply Hfilter.
  - intros Hall m. unfold detect_available_models.
    rewrite (Hall 0%nat), (Hall 1%nat), (Hall 2%nat) by lia.
    unfold _probe_models_parallel. rewrite list_elem_of_omap. split.
    + intros (m' & Hm' & Hp). unfold _probe in Hp.
      destruct (test m' 0%nat) eqn:H0; [injection Hp as ->; tauto|].
      destruct (test m' 1%nat) eqn:H1; [injection Hp as ->; tauto|done].
    + intros [Hm [H0|H1]]; exists m; (split; [done|]); unfold _probe.
      * by rewrite H0.
      * rewrite H1. by destruct (test m 0%nat).
Qed.

End monitor_credentials.

(* ===================================================================== *)
(** * The background rounds of the monitor: rate windows *)
(* ===================================================================== *)

Section monitor_windows.
Import constants.
Import rate_limiter.
Import api_key_service.
Import health_monitor.
Import props.
Import more.
Import scenario.
Import more_situations.

(** ** [_cleanup_loop] *)

Lemma cleanup_fold_quantities (clock : nat -> Qc)
    (targets : list (string * string)) (db : RateDb) (k0 : nat)
    (now' : Qc) (kh model : string) :
  (forall k, (clock k <= now')%Qc) ->
  let db' :=
    (foldl (fun '(d, k) '(kh, model) =>
              (cleanup_old_data d (clock k) kh model, S k))
           (db, k0) targets).1 in
  rpm_in_window db' now' kh model = rpm_in_window db now' kh model
  /\ rpd_today db' now' kh model = rpd_today db now' kh model
  /\ tpm_in_window db' now' kh model = tpm_in_window db now' kh model.
Proof.
  intros Hclock. cbv zeta. revert db k0.
  induction targets as [|[kh0 m0] targets IH]; intros db k0; [done|].
  simpl. destruct (IH (cleanup_old_data db (clock k0) kh0 m0) (S k0))
    as (Hrpm & Hrpd & Htpm).
  destruct (cleanup_quantities db (clock k0) now' kh0 m0 kh model (Hclock k0))
    as (Hrpm0 & Hrpd0 & Htpm0).
  split; [congruence|]. split; congruence.
Qed.

Lemma pruned_cleanup_target (lo now : Qc) (db : RateDb) (kh model : string) :
  (lo <= now)%Qc -> pruned_since lo (cleanup_old_data db now kh model) kh model.
Proof.
  intros Hlo. apply window_start_mono in Hlo.
  unfold pruned_since. cbv zeta. rewrite cleanup_hash. cbv zeta.
  rewrite bool_decide_eq_true_2 by done. simpl.
  destruct (hash_is_empty (hgetall db (_rkey kh model))) eqn:Hempty; simpl.
  - unfold hash_is_empty in Hempty.
    destruct (requests _); [discriminate Hempty|].
    destruct (tokens _); [discriminate Hempty|].
    simpl. split; intros x Hx; by apply elem_of_nil in Hx.
  - split.
    + intros t Ht. apply recent_requests_spec in Ht as [_ Ht].
      by apply Qcle_lt_trans with (now - Qc_of_Z 60)%Qc.
    + intros e He. apply recent_entries_spec in He as [_ He].
      by apply Qcle_lt_trans with (now - Qc_of_Z 60)%Qc.
Qed.

Lemma pruned_cleanup_kept (lo now : Qc) (db : RateDb) (kh model kh' model' : string) :
  pruned_since lo db kh' model' ->
  pruned_since lo (cleanup_old_data db now kh model) kh' model'.
Proof.
  unfold pruned_since. cbv zeta. rewrite cleanup_hash. cbv zeta.
  intros [Hreq Htok].
  destruct (bool_decide _ && negb _); [|done]. simpl. split.
  - intros t Ht. apply recent_requests_spec in Ht as [Ht _]. by apply Hreq.
  - intros e He. apply recent_entries_spec in He as [He _]. by apply Htok.
Qed.

Lemma cleanup_fold_pruned (lo : Qc) (clock : nat -> Qc)
    (targets : list (string * string)) (db : RateDb) (k0 : nat) :
  (forall k, (lo <= clock k)%Qc) ->
  let db' :=
    (foldl (fun '(d, k) '(kh, model) =>
              (cleanup_old_data d (clock k) kh model, S k))
           (db, k0) targets).1 in
  (forall kh model, pruned_since lo db kh model -> pruned_since lo db' kh model)
  /\ (forall kh model, (kh, model) ∈ targets -> pruned_since lo db' kh model).
Proof.
  intros Hclock. cbv zeta. revert db k0.
  induction targets as [|[kh0 m0] targets IH]; intros db k0.
  - split; [done|]. intros kh model Hin. by apply elem_of_nil in Hin.
  - simpl. destruct (IH (cleanup_old_data db (clock k0) kh0 m0) (S k0))
      as [Hkept Hin].
    split.
    + intros kh model Hp. by apply Hkept, pruned_cleanup_kept.
    + intros kh model [[= -> ->]|Hmem]%elem_of_cons; [|by apply Hin].
      by apply Hkept, pruned_cleanup_target.
Qed.

Lemma cleanup_targets_spec (keys : KeyDb) (kh model : string) :
  (kh, model) ∈ cleanup_targets keys
  <-> exists e, get_active_keys keys !! kh = Some e /\ model ∈ available_models e.
Proof.
  unfold cleanup_targets. rewrite list_elem_of_In, in_flat_map. split.
  - intros ([k e] & Hin & Hm). simpl in Hm.
    apply in_map_iff in Hm as (m & [= <- <-] & Hm).
    exists e. split; [|by apply list_elem_of_In].
    apply elem_of_map_to_list. by apply list_elem_of_In.
  - intros (e & Hk & Hm). exists (kh, e). split.
    + apply list_elem_of_In. by apply elem_of_map_to_list.
    + simpl. apply in_map_iff. exists model. split; [done|].
      by apply list_elem_of_In.
Qed.

(** X23.  A round of the cleanup loop prunes without changing an
    answer.  At any instant not before the clock readings of the
    round, [check_rate_limit] and [get_usage_stats] give for every
    credential and model what they gave before the round.  After the
    round the window stored for an active credential and a model it
    advertises holds no request stamp and no token entry older than a
    minute before the first clock reading of the round. *)
Theorem cleanup_round_prunes_and_changes_no_answer
    (clock : nat -> Qc) (keys : KeyDb) (db : RateDb) :
  (forall now' kh model est,
     (forall k, (clock k <= now')%Qc) ->
     check_rate_limit (_cleanup_loop clock keys db) now' kh model est
       = check_rate_limit db now' kh model est
     /\ get_usage_stats (_cleanup_loop clock keys db) now' kh model
        = get_usage_stats db now' kh model)
  /\ (forall lo kh e model,
        (forall k, (lo <= clock k)%Qc) ->
        get_active_keys keys !! kh = Some e -> model ∈ available_models e ->
        pruned_since lo (_cleanup_loop clock keys db) kh model).
Proof.
  split.
  - intros now' kh model est Hclock.
    destruct (cleanup_fold_quantities clock (cleanup_targets keys) db 0%nat
                now' kh model Hclock) as (Hrpm & Hrpd & Htpm).
    by apply answers_from_quantities.
  - intros lo kh e model Hclock Hk Hm.
    apply (cleanup_fold_pruned lo clock (cleanup_targets keys) db 0%nat Hclock).
    apply cleanup_targets_spec. eauto.
Qed.

End monitor_windows.

(* ===================================================================== *)
(** * The access tokens *)
(* ===================================================================== *)

Section token_service_properties.
Import token_service.
Import token_props.



(** The usage dict [record_usage] stores. *)
Lemma record_usage_entry (_hash_token : string -> string) (db : TokenDb)
    (token model : string) (tokens_used : Z) (e : TokenEntry) :
  tokens_hash db !! _hash_token token = Some e ->
  exists e',
    tokens_hash (record_usage _hash_token db token model tokens_used)
      !! _hash_token token = Some e'
    /\ usage e' = <[model := mkModelUsage (requests (model_counters e model) + 1)
                                          (tokens (model_counters e model)
                                           + tokens_used)]> (usage e)
    /\ total_requests e' = total_requests e + 1
    /\ total_tokens e' = total_tokens e + tokens_used
    /\ is_active e' = is_active e /\ id e' = id e /\ name e' = name e.
Proof.
  intros Hk. unfold record_usage. rewrite Hk. cbv zeta.
  eexists. simpl. rewrite lookup_insert_eq. split; [reflexivity|]. simpl.
  split; [|done]. unfold model_counters.
  destruct (usage e !! model) as [c|] eqn:Hm; simpl.
  - rewrite lookup_insert_eq. simpl. rewrite Hm. simpl.
    by rewrite insert_insert_eq.
  - rewrite !lookup_insert_eq. simpl. by rewrite !insert_insert_eq.
Qed.



(** X25.  The life of an access token.  A token just created
    validates, as an active entry with no usage.  [record_usage] on a
    stored token counts one more request and [tokens_used] more tokens
    for the model and in the totals, leaves the counters of the other
    models and every other token as they were, and does not look at
    the activity flag; on a token that is not stored it does nothing.
    [validate_token] never returns an entry that is not active, and
    returns nothing for a token that was deleted. *)
Theorem token_lifecycle
    (_hash_token : string -> string) (db : TokenDb)
    (raw_token now name_ token model : string) (tokens_used : Z) :
  (exists e,
     validate_token _hash_token
       (create_token _hash_token db raw_token now name_).1 raw_token = Some e
     /\ is_active e = true /\ usage e = ∅
     /\ total_requests e = 0 /\ total_tokens e = 0
     /\ id e = _hash_token raw_token)
  /\ (forall e, tokens_hash db !! _hash_token token = Some e ->
        exists e',
          tokens_hash (record_usage _hash_token db token model tokens_used)
            !! _hash_token token = Some e'
          /\ total_requests e' = total_requests e + 1
          /\ total_tokens e' = total_tokens e + tokens_used
          /\ requests (model_counters e' model)
             = requests (model_counters e model) + 1
          /\ tokens (model_counters e' model)
             = tokens (model_counters e model) + tokens_used
          /\ (forall m, m <> model -> usage e' !! m = usage e !! m)
          /\ is_active e' = is_active e)
  /\ (forall k, k <> _hash_token token ->
        tokens_hash (record_usage _hash_token db token model tokens_used) !! k
        = tokens_hash db !! k)
  /\ (tokens_hash db !! _hash_token token = None ->
      record_usage _hash_token db token model tokens_used = db)
  /\ (forall e, validate_token _hash_token db token = Some e ->
        is_active e = true /\ tokens_hash db !! _hash_token token = Some e)
  /\ validate_token _hash_token (delete_token db (_hash_token token)).1 token
     = None.
Proof.
  split; [|split; [|split; [|split; [|split]]]].
  - unfold validate_token, create_token. simpl. rewrite lookup_insert_eq. simpl.
    eexists. split; [reflexivity|]. done.
  - intros e Hk.
    destruct (record_usage_entry _hash_token db token model tokens_used e Hk)
      as (e' & Hlook & Husage & Hreq & Htok & Hact & _).
    exists e'. do 3 (split; [done|]).
    unfold model_counters at 1 3. rewrite Husage, lookup_insert_eq. simpl.
    do 2 (split; [done|]). split; [|done].
    intros m Hne. by rewrite lookup_insert_ne.
  - intros k Hne. unfold record_usage.
    destruct (tokens_hash db !! _hash_token token); [|done].
    simpl. by rewrite lookup_insert_ne.
  - intros Hnone. unfold record_usage. by rewrite Hnone.
  - intros e. unfold validate_token.
    destruct (tokens_hash db !! _hash_token token) as [e0|]; [|done].
    destruct (is_active e0) eqn:Hact; [|done]. by intros [= <-].
  - unfold validate_token, delete_token. simpl. by rewrite lookup_delete_eq.
Qed.

End token_service_properties.

(* ===================================================================== *)
(** * The capabilities a chat request requires *)
(* ===================================================================== *)

Section chat_request_properties.
Import constants.
Import rate_limiter.
Import api_key_service.
Import router_service.
Import chat.
Import chat_request.
Import props.
Import more.
Import request_props.

Lemma has_key_spec (key : string) (d : Dict) :
  has_key key d = true <-> is_Some (d !! key).
Proof. unfold has_key. apply bool_decide_eq_true. Qed.

Lemma tool_caps_spec (caps : gset string) (tool : Dict) (c : string) :
  c ∈ tool_caps caps tool <->
  c ∈ caps
  \/ (c = CAP_FUNCTION_CALLING /\ asks_functions tool)
  \/ (c = CAP_SEARCH_GROUNDING /\ asks_search tool)
  \/ (c = CAP_CODE_EXECUTION /\ asks_code tool)
  \/ (c = CAP_URL_CONTEXT /\ asks_url tool).
Proof.
  unfold tool_caps, asks_functions, asks_search, asks_code, asks_url. cbv zeta.
  rewrite <- !has_key_spec.
  assert (tool !! "type" = Some (JString "function")
          <-> get_equals "type" "function" tool = true) as ->.
  { unfold get_equals. by rewrite bool_decide_eq_true. }
  destruct (has_key "function_declarations" tool),
           (has_key "functionDeclarations" tool),
           (get_equals "type" "function" tool),
           (has_key "google_search" tool), (has_key "googleSearch" tool),
           (has_key "code_execution" tool), (has_key "codeExecution" tool),
           (has_key "url_context" tool), (has_key "urlContext" tool);
    simpl; rewrite ?elem_of_union, ?elem_of_singleton;
    intuition congruence.
Qed.

Lemma foldl_tool_caps_spec (tools_ : list Dict) (caps : gset string) (c : string) :
  c ∈ foldl tool_caps caps tools_ <->
  c ∈ caps
  \/ exists tool, tool ∈ tools_
       /\ ((c = CAP_FUNCTION_CALLING /\ asks_functions tool)
           \/ (c = CAP_SEARCH_GROUNDING /\ asks_search tool)
           \/ (c = CAP_CODE_EXECUTION /\ asks_code tool)
           \/ (c = CAP_URL_CONTEXT /\ asks_url tool)).
Proof.
  revert caps. induction tools_ as [|tool tools_ IH]; intros caps; simpl.
  - split; [by left|]. intros [?|(tool & Hin & _)]; [done|].
    by apply elem_of_nil in Hin.
  - rewrite IH, tool_caps_spec. split.
    + intros [[?|Htool]|(t & Hin & Ht)].
      * by left.
      * right. exists tool. split; [by left|done].
      * right. exists t. split; [by right|done].
    + intros [?|(t & [->|Hin]%elem_of_cons & Ht)].
      * left. by left.
      * left. by right.
      * right. by exists t.
Qed.

Lemma detect_required_capabilities_spec
    (upper : string -> string) (request : ChatCompletionRequest) (c : string) :
  c ∈ _detect_required_capabilities upper request <->
  (c = CAP_FUNCTION_CALLING
   /\ exists tool, tool ∈ tools_of request /\ asks_functions tool)
  \/ (c = CAP_SEARCH_GROUNDING
      /\ exists tool, tool ∈ tools_of request /\ asks_search tool)
  \/ (c = CAP_CODE_EXECUTION
      /\ exists tool, tool ∈ tools_of request /\ asks_code tool)
  \/ (c = CAP_URL_CONTEXT
      /\ exists tool, tool ∈ tools_of request /\ asks_url tool)
  \/ (c = CAP_IMAGE_GENERATION /\ asks_image upper request)
  \/ (c = CAP_STRUCTURED_OUTPUT /\ asks_json request).
Proof.
  unfold _detect_required_capabilities. cbv zeta.
  set (caps1 := match tools request with
                | Some (tool :: rest) => foldl tool_caps ∅ (tool :: rest)
                | _ => ∅
                end).
  assert (forall x, x ∈ caps1 <->
            exists tool, tool ∈ tools_of request
              /\ ((x = CAP_FUNCTION_CALLING /\ asks_functions tool)
                  \/ (x = CAP_SEARCH_GROUNDING /\ asks_search tool)
                  \/ (x = CAP_CODE_EXECUTION /\ asks_code tool)
                  \/ (x = CAP_URL_CONTEXT /\ asks_url tool))) as Hcaps1.
  { intros x. unfold caps1, tools_of.
    destruct (tools request) as [[|tool rest]|]; simpl default.
    - rewrite elem_of_empty. split; [done|].
      intros (t & Hin & _). by apply elem_of_nil in Hin.
    - rewrite foldl_tool_caps_spec, elem_of_empty. tauto.
    - rewrite elem_of_empty. split; [done|].
      intros (t & Hin & _). by apply elem_of_nil in Hin. }
  set (caps2 := match response_modalities request with
                | Some (m :: rest) =>
                    if bool_decide ("IMAGE" ∈ List.map upper (m :: rest))
                    then caps1 ∪ {[CAP_IMAGE_GENERATION]} else caps1
                | _ => caps1
                end).
  assert (forall x, x ∈ caps2 <->
            x ∈ caps1 \/ (x = CAP_IMAGE_GENERATION /\ asks_image upper request))
    as Hcaps2.
  { intros x. unfold caps2, asks_image.
    destruct (response_modalities request) as [[|m rest]|]; simpl default.
    - split; [by left|]. intros [?|(_ & y & Hin & _)]; [done|].
      by apply elem_of_nil in Hin.
    - case_bool_decide as Himg.
      + rewrite elem_of_union, elem_of_singleton.
        apply list_elem_of_In, in_map_iff in Himg as (y & Hy & Hin).
        apply list_elem_of_In in Hin. split; [|tauto].
        intros [?| ->]; [by left|]. right. split; [done|]. by exists y.
      + split; [by left|]. intros [?|(_ & y & Hin & Hy)]; [done|].
        destruct Himg. apply list_elem_of_In, in_map_iff.
        exists y. split; [done|]. by apply list_elem_of_In.
    - split; [by left|]. intros [?|(_ & y & Hin & _)]; [done|].
      by apply elem_of_nil in Hin. }
  assert (c ∈ match response_format request with
              | Some format =>
                  if bool_decide (format <> ∅)
                  then
                    match
                      match format !! "type" with
                      | Some value => value
                      | None => JString ""
                      end
                    with
                    | JString s =>
                        if bool_decide
                             (s ∈ ["json_object"; "json"; "json_schema"])
                        then caps2 ∪ {[CAP_STRUCTURED_OUTPUT]} else caps2
                    | JOther => caps2
                    end
                  else caps2
              | None => caps2
              end
          <-> c ∈ caps2 \/ (c = CAP_STRUCTURED_OUTPUT /\ asks_json request))
    as Hcaps3.
  { unfold asks_json.
    destruct (response_format request) as [format|].
    - case_bool_decide as Hne.
      + destruct (format !! "type") as [[s|]|] eqn:Hty.
        * case_bool_decide as Hs.
          -- rewrite elem_of_union, elem_of_singleton. split; [|tauto].
             intros [?| ->]; [by left|]. right. split; [done|].
             by exists format, s.
          -- split; [by left|].
             intros [?|(_ & f & s' & [= <-] & Hty' & Hs')]; [done|].
             rewrite Hty in Hty'. injection Hty' as <-. done.
        * split; [by left|].
          intros [?|(_ & f & s' & [= <-] & Hty' & _)]; [done|]. congruence.
        * rewrite bool_decide_eq_false_2.
          -- split; [by left|].
             intros [?|(_ & f & s' & [= <-] & Hty' & _)]; [done|]. congruence.
          -- rewrite !elem_of_cons, elem_of_nil.
             intros [H|[H|[H|[]]]]; discriminate H.
      + split; [by left|].
        intros [?|(_ & f & s' & [= <-] & Hty' & _)]; [done|].
        rewrite Hne in Hty'. by apply lookup_empty_Some in Hty'.
    - split; [by left|]. by intros [?|(_ & f & s' & [=] & _)]. }
  rewrite Hcaps3, Hcaps2, Hcaps1. clear.
  split.
  - intros [[(tool & Hin & [[-> ?]|[[-> ?]|[[-> ?]|[-> ?]]]])|?]|?]; eauto 10.
  - intros [[-> (t & ? & ?)]|[[-> (t & ? & ?)]|[[-> (t & ? & ?)]
             |[[-> (t & ? & ?)]|[?|?]]]]]; eauto 10.
Qed.

(** X26.  The capabilities required of a chat request are read off
    three fields.  Function calling is required exactly when a tool
    declares functions (under either spelling of the key) or has type
    [function]; search grounding, code execution and URL context
    exactly when a tool has the corresponding key, in either spelling;
    image generation exactly when a response modality reads [IMAGE]
    once upper-cased; structured output exactly when the response
    format has type [json_object], [json] or [json_schema].  Nothing
    else is ever required: not text, thinking, multimodal input or
    embedding. *)
Theorem required_capabilities_follow_the_request
    (upper : string -> string) (request : ChatCompletionRequest) (c : string) :
  (c ∈ _detect_required_capabilities upper request <->
   (c = CAP_FUNCTION_CALLING
    /\ exists tool, tool ∈ tools_of request /\ asks_functions tool)
   \/ (c = CAP_SEARCH_GROUNDING
       /\ exists tool, tool ∈ tools_of request /\ asks_search tool)
   \/ (c = CAP_CODE_EXECUTION
       /\ exists tool, tool ∈ tools_of request /\ asks_code tool)
   \/ (c = CAP_URL_CONTEXT
       /\ exists tool, tool ∈ tools_of request /\ asks_url tool)
   \/ (c = CAP_IMAGE_GENERATION /\ asks_image upper request)
   \/ (c = CAP_STRUCTURED_OUTPUT /\ asks_json request))
  /\ (c ∈ _detect_required_capabilities upper request ->
      c <> CAP_TEXT /\ c <> CAP_THINKING /\ c <> CAP_MULTIMODAL_INPUT
      /\ c <> CAP_EMBEDDING).
Proof.
  split; [apply detect_required_capabilities_spec|].
  intros Hc. apply detect_required_capabilities_spec in Hc.
  destruct Hc as [[-> _]|[[-> _]|[[-> _]|[[-> _]|[[-> _]|[-> _]]]]]];
    repeat split; discriminate.
Qed.

(** ** Requests no model can serve *)

Lemma image_model_caps (c : string) :
  c ∈ default ∅ (MODEL_CAPABILITIES !! GEMINI_25_FLASH_IMAGE) ->
  c = CAP_TEXT \/ c = CAP_IMAGE_GENERATION.
Proof.
  unfold MODEL_CAPABILITIES. simpl.
  rewrite !(lookup_insert_ne _ _ GEMINI_25_FLASH_IMAGE) by discriminate.
  rewrite lookup_insert_eq. simpl.
  rewrite !elem_of_union, !elem_of_singleton, elem_of_empty. tauto.
Qed.

Lemma select_image_and_more (self : RouterService) (keys : KeyDb) (rate : RateDb)
    (now : Qc) (preferred : option string) (est : Z) (required : gset string)
    (exclude : option (gset (string * string))) (blocked : option (gset string))
    (c : string) :
  CAP_IMAGE_GENERATION ∈ required -> c ∈ required ->
  c <> CAP_TEXT -> c <> CAP_IMAGE_GENERATION ->
  select_best_key_and_model self keys rate now preferred est (Some required)
                            exclude blocked
    = AllKeysExhausted.
Proof.
  intros Himg Hc Htext Hnot.
  unfold select_best_key_and_model. case_bool_decide as Hne; [done|].
  pose proof (try_models_first_viable self keys rate now est (Some required)
                (default ∅ exclude) (default ∅ blocked)
                (_build_model_order preferred (Some required))) as Hfirst.
  destruct (try_models _ _ _ _ _ _ _ _ _) as [kh model em pv|]; [|done].
  destruct Hfirst as (_ & _ & _ & _ & _ & Hcaps & _).
  assert (required ⊆ default ∅ (MODEL_CAPABILITIES !! model)) as Hsub.
  { apply Hcaps. simpl. apply bool_decide_eq_true.
    intros ->. by apply elem_of_empty in Hc. }
  pose proof (Hsub _ Himg) as Hmodel.
  apply capabilities_catalog in Hmodel as (_ & Hmodel & _).
  rewrite (Hmodel eq_refl) in Hsub.
  apply Hsub, image_model_caps in Hc as [?|?]; done.
Qed.

Lemma run_without_a_model (self : RouterService) (request : Request)
    (envs : nat -> Env) (r : Redis) :
  (forall keys_ rate_ now_,
     select_best_key_and_model self keys_ rate_ now_
       (Some (preferred_model request)) (estimated_tokens request)
       (if bool_decide (required_caps request <> ∅)
        then Some (required_caps request) else None)
       (Some ∅) (Some ∅)
     = AllKeysExhausted) ->
  _generate_with_fallback self request envs r
  = Some (Exhausted 1 ∅ None, mkLocals ∅ ∅ ∅ None 1,
          [mkAttempt ∅ ∅ AllKeysExhausted None []],
          concurrent (envs 0%nat) r).
Proof.
  intros Hsel. unfold _generate_with_fallback.
  change (fallback_loop (S (Z.to_nat max_attempts)) self request envs
            init_locals r)
    with (let env := envs (Z.to_nat (total_attempts init_locals)) in
          let '(step, record, r1) :=
            attempt self request env init_locals (concurrent env r) in
          match step with
          | Continue l1 =>
            match fallback_loop (Z.to_nat max_attempts) self request envs l1 r1 with
            | Some (out, l', trace, r') => Some (out, l', record :: trace, r')
            | None => None
            end
          | Break l1 => Some (exhausted l1, l1, [record], r1)
          | Return result l1 => Some (Served result, l1, [record], r1)
          end).
  cbv zeta. unfold attempt. cbv zeta.
  change (failed_pairs init_locals) with (∅ : gset (string * string)).
  change (blocked_models init_locals) with (∅ : gset string).
  rewrite Hsel. reflexivity.
Qed.

(** X27.  A chat request that asks for image output and requires
    anything besides (a function, search, code-execution or URL tool,
    or JSON output) is never served: no model of the catalog has image
    generation with another of those capabilities, so the router finds
    nothing, whatever the credentials and their usage; the fallback
    loop makes one iteration without reaching the upstream and raises
    the 429 error that reports one combination tried, no model blocked
    and no error seen. *)
Theorem image_request_with_other_needs_is_never_served
    (upper : string -> string) (chat_request : ChatCompletionRequest)
    (self : RouterService) (preferred : string) (est : Z)
    (envs : nat -> Env) (r : Redis) (c : string) :
  asks_image upper chat_request ->
  c ∈ _detect_required_capabilities upper chat_request ->
  c <> CAP_IMAGE_GENERATION ->
  _generate_with_fallback self
    (mkRequest preferred est (_detect_required_capabilities upper chat_request))
    envs r
  = Some (Exhausted 1 ∅ None, mkLocals ∅ ∅ ∅ None 1,
          [mkAttempt ∅ ∅ AllKeysExhausted None []],
          concurrent (envs 0%nat) r).
Proof.
  intros Himg Hc Hnot. apply run_without_a_model. simpl.
  intros keys_ rate_ now_.
  rewrite bool_decide_eq_true_2
    by (intros Heq; rewrite Heq in Hc; by apply elem_of_empty in Hc).
  apply (select_image_and_more _ _ _ _ _ _ _ _ _ c); [|done| |done].
  - apply detect_required_capabilities_spec. do 4 right. left. done.
  - apply detect_required_capabilities_spec in Hc.
    destruct Hc as [[-> _]|[[-> _]|[[-> _]|[[-> _]|[[-> _]|[-> _]]]]]];
      discriminate.
Qed.

End chat_request_properties.

Section chat_request_concrete.
Import constants.
Import router_service.
Import chat.
Import chat_request.
Import request_props.
Import scenario.

(** X27, witness: the request for text and an image with Google search
    as a tool. *)
Lemma image_request_with_other_needs_is_never_served_witness :
  asks_image ascii_upper image_with_search
  /\ (CAP_SEARCH_GROUNDING
        ∈ _detect_required_capabilities ascii_upper image_with_search)
  /\ _generate_with_fallback default_router
       (mkRequest GEMINI_25_FLASH_IMAGE 100
          (_detect_required_capabilities ascii_upper image_with_search))
       envs_pro_out redis0
     = Some (Exhausted 1 ∅ None, mkLocals ∅ ∅ ∅ None 1,
             [mkAttempt ∅ ∅ AllKeysExhausted None []],
             concurrent (envs_pro_out 0%nat) redis0).
Proof.
  assert (asks_image ascii_upper image_with_search) as Himg.
  { exists "image". split; [|reflexivity].
    simpl. apply elem_of_cons. right. apply elem_of_cons. by left. }
  assert (CAP_SEARCH_GROUNDING
            ∈ _detect_required_capabilities ascii_upper image_with_search)
    as Hsearch.
  { vm_compute. reflexivity. }
  split; [exact Himg|]. split; [exact Hsearch|].
  apply (image_request_with_other_needs_is_never_served ascii_upper
           image_with_search default_router GEMINI_25_FLASH_IMAGE 100
           envs_pro_out redis0 CAP_SEARCH_GROUNDING Himg Hsearch).
  discriminate.
Defined.

End chat_request_concrete.
